(** * Alpha-miner discovery pipeline: a shallow embedding and its properties

    The development follows [alpha_algo_app.py] (trace aggregation,
    directly-follows relation, footprint matrix, independent sets, transitions,
    maximal-set filter) and the threshold filter of
    [frontend_streamlit_app.py].

    Python dictionaries whose iteration order is observable (the trace
    dictionary) are insertion-ordered association lists; dictionaries that are
    only looked up are [gmap]s; Python sets are [gset]s; tuples are lists. *)

From Stdlib Require Import ZArith QArith.
From Stdlib Require PrimFloat FloatOps FloatAxioms SpecFloat Uint63.
From stdpp Require Import gmap strings list fin_maps fin_sets sorting.

Local Open Scope Z_scope.

(* ===================================================================== *)
(** ** Data model *)
(* ===================================================================== *)

(** A trace is a tuple of activity labels. *)
Abbreviation trace := (list string).

(** Ordered pair of activity labels: the key type of the directly-follows
    relation and of the footprint matrix. *)
Abbreviation pair := (string * string)%type.

(** Key of the transition dictionaries: [(tuple(set1), tuple(set2))]. *)
Abbreviation tkey := (list string * list string)%type.

(** The Python values that can sit in a metrics dictionary. *)
Inductive pyval :=
| PyInt (z : Z)
| PyBool (b : bool)
| PyFloat (f : PrimFloat.float)
| PyStr (s : string)
| PyNone.

(** [{'count': ..., 'frequency': ...}] *)
Abbreviation metrics := (gmap string pyval).

(** The trace dictionary, in insertion order. *)
Abbreviation trace_dict := (list (trace * metrics)).

(** The four footprint symbols. The source stores them as the string
    literals that [symbol_str] lists and only ever compares them for equality. *)
Inductive relation := Parallel | Independent | CausalFwd | CausalBwd.

Definition symbol_str (r : relation) : string :=
  match r with
  | Parallel => "| |"
  | Independent => " # "
  | CausalFwd => "-->"
  | CausalBwd => "<--"
  end.

Global Instance relation_eq_dec : EqDecision relation.
Proof. solve_decision. Defined.

Definition relation_to_nat (r : relation) : nat :=
  match r with Parallel => 0 | Independent => 1 | CausalFwd => 2 | CausalBwd => 3 end%nat.

Definition relation_of_nat (n : nat) : option relation :=
  match n with
  | 0 => Some Parallel | 1 => Some Independent
  | 2 => Some CausalFwd | 3 => Some CausalBwd
  | _ => None
  end%nat.

Global Instance relation_countable : Countable relation.
Proof.
  apply (inj_countable relation_to_nat relation_of_nat).
  by intros [].
Defined.

(** Exceptions the modelled functions can raise. *)
Inductive exn :=
| ValueError (t : trace) (qty : pyval)
| IndexError
| KeyError (k : string)
| TypeError.

Inductive result (A : Type) :=
| Ok (a : A)
| Raise (e : exn).
Arguments Ok {A} a.
Arguments Raise {A} e.

Global Instance result_ret : MRet result := λ A a, Ok a.

Global Instance result_bind : MBind result := λ A B k r,
  match r with
  | Ok a => k a
  | Raise e => Raise e
  end.

(** Left-to-right loop over a list that stops at the first exception. *)
Fixpoint rfold {A B} (f : A → B → result A) (a : A) (l : list B) : result A :=
  match l with
  | [] => Ok a
  | b :: l' => a' ← f a b ; rfold f a' l'
  end.

(* ===================================================================== *)
(** ** Boundary activities and the directly-follows relation *)
(* ===================================================================== *)

(** [trace[0]] and [trace[-1]]; both raise [IndexError] on the empty tuple. *)
Definition first_event (t : trace) : result string :=
  match t with
  | [] => Raise IndexError
  | x :: _ => Ok x
  end.

Definition last_event (t : trace) : result string :=
  match last t with
  | None => Raise IndexError
  | Some x => Ok x
  end.

(** [identify_initial_and_final_events]: two set comprehensions over the keys,
    each returned as a list. *)
Definition identify_initial_and_final_events (td : trace_dict)
  : result (list string * list string) :=
  initial_events ← rfold (λ (s : gset string) (e : trace * metrics),
                             x ← first_event e.1 ; Ok ({[x]} ∪ s)) ∅ td ;
  final_events ← rfold (λ (s : gset string) (e : trace * metrics),
                           x ← last_event e.1 ; Ok ({[x]} ∪ s)) ∅ td ;
  Ok (elements initial_events, elements final_events).

(** [isinstance(qty, int)], with the integer the value stands for; [bool] is a
    subclass of [int]. *)
Definition as_int (v : pyval) : option Z :=
  match v with
  | PyInt z => Some z
  | PyBool b => Some (if b then 1 else 0)
  | _ => None
  end.

(** The [count] field of an entry, as the integer it holds (0 when the
    field is missing or holds no integer). *)
Definition count_of (m : metrics) : Z :=
  default 0 (m !! "count" ≫= as_int).

(** [d[k] = d.get(k, 0) + qty] *)
Definition add_edge (d : gmap pair Z) (k : pair) (qty : Z) : gmap pair Z :=
  <[k := default 0 (d !! k) + qty]> d.

(** The pairs [(trace[i], trace[i + 1])] for [i] in [range(len(trace) - 1)]. *)
Fixpoint consecutive_pairs (t : trace) : list pair :=
  match t with
  | a :: (b :: _) as t' => (a, b) :: consecutive_pairs t'
  | _ => []
  end.

(** One iteration of the loop of [compute_directly_follows]. *)
Definition follow_trace (start_events end_events : gset string)
    (directly_follows : gmap pair Z) (entry : trace * metrics)
  : result (gmap pair Z) :=
  let '(t, m) := entry in
  let qty := default (PyInt 0) (m !! "count") in
  match as_int qty with
  | None => Raise (ValueError t qty)
  | Some q =>
      first ← first_event t ;
      let d1 := if decide (first ∈ start_events)
                then add_edge directly_follows ("start", first) q
                else directly_follows in
      let d2 := foldl (λ d p, add_edge d p q) d1 (consecutive_pairs t) in
      lst ← last_event t ;
      Ok (if decide (lst ∈ end_events) then add_edge d2 (lst, "end") q else d2)
  end.

Definition compute_directly_follows (td : trace_dict)
    (start_events end_events : list string) : result (gmap pair Z) :=
  rfold (follow_trace (list_to_set start_events) (list_to_set end_events)) ∅ td.

(* ===================================================================== *)
(** ** Footprint matrix *)
(* ===================================================================== *)

Definition sentinels : gset string := {["start"; "end"]}.

(** [k in d] *)
Definition has_key {V} (d : gmap pair V) (k : pair) : bool :=
  bool_decide (is_Some (d !! k)).

(** The set [activities] built by the comprehension and the [update]. *)
Definition activities (directly_follows : gmap pair Z) : gset string :=
  let keys := (map_to_list directly_follows).*1 in
  list_to_set (filter (λ a, a ∉ sentinels) (keys.*1))
  ∪ list_to_set (filter (λ b, b ∉ sentinels) (keys.*2)).

(** The symbol written at [footprint[(a, b)]]. *)
Definition footprint_cell (directly_follows : gmap pair Z) (a b : string) : relation :=
  if decide (a = b) then
    if has_key directly_follows (a, a) then Parallel else Independent
  else
    let follows_ab := has_key directly_follows (a, b) in
    let follows_ba := has_key directly_follows (b, a) in
    if follows_ab && follows_ba then Parallel
    else if follows_ab then CausalFwd
    else if follows_ba then CausalBwd
    else Independent.

Definition create_footprint (directly_follows : gmap pair Z) : gmap pair relation :=
  let acts := elements (activities directly_follows) in
  foldl (λ footprint a,
           foldl (λ footprint b,
                    <[(a, b) := footprint_cell directly_follows a b]> footprint)
                 footprint acts)
        ∅ acts.

(** The policy table of the footprint builder as the specification words it:
    rows are selected by [a == b], [fwd = (a,b) present] and
    [bwd = (b,a) present]. *)
Definition policy_table (same fwd bwd : bool) : relation :=
  match same, fwd, bwd with
  | true, true, _ => Parallel
  | true, false, _ => Independent
  | false, true, true => Parallel
  | false, true, false => CausalFwd
  | false, false, true => CausalBwd
  | false, false, false => Independent
  end.

(* ===================================================================== *)
(** ** Independent sets *)
(* ===================================================================== *)

(** [footprint_matrix.get((a, b), ' # ') != ' # ' or
     footprint_matrix.get((b, a), ' # ') != ' # '], negated. *)
Definition unrelated (footprint_matrix : gmap pair relation) (a b : string) : bool :=
  bool_decide (default Independent (footprint_matrix !! (a, b)) = Independent)
  && bool_decide (default Independent (footprint_matrix !! (b, a)) = Independent).

(** The double loop over positions [i < j] of the tuple; it returns [False]
    at the first related pair. *)
Fixpoint is_independent_set (footprint_matrix : gmap pair relation)
    (group_of_events : list string) : bool :=
  match group_of_events with
  | [] => true
  | a :: rest =>
      forallb (unrelated footprint_matrix a) rest
      && is_independent_set footprint_matrix rest
  end.

(** [itertools.combinations(l, r)]: the [r]-element subsequences of [l], in
    lexicographic order of positions. *)
Fixpoint combinations {A} (l : list A) (r : nat) : list (list A) :=
  match r, l with
  | O, _ => [[]]
  | S _, [] => []
  | S r', x :: l' => (cons x <$> combinations l' r') ++ combinations l' r
  end.

(** The set [events] of all labels that occur in a key of the matrix. *)
Definition events_of (footprint_matrix : gmap pair relation) : gset string :=
  let keys := (map_to_list footprint_matrix).*1 in
  list_to_set (keys.*1) ∪ list_to_set (keys.*2).

Definition find_independent_sets (footprint_matrix : gmap pair relation)
  : list (gset string) :=
  let events := elements (events_of footprint_matrix) in
  r ← seq 1 (length events);
  subset ← filter (λ s, is_independent_set footprint_matrix s) (combinations events r);
  [list_to_set subset].

(* ===================================================================== *)
(** ** Transitions between independent sets *)
(* ===================================================================== *)

(** An argument of [check_relationship]: a single label or a set of labels. *)
Inductive operand :=
| Single (a : string)
| Group (A : gset string).

(** [relationships.pop() if len(relationships) == 1 else None]; the members
    of the set are results of [dict.get], so [None] can be one of them. *)
Definition sole (relationships : gset (option relation)) : option relation :=
  match elements relationships with
  | [r] => r
  | _ => None
  end.

Definition check_relationship (footprint_matrix : gmap pair relation)
    (A B : operand) : option relation :=
  match A, B with
  | Single a, Single b => footprint_matrix !! (a, b)
  | Group sa, Group sb =>
      sole (list_to_set (a ← elements sa; b ← elements sb; [footprint_matrix !! (a, b)]))
  | Group sa, Single b =>
      sole (list_to_set (a ← elements sa; [footprint_matrix !! (a, b)]))
  | Single a, Group sb =>
      sole (list_to_set (b ← elements sb; [footprint_matrix !! (a, b)]))
  end.

(** The body of the loop of [find_transitions] for one pair of sets. *)
Definition record_transition (footprint_matrix : gmap pair relation)
    (transitions : gmap tkey relation) (set1 set2 : gset string)
  : gmap tkey relation :=
  match check_relationship footprint_matrix (Group set1) (Group set2) with
  | Some CausalFwd => <[(elements set1, elements set2) := CausalFwd]> transitions
  | Some Parallel => <[(elements set1, elements set2) := Parallel]> transitions
  | Some CausalBwd => <[(elements set2, elements set1) := CausalFwd]> transitions
  | _ => transitions
  end.

Definition find_transitions (footprint_matrix : gmap pair relation)
    (independent_sets : list (gset string)) : gmap tkey relation :=
  foldl (λ transitions c,
           match c with
           | [set1; set2] => record_transition footprint_matrix transitions set1 set2
           | _ => transitions
           end)
        ∅ (combinations independent_sets 2).

(* ===================================================================== *)
(** ** Maximal-set filter *)
(* ===================================================================== *)

(** [set(product(set1, set2))] *)
Definition deconstruct_subset (subset : tkey) : gset pair :=
  list_to_set (a ← subset.1; b ← subset.2; [(a, b)]).

(** The pairs under which [map_pairs_to_sets] files a key: its cross pairs,
    and their mirror images when the transition is parallel. *)
Definition indexed_pairs (transitions : gmap tkey relation) (complex_set : tkey)
  : gset pair :=
  let pairs := deconstruct_subset complex_set in
  if decide (transitions !! complex_set = Some Parallel)
  then pairs ∪ set_map (λ p : pair, (p.2, p.1)) pairs
  else pairs.

Definition map_pairs_to_sets (transitions : gmap tkey relation)
  : gmap pair (gset tkey) :=
  foldl (λ pair_to_sets complex_set,
           foldl (λ pair_to_sets p,
                    <[p := {[complex_set]} ∪ default ∅ (pair_to_sets !! p)]> pair_to_sets)
                 pair_to_sets
                 (elements (indexed_pairs transitions complex_set)))
        ∅ (map_to_list transitions).*1.

(** The condition under the innermost [if]. *)
Definition dominates (pairs : gset pair) (complex_set larger_set : tkey) : bool :=
  bool_decide (larger_set ≠ complex_set)
  && forallb (λ p, bool_decide (p ∈ deconstruct_subset larger_set)) (elements pairs).

(** The loop over [pairs] for one key, with both [break]s: the inner loop
    stops at the first dominating key, the outer one as soon as the key has
    left [maximal_sets]. [pair_to_sets[p]] cannot raise here (lemma
    [map_pairs_to_sets_indexed]), so the lookup is written with a default. *)
Fixpoint scan_pairs (pair_to_sets : gmap pair (gset tkey)) (complex_set : tkey)
    (pairs : gset pair) (todo : list pair) (maximal_sets : gset tkey) : gset tkey :=
  match todo with
  | [] => maximal_sets
  | p :: todo' =>
      let maximal_sets' :=
        if existsb (dominates pairs complex_set)
                   (elements (default ∅ (pair_to_sets !! p)))
        then maximal_sets ∖ {[complex_set]}
        else maximal_sets in
      if decide (complex_set ∉ maximal_sets') then maximal_sets'
      else scan_pairs pair_to_sets complex_set pairs todo' maximal_sets'
  end.

Definition maximal_keys (transitions : gmap tkey relation) : gset tkey :=
  let pair_to_sets := map_pairs_to_sets transitions in
  foldl (λ maximal_sets complex_set,
           let pairs := deconstruct_subset complex_set in
           scan_pairs pair_to_sets complex_set pairs (elements pairs) maximal_sets)
        (dom transitions) (map_to_list transitions).*1.

Definition filter_maximal_sets (transitions : gmap tkey relation) : gmap tkey relation :=
  let maximal_sets := maximal_keys transitions in
  filter (λ kv, kv.1 ∈ maximal_sets) transitions.

(** Coverage of a transition, strict inclusion of coverages. *)
Definition coverage (k : tkey) : gset pair := deconstruct_subset k.

(* ===================================================================== *)
(** ** Trace aggregation ([read_log_file]) *)
(* ===================================================================== *)

(** The pandas calls are embedded after their behaviour: [sort_values] on
    two columns is a stable sort, so rows of equal case and time stamp stay
    in the order of the file; [groupby] makes one group per case identifier,
    in ascending order, the rows of a group in the order of the sorted
    frame; [value_counts] lists the distinct traces by descending number of
    rows, traces of equal number in the order of their first appearance. *)

(** A stable sort: each element is inserted before the first element of the
    sorted rest that it does not exceed, so elements that [R] relates in
    both directions keep their order. *)
Fixpoint insert_sorted {A} (R : A → A → Prop) `{!RelDecision R}
    (x : A) (sorted : list A) : list A :=
  match sorted with
  | [] => [x]
  | y :: rest =>
      if decide (R x y) then x :: sorted else y :: insert_sorted R x rest
  end.

Definition stable_sort {A} (R : A → A → Prop) `{!RelDecision R}
    (l : list A) : list A :=
  foldr (insert_sorted R) [] l.

(** The distinct members of a list in the order of their first appearance
    ([Series.unique]). *)
Fixpoint unique {A} `{EqDecision A} (l : list A) : list A :=
  match l with
  | [] => []
  | x :: l' => x :: filter (λ y, y ≠ x) (unique l')
  end.

(** A row of the event log, after [read_csv] and [to_datetime]: case
    identifiers and timestamps are integers (the log generator writes
    numeric identifiers; a timestamp is its position on the time line). *)
Record event := Event {
  case_id : Z;
  activity_name : string;
  timestamp : Z
}.

(** Row order of [sort_values(by=['case_id', 'timestamp'])]. *)
Definition event_le (e1 e2 : event) : Prop :=
  case_id e1 < case_id e2
  ∨ (case_id e1 = case_id e2 ∧ timestamp e1 ≤ timestamp e2).

Global Instance event_le_dec : RelDecision event_le.
Proof. intros e1 e2. unfold event_le. apply _. Defined.

(** [sort_values(by=['case_id', 'timestamp'])] *)
Definition sort_values (df_log : list event) : list event :=
  stable_sort event_le df_log.

(** [groupby('case_id')['activity_name'].apply(list)] on a sorted frame:
    one row per case identifier, the rows of a group in the order of the
    frame. *)
Definition group_rows (sorted : list event) : list (Z * trace) :=
  (λ c, (c, activity_name <$> filter (λ e, case_id e = c) sorted))
    <$> remove_dups (case_id <$> sorted).

(** The frame [df_grouped], after [reset_index(name='trace')] and
    [apply(tuple)]. *)
Definition group_traces (df_log : list event) : list (Z * trace) :=
  group_rows (sort_values df_log).

(** Number of rows of a column equal to [t]. *)
Definition occurrences (t : trace) (col : list trace) : Z :=
  Z.of_nat (length (filter (λ u, u = t) col)).

(** Row order of [value_counts]: descending count. *)
Definition count_ge (x y : trace * Z) : Prop := y.2 ≤ x.2.

Global Instance count_ge_dec : RelDecision count_ge.
Proof. intros x y. unfold count_ge. apply _. Defined.

(** [value_counts().to_dict()]: every distinct trace with its number of
    rows, most frequent first, traces of equal number in the order of their
    first appearance. *)
Definition value_counts (col : list trace) : list (trace * Z) :=
  stable_sort count_ge ((λ t, (t, occurrences t col)) <$> unique col).

(** Python's [int / int]: the binary64 value nearest to the quotient. On
    operands below [2^53] both convert exactly, so the IEEE-754 quotient of
    the conversions is that value. *)
Definition true_div (a b : Z) : PrimFloat.float :=
  PrimFloat.div (PrimFloat.of_uint63 (Uint63.of_Z a))
                (PrimFloat.of_uint63 (Uint63.of_Z b)).

(** [value_counts], [to_dict] and the dictionary comprehension of
    [read_log_file], on the grouped frame. *)
Definition tabulate (df_grouped : list (Z * trace)) : trace_dict :=
  let total := Z.of_nat (length df_grouped) in
  (λ tc : trace * Z,
     (tc.1, ({["count" := PyInt tc.2;
               "frequency" := PyFloat (true_div tc.2 total)]} : metrics)))
    <$> value_counts (df_grouped.*2).

Definition read_log_file (df_log : list event) : trace_dict :=
  tabulate (group_traces df_log).

(** Number of cases of a log: its distinct case identifiers. *)
Definition total_cases (df_log : list event) : Z :=
  Z.of_nat (size (list_to_set (C := gset Z) (case_id <$> df_log))).


Definition sum_counts (td : trace_dict) : Z :=
  foldr (λ e acc, count_of e.2 + acc) 0 td.

(** The rational a binary64 value denotes (0 for infinities and NaN, which
    no frequency is). *)
Definition Q_of_float (f : PrimFloat.float) : Q :=
  match FloatOps.Prim2SF f with
  | SpecFloat.S754_finite s m e =>
      let z := if s then Z.neg m else Z.pos m in
      if decide (0 ≤ e) then inject_Z (z * 2 ^ e)
      else Qmake z (Pos.pow 2 (Z.to_pos (- e)))
  | _ => 0%Q
  end.

(** The [frequency] field of an entry, as the rational the stored float
    denotes. *)
Definition frequency_of (m : metrics) : Q :=
  match m !! "frequency" with
  | Some (PyFloat f) => Q_of_float f
  | _ => 0%Q
  end.

Definition sum_frequencies (td : trace_dict) : Q :=
  foldr (λ e acc, (frequency_of e.2 + acc)%Q) 0%Q td.

(** The frequencies added as Python adds floats, left to right. *)
Definition float_sum_frequencies (td : trace_dict) : PrimFloat.float :=
  foldl (λ acc e,
           match e.2 !! "frequency" with
           | Some (PyFloat f) => PrimFloat.add acc f
           | _ => acc
           end)
        PrimFloat.zero td.

(** The quotient [count / total] before rounding. *)
Definition exact_frequency (total : Z) (m : metrics) : Q :=
  Qmake (count_of m) (Z.to_pos total).

Definition sum_exact_frequencies (total : Z) (td : trace_dict) : Q :=
  foldr (λ e acc, (exact_frequency total e.2 + acc)%Q) 0%Q td.

(* ===================================================================== *)
(** ** Threshold filter of the front end *)
(* ===================================================================== *)

(** [z >= x] for an integer [z] and a float [x]: Python compares the two
    values exactly, without converting the integer; nothing is at least
    NaN, everything is at least minus infinity and nothing at least plus
    infinity. *)
Definition int_ge_float (z : Z) (x : PrimFloat.float) : bool :=
  match FloatOps.Prim2SF x with
  | SpecFloat.S754_nan => false
  | SpecFloat.S754_infinity negative => negative
  | _ => Qle_bool (Q_of_float x) (inject_Z z)
  end.

(** [v >= x] for a stored value [v] and a float threshold [x]: the IEEE
    comparison for a float, the exact one for an integer or a Boolean;
    strings and [None] raise. *)
Definition py_ge (v : pyval) (x : PrimFloat.float) : result bool :=
  match v with
  | PyFloat f => Ok (PrimFloat.leb x f)
  | PyInt z => Ok (int_ge_float z x)
  | PyBool b => Ok (int_ge_float (if b then 1 else 0) x)
  | _ => Raise TypeError
  end.

(** [{trace: info for trace, info in traces_dict.items()
      if info['frequency'] >= min_frequency}] *)
Fixpoint threshold_filter (min_frequency : PrimFloat.float) (traces_dict : trace_dict)
  : result trace_dict :=
  match traces_dict with
  | [] => Ok []
  | (t, info) :: rest =>
      match info !! "frequency" with
      | None => Raise (KeyError "frequency")
      | Some v =>
          keep ← py_ge v min_frequency;
          rest' ← threshold_filter min_frequency rest;
          Ok (if keep : bool then (t, info) :: rest' else rest')
      end
  end.

(** The first two statements of the front end's [start_analyser]. *)
Definition analysed_traces (df_log : list event) (min_frequency : PrimFloat.float)
  : result trace_dict :=
  threshold_filter min_frequency (read_log_file df_log).

(* ===================================================================== *)
(** ** Vocabulary of the statements *)
(* ===================================================================== *)

(** *** Trace aggregation and threshold *)

(** The traces of the cases of a log, one per case. *)
Definition case_traces (df_log : list event) : list trace := (group_traces df_log).*2.

(** Sum of the counts of a [value_counts] table. *)
Definition sum_snd (l : list (trace * Z)) : Z := foldr (λ x acc, x.2 + acc) 0 l.

(** Unit roundoff of binary64. *)
Definition unit_roundoff : Q := Qmake 1 (2 ^ 53).

(** The stored frequency of an entry lies within one unit roundoff,
    relatively, of the quotient [count / total]. *)
Definition rounded_within (total : Z) (e : trace * metrics) : Prop :=
  ((1 - unit_roundoff) * exact_frequency total e.2 <= frequency_of e.2)%Q
  ∧ (frequency_of e.2 <= (1 + unit_roundoff) * exact_frequency total e.2)%Q.

(** The entry passes the threshold test of the front end. *)
Definition meets (min_frequency : PrimFloat.float) (e : trace * metrics) : bool :=
  match e.2 !! "frequency" with
  | Some (PyFloat f) => PrimFloat.leb min_frequency f
  | _ => false
  end.

(** *** Directly-follows relation *)

(** [metrics.get('count', 0)] *)
Definition recorded_count (m : metrics) : pyval := default (PyInt 0) (m !! "count").

(** The count of an entry passes the [isinstance] test. *)
Definition count_accepted (e : trace * metrics) : Prop :=
  is_Some (as_int (recorded_count e.2)).

Global Instance count_accepted_dec (e : trace * metrics) : Decision (count_accepted e).
Proof. unfold count_accepted. apply _. Defined.

(** The edges one trace contributes to: the boundary edges, when its first
    and last activities are recognised, and its consecutive pairs. *)
Definition trace_edges (start_events end_events : gset string) (t : trace) : list pair :=
  match t with
  | [] => []
  | first :: _ =>
      (if decide (first ∈ start_events) then [("start", first)] else [])
      ++ consecutive_pairs t
      ++ (if decide (default first (last t) ∈ end_events)
          then [(default first (last t), "end")] else [])
  end.

(** Number of times [p] occurs in a list of edges. *)
Definition multiplicity (p : pair) (ps : list pair) : Z :=
  Z.of_nat (length (filter (λ q, q = p) ps)).

(** Some trace of the dictionary contributes to edge [p]. *)
Definition edge_present (start_events end_events : gset string)
    (td : trace_dict) (p : pair) : Prop :=
  Exists (λ e, p ∈ trace_edges start_events end_events e.1) td.

Global Instance edge_present_dec S E td p : Decision (edge_present S E td p).
Proof. unfold edge_present. apply _. Defined.

(** The case-weighted number of successions along edge [p]. *)
Definition edge_weight (start_events end_events : gset string)
    (td : trace_dict) (p : pair) : Z :=
  foldr (λ e acc,
           count_of e.2 * multiplicity p (trace_edges start_events end_events e.1) + acc)
        0 td.

(** *** Footprint and independent sets *)

(** A footprint matrix has a cell for every ordered pair of its labels. *)
Definition total_footprint (footprint_matrix : gmap pair relation) : Prop :=
  set_Forall (λ a, set_Forall (λ b, is_Some (footprint_matrix !! (a, b)))
                              (events_of footprint_matrix))
             (events_of footprint_matrix).

Global Instance total_footprint_dec (footprint_matrix : gmap pair relation) :
  Decision (total_footprint footprint_matrix).
Proof. unfold total_footprint. apply _. Defined.

(** *** Transitions *)

(** [x] stands before [y] in the list, as [combinations(l, 2)] pairs them. *)
Definition before {A} (l : list A) (x y : A) : Prop :=
  ∃ l1 l2, l = l1 ++ x :: l2 ∧ y ∈ l2.

(** What one iteration of [find_transitions] writes, if anything. *)
Definition transition_of (footprint_matrix : gmap pair relation)
    (c : list (gset string)) : option (tkey * relation) :=
  match c with
  | [set1; set2] =>
      match check_relationship footprint_matrix (Group set1) (Group set2) with
      | Some CausalFwd => Some ((elements set1, elements set2), CausalFwd)
      | Some Parallel => Some ((elements set1, elements set2), Parallel)
      | Some CausalBwd => Some ((elements set2, elements set1), CausalFwd)
      | _ => None
      end
  | _ => None
  end.

(** All cross pairs of two sets carry the same symbol [r]; there is at least
    one cross pair. *)
Definition uniform_cross (footprint_matrix : gmap pair relation)
    (A B : gset string) (r : relation) : Prop :=
  A ≠ ∅ ∧ B ≠ ∅
  ∧ ∀ a b, a ∈ A → b ∈ B → footprint_matrix !! (a, b) = Some r.

(** *** Maximal-set filter *)

(** A key of the dictionary is dominated: it covers at least one pair and
    some other key of the dictionary covers all its pairs. *)
Definition dominated (transitions : gmap tkey relation) (k : tkey) : Prop :=
  coverage k ≠ ∅
  ∧ ∃ larger, is_Some (transitions !! larger) ∧ larger ≠ k
      ∧ coverage k ⊆ coverage larger.

(** The keys of the dictionary whose coverage strictly includes that of [k]. *)
Definition strictly_above (transitions : gmap tkey relation) (k : tkey) : gset tkey :=
  filter (λ larger, coverage k ⊂ coverage larger) (dom transitions).

(** Every key of the dictionary covers at least one pair. *)
Definition covering (transitions : gmap tkey relation) : Prop :=
  map_Forall (λ k _, coverage k ≠ ∅) transitions.

(** Distinct keys of the dictionary have distinct coverages. *)
Definition distinct_coverages (transitions : gmap tkey relation) : Prop :=
  map_Forall (λ k _,
    map_Forall (λ larger _, coverage k = coverage larger → k = larger) transitions)
    transitions.

(** Every key of the dictionary pairs two non-empty sets of labels, each
    listed as a tuple: the keys are transitions. *)
Definition set_pairs (transitions : gmap tkey relation) : Prop :=
  ∀ k r, transitions !! k = Some r →
    ∃ X Y : gset string, k = (elements X, elements Y) ∧ X ≠ ∅ ∧ Y ≠ ∅.

Global Instance covering_dec (transitions : gmap tkey relation) :
  Decision (covering transitions).
Proof. unfold covering. apply _. Defined.

Global Instance distinct_coverages_dec (transitions : gmap tkey relation) :
  Decision (distinct_coverages transitions).
Proof. unfold distinct_coverages. apply _. Defined.

(* ===================================================================== *)
(** ** Sample inputs *)
(* ===================================================================== *)

(** The worked example. Six cases: three run [a b c d], two run [a c b d],
    one runs [a e d]. *)
Definition case_events (c : Z) (t : trace) : list event :=
  imap (λ i a, Event c a (Z.of_nat i)) t.

Definition example_log : list event :=
  case_events 1 ["a"; "b"; "c"; "d"] ++ case_events 2 ["a"; "b"; "c"; "d"]
  ++ case_events 3 ["a"; "b"; "c"; "d"] ++ case_events 4 ["a"; "c"; "b"; "d"]
  ++ case_events 5 ["a"; "c"; "b"; "d"] ++ case_events 6 ["a"; "e"; "d"].

Definition entry (t : trace) (count total : Z) : trace * metrics :=
  (t, {["count" := PyInt count; "frequency" := PyFloat (true_div count total)]}).

Definition example_traces : trace_dict :=
  [entry ["a"; "b"; "c"; "d"] 3 6; entry ["a"; "c"; "b"; "d"] 2 6;
   entry ["a"; "e"; "d"] 1 6].

Definition example_directly_follows : gmap pair Z :=
  list_to_map
    [(("start", "a"), 6); (("a", "b"), 3); (("a", "c"), 2); (("a", "e"), 1);
     (("b", "c"), 3); (("c", "b"), 2); (("c", "d"), 3); (("b", "d"), 2);
     (("e", "d"), 1); (("d", "end"), 6)].

Definition example_footprint : gmap pair relation :=
  create_footprint example_directly_follows.

(** A log of 49 cases, each with one event and an activity of its own. *)
Definition rounding_log : list event :=
  (λ n, Event (Z.of_nat n) (String (Ascii.ascii_of_nat (64 + n)) EmptyString) 0)
    <$> seq 1 49.

(** A dictionary with one trace whose metrics lack the [count] key. *)
Definition uncounted_traces : trace_dict := [(["a"; "b"], ∅)].

(** A dictionary whose second entry holds a string where the count should
    be, and whose first entry has a zero count. *)
Definition invalid_traces : trace_dict :=
  [(["a"; "b"], {["count" := PyInt 0]}); (["b"], {["count" := PyStr "3"]});
   (["c"], {["count" := PyNone]})].

(* ===================================================================== *)
(** ** The node list and the whole pipeline *)
(* ===================================================================== *)

(** [nodes.extend(event for event in trace if event not in nodes)]: the
    generator is consumed while the list grows, so its test sees the events
    appended so far. *)
Definition extend_new (nodes : list string) (t : trace) : list string :=
  foldl (λ ns event, if decide (event ∈ ns) then ns else ns ++ [event]) nodes t.

Definition identify_all_nodes (td : trace_dict) : list string :=
  foldl extend_new ["start"] td.*1 ++ ["end"].

(** What the front end's [start_analyser] computes before it displays. *)
Record discovery := Discovery {
  initial_events : list string;
  final_events : list string;
  nodes : list string;
  directly_follows : gmap pair Z;
  footprint : gmap pair relation;
  independent_sets : list (gset string);
  transitions : gmap tkey relation;
  filtered_transitions : gmap tkey relation
}.

(** The body of the [try] block of [start_analyser], from the filtered trace
    dictionary on; an exception leaves it at the statement that raises. *)
Definition discover (traces_dict : trace_dict) : result discovery :=
  boundary ← identify_initial_and_final_events traces_dict;
  let nodes := identify_all_nodes traces_dict in
  directly_follows ← compute_directly_follows traces_dict boundary.1 boundary.2;
  let footprint := create_footprint directly_follows in
  let independent_sets := find_independent_sets footprint in
  let transitions := find_transitions footprint independent_sets in
  let filtered_transitions := filter_maximal_sets transitions in
  Ok (Discovery boundary.1 boundary.2 nodes directly_follows footprint
                independent_sets transitions filtered_transitions).

(** The events of the traces of a dictionary. *)
Definition occurs (td : trace_dict) (x : string) : Prop :=
  Exists (λ e : trace * metrics, x ∈ e.1) td.

Global Instance occurs_dec td x : Decision (occurs td x).
Proof. unfold occurs. apply _. Defined.

(** The front end's [start_analyser], from the rows of the log to the
    structures it displays; [Raise] stands for the branch of its [except]. *)
Definition start_analyser (df_log : list event) (min_frequency : PrimFloat.float)
  : result discovery :=
  traces_dict ← analysed_traces df_log min_frequency;
  discover traces_dict.

(* ===================================================================== *)
(** ** The process diagram of the front end *)
(* ===================================================================== *)

(** What [create_process_diagram] hands to graphviz before rendering: the
    calls of [dot.node] and [dot.edge]. A node statement keeps the name, the
    label and the shape (the colours and line widths are constants of the
    source); an edge statement keeps its ends and whether it has an arrow
    head ([dir='none'] has none). The entries of the transition dictionary
    are visited in the order of [map_to_list]. *)
Inductive shape := Rect | Circle.

Inductive statement :=
| Node (name label : string) (sh : shape)
| Edge (tail head : string) (directed : bool).

(** The body of the loop over [filtered_transitions.items()]. *)
Definition transition_statements (source target : list string) (relationship : relation)
  : list statement :=
  let source_str := String.concat "_" source in
  let target_str := String.concat "_" target in
  match relationship with
  | Parallel =>
      let gateway_id := "gateway_" +:+ source_str +:+ "_" +:+ target_str in
      Node gateway_id "+" Circle
      :: ((λ s, Edge s gateway_id false) <$> source)
      ++ ((λ t, Edge gateway_id t false) <$> target)
  | CausalFwd =>
      let transition_id := "transition_" +:+ source_str +:+ "_" +:+ target_str in
      Node transition_id "x" Circle
      :: ((λ node, Edge node transition_id true) <$> source)
      ++ ((λ node, Edge transition_id node true) <$> target)
  | _ => []
  end.

Definition create_process_diagram (initial_events final_events nodes : list string)
    (filtered_transitions : gmap tkey relation) : list statement :=
  ((λ node, Node node node Rect)
     <$> filter (λ node, node ∉ ["start"; "end"]) nodes)
  ++ (kv ← map_to_list filtered_transitions;
      transition_statements kv.1.1 kv.1.2 kv.2)
  ++ (event ← initial_events;
      [Node "start" "start" Circle; Edge "start" event true])
  ++ (event ← final_events;
      [Node "end" "end" Circle; Edge event "end" true]).

(** What [display_directly_follows] hands to graphviz: a node for every
    source and every target of the relation, and an edge, labelled with its
    count, for every entry whose count reaches [min_frequency]. The front
    end calls it with the default [min_frequency=1]. *)
Inductive dfg_statement :=
| DfgNode (name : string)
| DfgEdge (source target : string) (count : Z).

Definition display_directly_follows (directly_follows : gmap pair Z)
    (min_frequency : Z) : list dfg_statement :=
  let keys := (map_to_list directly_follows).*1 in
  let nodes : gset string := list_to_set keys.*1 ∪ list_to_set keys.*2 in
  (DfgNode <$> elements nodes)
  ++ (kv ← map_to_list directly_follows;
      if decide (min_frequency ≤ kv.2) then [DfgEdge kv.1.1 kv.1.2 kv.2] else []).

(* ===================================================================== *)
(** ** The log generator ([simple_log_events_creator]) *)
(* ===================================================================== *)








(* ===================================================================== *)
(** ** Vocabulary of the further statements *)
(* ===================================================================== *)

(** The set of labels an operand of [check_relationship] stands for. *)
Definition as_group (X : operand) : gset string :=
  match X with
  | Single a => {[a]}
  | Group A => A
  end.

(** The symbol of the opposite direction. *)
Definition converse (r : relation) : relation :=
  match r with
  | CausalFwd => CausalBwd
  | CausalBwd => CausalFwd
  | Parallel => Parallel
  | Independent => Independent
  end.

(** Sum of [f] over a list; number of members of a list with a property. *)
Definition sumZ {A} (f : A → Z) (l : list A) : Z :=
  foldr (λ x acc, f x + acc) 0 l.

Definition tally {A} (P : A → Prop) `{∀ x, Decision (P x)} (l : list A) : Z :=
  Z.of_nat (length (filter P l)).

(** Total weight of the edges of a directly-follows relation that leave
    [x], and of those that enter [x]. *)
Definition outflow (directly_follows : gmap pair Z) (x : string) : Z :=
  sumZ (λ kv : pair * Z, if decide (kv.1.1 = x) then kv.2 else 0)
       (map_to_list directly_follows).

Definition inflow (directly_follows : gmap pair Z) (x : string) : Z :=
  sumZ (λ kv : pair * Z, if decide (kv.1.2 = x) then kv.2 else 0)
       (map_to_list directly_follows).

(** Case-weighted number of occurrences of [x] in the traces. *)
Definition visits (x : string) (td : trace_dict) : Z :=
  sumZ (λ e : trace * metrics, count_of e.2 * tally (λ y, y = x) e.1) td.



(** A name has a node statement in the diagram. *)
Definition declared (diagram : list statement) (name : string) : Prop :=
  ∃ label sh, Node name label sh ∈ diagram.

(** Some trace has [a] immediately followed by [b]. *)
Definition follows (td : trace_dict) (a b : string) : Prop :=
  Exists (λ e : trace * metrics, (a, b) ∈ consecutive_pairs e.1) td.

Global Instance follows_dec td a b : Decision (follows td a b).
Proof. unfold follows. apply _. Defined.

(* ===================================================================== *)
(** * Properties *)
(* ===================================================================== *)

(** The solvers of stdpp clear hypotheses by name; the notice they trigger
    when a name is already gone is of no interest here. *)
Set Warnings "-clear-no-such-hyp".

(** Closes an equation between closed terms by evaluating both sides. *)
Ltac vm_refl :=
  lazymatch goal with
  | |- ?l = ?r => exact (@eq_refl _ r <: l = r)
  end.

(** ** Footprint matrix *)

(** The four literals are distinct, so comparing symbols is comparing the
    strings the source compares. *)
Lemma symbol_str_inj (r1 r2 : relation) : symbol_str r1 = symbol_str r2 → r1 = r2.
Proof. by destruct r1, r2. Qed.

Section footprint_facts.
Context {V : Type}.
Implicit Types (m : gmap pair V) (a b x y : string) (l : list string).

(** One row of the double loop. *)
Lemma fill_row_lookup (g : string → V) a l m x y :
  foldl (λ fp b, <[(a, b) := g b]> fp) m l !! (x, y)
  = if decide (x = a ∧ y ∈ l) then Some (g y) else m !! (x, y).
Proof.
  revert m. induction l as [|b l IH]; intros m; cbn [foldl].
  - rewrite decide_False; [done|]. intros [_ H]. by apply elem_of_nil in H.
  - rewrite IH. destruct (decide (x = a ∧ y ∈ l)) as [[-> Hy]|Hn].
    + rewrite decide_True; [done|]. split; [done|]. by apply elem_of_cons; right.
    + destruct (decide ((a, b) = (x, y))) as [[= <- <-]|Hne].
      * rewrite lookup_insert_eq, decide_True; [done|].
        split; [done|]. by apply elem_of_cons; left.
      * rewrite lookup_insert_ne by done. rewrite decide_False; [done|].
        intros [-> [->|Hy]%elem_of_cons]; [by apply Hne|]. by apply Hn.
Qed.

(** The whole double loop. *)
Lemma fill_grid_lookup (g : string → string → V) (la lb : list string) m x y :
  foldl (λ fp a, foldl (λ fp b, <[(a, b) := g a b]> fp) fp lb) m la !! (x, y)
  = if decide (x ∈ la ∧ y ∈ lb) then Some (g x y) else m !! (x, y).
Proof.
  revert m. induction la as [|a la IH]; intros m; cbn [foldl].
  - rewrite decide_False; [done|]. intros [H _]. by apply elem_of_nil in H.
  - rewrite IH, (fill_row_lookup (g a)).
    destruct (decide (x ∈ la ∧ y ∈ lb)) as [[Hx Hy]|Hn].
    + rewrite decide_True; [done|]. split; [|done]. by apply elem_of_cons; right.
    + destruct (decide (x = a ∧ y ∈ lb)) as [[-> Hy]|Hn'].
      * rewrite decide_True; [done|]. split; [|done]. by apply elem_of_cons; left.
      * rewrite decide_False; [done|].
        intros [[->|Hx]%elem_of_cons Hy]; [by apply Hn'|by apply Hn].
Qed.
End footprint_facts.

(** Membership in the activity set, in terms of the keys of the relation. *)
Lemma elem_of_activities (df : gmap pair Z) (x : string) :
  x ∈ activities df
  ↔ ((x ∉ sentinels) ∧ ∃ y, is_Some (df !! (x, y)) ∨ is_Some (df !! (y, x))).
Proof.
  unfold activities.
  rewrite elem_of_union, !elem_of_list_to_set, !list_elem_of_filter,
    !list_elem_of_fmap.
  split.
  - intros [[Hs (k & -> & (kv & -> & Hkv)%list_elem_of_fmap)]
           |[Hs (k & -> & (kv & -> & Hkv)%list_elem_of_fmap)]];
      destruct kv as [[a b] v]; apply elem_of_map_to_list in Hkv; simpl in *;
      (split; [done|]).
    + exists b. left. by exists v.
    + exists a. right. by exists v.
  - intros [Hs (y & [[v Hv]|[v Hv]])]; [left|right]; (split; [done|]).
    + exists (x, y). split; [done|]. apply list_elem_of_fmap.
      exists (x, y, v). split; [done|]. by apply elem_of_map_to_list.
    + exists (y, x). split; [done|]. apply list_elem_of_fmap.
      exists (y, x, v). split; [done|]. by apply elem_of_map_to_list.
Qed.

Lemma create_footprint_lookup (df : gmap pair Z) (a b : string) :
  create_footprint df !! (a, b)
  = if decide (a ∈ activities df ∧ b ∈ activities df)
    then Some (footprint_cell df a b) else None.
Proof.
  unfold create_footprint.
  rewrite (fill_grid_lookup (footprint_cell df)), lookup_empty.
  destruct (decide (a ∈ activities df ∧ b ∈ activities df)) as [[Ha Hb]|Hn].
  - rewrite decide_True; [done|]. by rewrite !elem_of_elements.
  - rewrite decide_False; [done|]. by rewrite !elem_of_elements.
Qed.

(** The cell computed by the nested conditionals is the row of the policy
    table selected by [a == b], [fwd] and [bwd]. *)
Lemma footprint_cell_policy (df : gmap pair Z) (a b : string) :
  footprint_cell df a b
  = policy_table (bool_decide (a = b)) (has_key df (a, b)) (has_key df (b, a)).
Proof.
  unfold footprint_cell. case_decide as Hab.
  - subst b. rewrite bool_decide_eq_true_2 by done.
    by destruct (has_key df (a, a)).
  - rewrite bool_decide_eq_false_2 by done.
    by destruct (has_key df (a, b)), (has_key df (b, a)).
Qed.

(** C1. For every ordered pair [(a, b)] of non-sentinel activities that
    occur in a key of the directly-follows relation, [create_footprint]
    stores exactly the symbol the policy table gives for [a == b],
    [(a, b) present] and [(b, a) present]; the domain of the footprint is
    exactly those pairs, so ["start"] and ["end"] never occur in it. *)
Theorem create_footprint_policy_table (df : gmap pair Z) :
  (∀ x, x ∈ activities df
        ↔ ((x ∉ sentinels) ∧ ∃ y, is_Some (df !! (x, y)) ∨ is_Some (df !! (y, x))))
  ∧ (∀ a b, a ∈ activities df → b ∈ activities df →
       create_footprint df !! (a, b)
       = Some (policy_table (bool_decide (a = b))
                            (has_key df (a, b)) (has_key df (b, a))))
  ∧ (∀ a b, is_Some (create_footprint df !! (a, b)) →
       a ∈ activities df ∧ b ∈ activities df
       ∧ a ≠ "start" ∧ a ≠ "end" ∧ b ≠ "start" ∧ b ≠ "end").
Proof.
  split; [apply elem_of_activities|]. split.
  - intros a b Ha Hb. rewrite create_footprint_lookup, decide_True by done.
    by rewrite footprint_cell_policy.
  - intros a b. rewrite create_footprint_lookup.
    case_decide as H; [|by intros [? ?]]. intros _.
    destruct H as [Ha Hb]. do 2 (split; [done|]).
    apply elem_of_activities in Ha as [Ha _].
    apply elem_of_activities in Hb as [Hb _].
    unfold sentinels in *. set_solver.
Qed.

Lemma create_footprint_policy_table_witness :
  "b" ∈ activities example_directly_follows
  ∧ "c" ∈ activities example_directly_follows
  ∧ create_footprint example_directly_follows !! ("b", "c") = Some Parallel
  ∧ create_footprint example_directly_follows !! ("a", "start") = None.
Proof.
  destruct (create_footprint_policy_table example_directly_follows)
    as (_ & Hcell & Hdom).
  assert (Hb : "b" ∈ activities example_directly_follows) by compute_done.
  assert (Hc : "c" ∈ activities example_directly_follows) by compute_done.
  split_and!; [done..| |].
  - rewrite (Hcell "b" "c" Hb Hc). vm_refl.
  - destruct (create_footprint example_directly_follows !! ("a", "start"))
      as [r|] eqn:Hr; [|done].
    destruct (Hdom "a" "start") as (_ & _ & _ & _ & Hs & _); [by eexists|].
    by destruct Hs.
Defined.

(** C2. In a footprint built by [create_footprint], for [a] and [b] in its
    domain, [(a, b)] is causal-forward exactly when [(b, a)] is
    causal-backward, and parallel and independent are symmetric. *)
Theorem create_footprint_symmetry (df : gmap pair Z) (a b : string) :
  is_Some (create_footprint df !! (a, b)) →
  (create_footprint df !! (a, b) = Some CausalFwd
   ↔ create_footprint df !! (b, a) = Some CausalBwd)
  ∧ (create_footprint df !! (a, b) = Some Parallel
     ↔ create_footprint df !! (b, a) = Some Parallel)
  ∧ (create_footprint df !! (a, b) = Some Independent
     ↔ create_footprint df !! (b, a) = Some Independent).
Proof.
  rewrite !create_footprint_lookup.
  case_decide as H; [|by intros [? ?]]. intros _.
  rewrite decide_True by tauto.
  unfold footprint_cell.
  destruct (decide (a = b)) as [->|Hab].
  - rewrite decide_True by done. by destruct (has_key df (b, b)).
  - rewrite (decide_False (P := b = a)) by congruence. simpl.
    destruct (has_key df (a, b)), (has_key df (b, a)); simpl;
      repeat split; congruence.
Qed.

Lemma create_footprint_symmetry_witness :
  is_Some (create_footprint example_directly_follows !! ("a", "b"))
  ∧ (create_footprint example_directly_follows !! ("a", "b") = Some CausalFwd
     ↔ create_footprint example_directly_follows !! ("b", "a") = Some CausalBwd).
Proof.
  assert (H : is_Some (create_footprint example_directly_follows !! ("a", "b"))).
  { exists CausalFwd. vm_refl. }
  split; [exact H|].
  exact (proj1 (create_footprint_symmetry example_directly_follows "a" "b" H)).
Defined.

(** ** Independent sets *)

Section combinations_facts.
Context {A : Type}.
Implicit Types (l c : list A) (r : nat).

(** [combinations l r] lists the subsequences of [l] of length [r]. *)
Lemma elem_of_combinations l r c :
  c ∈ combinations l r ↔ c `sublist_of` l ∧ length c = r.
Proof.
  revert r c. induction l as [|x l IH]; intros [|r] c; simpl.
  - rewrite list_elem_of_singleton, sublist_nil_r.
    split; [by intros ->|by intros [-> _]].
  - rewrite elem_of_nil, sublist_nil_r. split; [done|]. by intros [-> ?].
  - rewrite list_elem_of_singleton. split.
    + intros ->. split; [apply sublist_nil_l|done].
    + intros [_ Hlen]. by destruct c.
  - rewrite elem_of_app, list_elem_of_fmap, sublist_cons_r, IH. split.
    + intros [(c' & -> & [Hs Hl]%IH)|[Hs Hl]].
      * split; [right; eauto|]. simpl. by rewrite Hl.
      * split; [by left|done].
    + intros [[Hs|(c' & -> & Hs)] Hl].
      * by right.
      * left. exists c'. split; [done|]. apply IH. split; [done|].
        simpl in Hl. by injection Hl.
Qed.

(** Two subsequences of a duplicate-free list with the same members are
    the same list. *)
Lemma sublist_NoDup_ext l c1 c2 :
  NoDup l → c1 `sublist_of` l → c2 `sublist_of` l →
  (∀ x, x ∈ c1 ↔ x ∈ c2) → c1 = c2.
Proof.
  intros Hnd. revert c1 c2.
  induction Hnd as [|x l Hx Hnd IH]; intros c1 c2 H1 H2 Heq.
  - apply sublist_nil_r in H1, H2. by subst.
  - apply sublist_cons_r in H1 as [H1|(c1' & -> & H1)];
    apply sublist_cons_r in H2 as [H2|(c2' & -> & H2)].
    + by apply IH.
    + exfalso. apply Hx. eapply elem_of_sublist; [|exact H1].
      apply Heq. by apply elem_of_cons; left.
    + exfalso. apply Hx. eapply elem_of_sublist; [|exact H2].
      apply Heq. by apply elem_of_cons; left.
    + f_equal. apply IH; [done..|]. intros y.
      specialize (Heq y). rewrite !elem_of_cons in Heq.
      split; intros Hy.
      * destruct Heq as [[->|?] _]; [by right| |done].
        exfalso. apply Hx. by eapply elem_of_sublist.
      * destruct Heq as [_ [->|?]]; [by right| |done].
        exfalso. apply Hx. by eapply elem_of_sublist.
Qed.

Lemma NoDup_combinations l r : NoDup l → NoDup (combinations l r).
Proof.
  intros Hnd. revert r.
  induction Hnd as [|x l Hx Hnd IH]; intros [|r]; simpl;
    try apply NoDup_singleton; [apply NoDup_nil_2|].
  apply NoDup_app. split_and!.
  - apply NoDup_fmap_2; [|apply IH]. by intros ?? [= ->].
  - intros c (c' & -> & _)%list_elem_of_fmap [Hs _]%elem_of_combinations.
    apply Hx. eapply elem_of_sublist; [|exact Hs]. by apply elem_of_cons; left.
  - apply IH.
Qed.
End combinations_facts.

(** The independence test does not depend on the order of the two labels. *)
Lemma unrelated_sym (fp : gmap pair relation) (a b : string) :
  unrelated fp a b = unrelated fp b a.
Proof. unfold unrelated. apply andb_comm. Qed.

Lemma is_independent_set_spec (fp : gmap pair relation) (c : list string) :
  NoDup c →
  is_independent_set fp c = true
  ↔ ∀ a b, a ∈ c → b ∈ c → a ≠ b → unrelated fp a b = true.
Proof.
  induction 1 as [|x c Hx Hnd IH]; simpl.
  - split; [|done]. intros _ a b Ha. by apply elem_of_nil in Ha.
  - rewrite andb_true_iff, forallb_forall, IH. split.
    + intros [Hrow Hrest] a b [->|Ha]%elem_of_cons [->|Hb]%elem_of_cons Hab.
      * done.
      * apply Hrow. by apply list_elem_of_In.
      * rewrite unrelated_sym. apply Hrow. by apply list_elem_of_In.
      * by apply Hrest.
    + intros Hall. split.
      * intros b Hb%list_elem_of_In. apply Hall.
        -- by apply elem_of_cons; left.
        -- by apply elem_of_cons; right.
        -- by intros ->.
      * intros a b Ha Hb. apply Hall; by apply elem_of_cons; right.
Qed.

(** Membership in the result of [find_independent_sets], with the
    independence test as the source writes it (a missing cell reads as
    independent). *)
Lemma elem_of_find_independent_sets (fp : gmap pair relation) (S : gset string) :
  S ∈ find_independent_sets fp
  ↔ S ≠ ∅ ∧ S ⊆ events_of fp
    ∧ ∀ a b, a ∈ S → b ∈ S → a ≠ b → unrelated fp a b = true.
Proof.
  unfold find_independent_sets.
  pose proof (NoDup_elements (events_of fp)) as Hnd.
  split.
  - intros (r & Hin & Hr)%list_elem_of_bind.
    apply elem_of_seq in Hr.
    apply list_elem_of_bind in Hin as (c & HS & Hc).
    apply list_elem_of_singleton in HS.
    apply list_elem_of_filter in Hc as [Hind [Hsub Hlen]%elem_of_combinations].
    assert (Hndc : NoDup c) by (by eapply sublist_NoDup).
    subst S. split_and!.
    + destruct c as [|x c]; [simpl in Hlen; lia|]. set_solver.
    + intros x Hx%elem_of_list_to_set.
      apply elem_of_elements. by eapply elem_of_sublist.
    + intros a b Ha%elem_of_list_to_set Hb%elem_of_list_to_set Hab.
      by apply (proj1 (is_independent_set_spec fp c Hndc) (Is_true_true_1 _ Hind)).
  - intros (Hne & Hsub & Hind).
    set (c := filter (λ x, x ∈ S) (elements (events_of fp))).
    assert (Hc : ∀ x, x ∈ c ↔ x ∈ S).
    { intros x. unfold c. rewrite list_elem_of_filter, elem_of_elements. set_solver. }
    assert (Hs : c `sublist_of` elements (events_of fp)) by apply sublist_filter.
    apply list_elem_of_bind. exists (length c). split.
    + apply list_elem_of_bind. exists c. split.
      * apply list_elem_of_singleton. apply set_eq. intros x.
        by rewrite elem_of_list_to_set, Hc.
      * apply list_elem_of_filter. split; [|by apply elem_of_combinations].
        assert (Hndc : NoDup c) by (by eapply sublist_NoDup).
        apply Is_true_true, (is_independent_set_spec fp c Hndc).
        intros a b Ha%Hc Hb%Hc. by apply Hind.
    + apply elem_of_seq. pose proof (sublist_length _ _ Hs).
      apply set_choose_L in Hne as [x Hx%Hc].
      destruct c; [by apply elem_of_nil in Hx|]. simpl in *. lia.
Qed.

(** Every subset is listed once. *)
Lemma NoDup_find_independent_sets (fp : gmap pair relation) :
  NoDup (find_independent_sets fp).
Proof.
  unfold find_independent_sets.
  pose proof (NoDup_elements (events_of fp)) as Hnd.
  assert (Hsize : ∀ r (S : gset string),
    S ∈ (filter (λ s, is_independent_set fp s)
                (combinations (elements (events_of fp)) r)
         ≫= λ subset, [list_to_set subset]) → size S = r).
  { intros r S (c & ->%list_elem_of_singleton
                & [_ [Hsub Hlen]%elem_of_combinations]%list_elem_of_filter
               )%list_elem_of_bind.
    rewrite size_list_to_set; [done|]. by eapply sublist_NoDup. }
  apply NoDup_bind; [| |apply NoDup_seq].
  - intros r1 r2 S _ _ H1%Hsize H2%Hsize. congruence.
  - intros r _. apply NoDup_bind.
    + intros c1 c2 S [_ [Hs1 _]%elem_of_combinations]%list_elem_of_filter
        [_ [Hs2 _]%elem_of_combinations]%list_elem_of_filter
        ->%list_elem_of_singleton H2%list_elem_of_singleton.
      eapply sublist_NoDup_ext; [exact Hnd|done..|].
      intros x. rewrite <-!(elem_of_list_to_set (C := gset string)).
      by rewrite H2.
    + intros c _. apply NoDup_singleton.
    + apply NoDup_filter, NoDup_combinations, Hnd.
Qed.

Lemma elem_of_events_of (fp : gmap pair relation) (x : string) :
  x ∈ events_of fp ↔ ∃ y, is_Some (fp !! (x, y)) ∨ is_Some (fp !! (y, x)).
Proof.
  unfold events_of.
  rewrite elem_of_union, !elem_of_list_to_set, !list_elem_of_fmap.
  split.
  - intros [(k & -> & (kv & -> & Hkv)%list_elem_of_fmap)
           |(k & -> & (kv & -> & Hkv)%list_elem_of_fmap)];
      destruct kv as [[a b] v]; apply elem_of_map_to_list in Hkv; simpl in *.
    + exists b. left. by exists v.
    + exists a. right. by exists v.
  - intros (y & [[v Hv]|[v Hv]]); [left|right].
    + exists (x, y). split; [done|]. apply list_elem_of_fmap.
      exists (x, y, v). split; [done|]. by apply elem_of_map_to_list.
    + exists (y, x). split; [done|]. apply list_elem_of_fmap.
      exists (y, x, v). split; [done|]. by apply elem_of_map_to_list.
Qed.

(** The labels of a footprint built by [create_footprint] are the activities
    of the relation, and the footprint has a cell for each pair of them. *)
Lemma events_of_create_footprint (df : gmap pair Z) :
  events_of (create_footprint df) = activities df.
Proof.
  apply set_eq. intros x. rewrite elem_of_events_of. split.
  - intros (y & [H|H]); rewrite create_footprint_lookup in H;
      destruct (decide _) as [[? ?]|_]; (done || by destruct H).
  - intros Hx. exists x. left.
    rewrite create_footprint_lookup, decide_True; [by eexists|done].
Qed.

Lemma create_footprint_total (df : gmap pair Z) :
  total_footprint (create_footprint df).
Proof.
  intros a Ha b Hb. rewrite events_of_create_footprint in Ha, Hb.
  rewrite create_footprint_lookup, decide_True; [by eexists|done].
Qed.

(** On a total footprint the test of the source reads the stored symbol. *)
Lemma unrelated_total (fp : gmap pair relation) (a b : string) :
  total_footprint fp → a ∈ events_of fp → b ∈ events_of fp →
  unrelated fp a b = true
  ↔ fp !! (a, b) = Some Independent ∧ fp !! (b, a) = Some Independent.
Proof.
  intros Htot Ha Hb. unfold unrelated.
  destruct (Htot a Ha b Hb) as [r1 H1], (Htot b Hb a Ha) as [r2 H2].
  rewrite H1, H2, andb_true_iff, !bool_decide_eq_true. simpl.
  split; intros [? ?]; split; congruence.
Qed.

(** C3. On a footprint matrix that has a cell for every pair of its labels
    (as every matrix built by [create_footprint] has),
    [find_independent_sets] returns exactly the non-empty subsets of the
    labels in which any two distinct members carry the independent symbol in
    both directions, each once; every singleton of a label is returned; a
    matrix without labels, in particular the empty one, yields the empty
    list. *)
Theorem find_independent_sets_exact (fp : gmap pair relation) :
  total_footprint fp →
  (∀ S : gset string,
     S ∈ find_independent_sets fp
     ↔ S ≠ ∅ ∧ S ⊆ events_of fp
       ∧ ∀ a b, a ∈ S → b ∈ S → a ≠ b →
           fp !! (a, b) = Some Independent ∧ fp !! (b, a) = Some Independent)
  ∧ (∀ a, a ∈ events_of fp → {[a]} ∈ find_independent_sets fp)
  ∧ NoDup (find_independent_sets fp)
  ∧ (events_of fp = ∅ → find_independent_sets fp = [])
  ∧ find_independent_sets ∅ = [].
Proof.
  intros Htot.
  assert (Hiff : ∀ S : gset string,
     S ∈ find_independent_sets fp
     ↔ S ≠ ∅ ∧ S ⊆ events_of fp
       ∧ ∀ a b, a ∈ S → b ∈ S → a ≠ b →
           fp !! (a, b) = Some Independent ∧ fp !! (b, a) = Some Independent).
  { intros S. rewrite elem_of_find_independent_sets.
    split; intros (Hne & Hsub & Hind); (split_and!; [done..|]);
      intros a b Ha Hb Hab.
    - apply unrelated_total; auto.
    - apply unrelated_total; auto. }
  split_and!; [done| |apply NoDup_find_independent_sets| |done].
  - intros a Ha. apply Hiff.
    split_and!; [apply non_empty_singleton_L|by apply singleton_subseteq_l|].
    intros x y ->%elem_of_singleton ->%elem_of_singleton Hxy. by destruct Hxy.
  - intros Hempty. unfold find_independent_sets. by rewrite Hempty.
Qed.

Lemma find_independent_sets_exact_witness :
  total_footprint example_footprint
  ∧ NoDup (find_independent_sets example_footprint)
  ∧ {["b"]} ∈ find_independent_sets example_footprint.
Proof.
  assert (Htot : total_footprint example_footprint).
  { compute_done. }
  destruct (find_independent_sets_exact example_footprint Htot)
    as (_ & Hsingle & Hnd & _).
  split_and!; [exact Htot|exact Hnd|].
  apply Hsingle. compute_done.
Defined.

(** ** Transitions *)

Section insert_loop.
Context `{Countable K} {V X : Type}.
Implicit Types (m : gmap K V) (l : list X).

(** A loop that inserts what [act] yields, when no two iterations write
    different values under the key looked up. *)
Lemma foldl_insert_lookup (act : X → option (K * V)) l k v :
  (∀ x y v1 v2, x ∈ l → y ∈ l →
     act x = Some (k, v1) → act y = Some (k, v2) → v1 = v2) →
  foldl (λ m x, match act x with Some (k', v') => <[k' := v']> m | None => m end)
        ∅ l !! k = Some v
  ↔ ∃ x, x ∈ l ∧ act x = Some (k, v).
Proof.
  induction l as [|x l IH] using rev_ind; intros Huniq.
  - simpl. rewrite lookup_empty. split; [done|].
    intros (x & Hx & _). by apply elem_of_nil in Hx.
  - rewrite foldl_app. simpl.
    assert (HIH : ∀ x y v1 v2, x ∈ l → y ∈ l →
              act x = Some (k, v1) → act y = Some (k, v2) → v1 = v2).
    { intros y z v1 v2 Hy Hz. apply Huniq; apply elem_of_app; by left. }
    specialize (IH HIH).
    assert (Hlast : x ∈ l ++ [x]).
    { apply elem_of_app. right. by apply list_elem_of_singleton. }
    destruct (act x) as [[k' v']|] eqn:Hact.
    + destruct (decide (k' = k)) as [->|Hne].
      * rewrite lookup_insert_eq. split.
        -- intros [= ->]. by exists x.
        -- intros (y & Hy & Hacty). f_equal.
           by apply (Huniq x y v' v Hlast Hy).
      * rewrite lookup_insert_ne by done. rewrite IH. split.
        -- intros (y & Hy & Hacty). exists y. split; [|done].
           apply elem_of_app. by left.
        -- intros (y & [Hy|Hy%list_elem_of_singleton]%elem_of_app & Hacty).
           ++ by exists y.
           ++ subst y. congruence.
    + rewrite IH. split.
      * intros (y & Hy & Hacty). exists y. split; [|done].
        apply elem_of_app. by left.
      * intros (y & [Hy|Hy%list_elem_of_singleton]%elem_of_app & Hacty).
        -- by exists y.
        -- subst y. congruence.
Qed.
End insert_loop.

Section before_facts.
Context {A : Type}.
Implicit Types (l : list A) (x y : A).

(** The pairs of [combinations l 2] are the pairs in list order. *)
Lemma elem_of_combinations_2 l c :
  c ∈ combinations l 2 ↔ ∃ x y, c = [x; y] ∧ before l x y.
Proof.
  rewrite elem_of_combinations. split.
  - intros [Hsub Hlen].
    destruct c as [|x [|y [|z c]]]; try discriminate.
    exists x, y. split; [done|].
    apply sublist_cons_l in Hsub as (l1 & l2 & -> & Hy).
    exists l1, l2. split; [done|]. by apply singleton_sublist_l.
  - intros (x & y & -> & l1 & l2 & -> & Hy). split; [|done].
    apply sublist_cons_l. exists l1, l2. split; [done|].
    by apply singleton_sublist_l.
Qed.

Lemma before_lookup l x y :
  before l x y ↔ ∃ i j : nat, (i < j)%nat ∧ l !! i = Some x ∧ l !! j = Some y.
Proof.
  split.
  - intros (l1 & l2 & -> & (j & Hj)%list_elem_of_lookup).
    exists (length l1), (length l1 + S j)%nat. split_and!; [lia| |].
    + by rewrite lookup_app_r, Nat.sub_diag by lia.
    + rewrite lookup_app_r by lia.
      replace (length l1 + S j - length l1)%nat with (S j) by lia. done.
  - intros (i & j & Hij & Hi & Hj).
    exists (take i l), (drop (S i) l). split.
    + by rewrite <-(take_drop_middle l i x) at 1.
    + apply list_elem_of_lookup. exists (j - S i)%nat.
      rewrite lookup_drop. by replace (S i + (j - S i))%nat with j by lia.
Qed.

Lemma before_NoDup l x y :
  NoDup l → before l x y → x ≠ y ∧ ¬ before l y x.
Proof.
  intros Hnd (i & j & Hij & Hi & Hj)%before_lookup. split.
  - intros ->. pose proof (NoDup_lookup _ _ _ _ Hnd Hi Hj). lia.
  - intros (i' & j' & Hij' & Hi' & Hj')%before_lookup.
    pose proof (NoDup_lookup _ _ _ _ Hnd Hi Hj').
    pose proof (NoDup_lookup _ _ _ _ Hnd Hj Hi'). lia.
Qed.
End before_facts.

Lemma sole_Some (S : gset (option relation)) (r : relation) :
  sole S = Some r ↔ S = {[Some r]}.
Proof.
  unfold sole. split.
  - destruct (elements S) as [|x [|y l]] eqn:He; try done. intros ->.
    apply set_eq. intros z.
    by rewrite <-elem_of_elements, He, list_elem_of_singleton, elem_of_singleton.
  - intros ->. by rewrite elements_singleton.
Qed.

Lemma elem_of_cross (fp : gmap pair relation) (A B : gset string)
    (x : option relation) :
  x ∈ (a ← elements A; b ← elements B; [fp !! (a, b)])
  ↔ ∃ a b, a ∈ A ∧ b ∈ B ∧ x = fp !! (a, b).
Proof.
  rewrite list_elem_of_bind. split.
  - intros (a & (b & Hx%list_elem_of_singleton & Hb%elem_of_elements)%list_elem_of_bind
              & Ha%elem_of_elements).
    by exists a, b.
  - intros (a & b & Ha & Hb & ->). exists a. split; [|by apply elem_of_elements].
    apply list_elem_of_bind. exists b.
    split; [by apply list_elem_of_singleton|by apply elem_of_elements].
Qed.

(** [check_relationship] on two sets answers with a symbol exactly when all
    cross pairs carry that symbol. *)
Lemma check_relationship_groups (fp : gmap pair relation) (A B : gset string)
    (r : relation) :
  check_relationship fp (Group A) (Group B) = Some r ↔ uniform_cross fp A B r.
Proof.
  unfold check_relationship, uniform_cross. rewrite sole_Some. split.
  - intros Heq.
    assert (Hmem : ∀ x, (∃ a b, a ∈ A ∧ b ∈ B ∧ x = fp !! (a, b)) ↔ x = Some r).
    { intros x. by rewrite <-elem_of_cross,
        <-(elem_of_list_to_set (C := gset (option relation))), Heq,
        elem_of_singleton. }
    destruct (proj2 (Hmem (Some r)) eq_refl) as (a0 & b0 & Ha0 & Hb0 & _).
    split_and!; [set_solver..|].
    intros a b Ha Hb. apply Hmem. by exists a, b.
  - intros (HA & HB & Hall). apply set_eq. intros x.
    rewrite elem_of_list_to_set, elem_of_cross, elem_of_singleton. split.
    + intros (a & b & Ha & Hb & ->). by apply Hall.
    + intros ->. apply set_choose_L in HA as [a Ha], HB as [b Hb].
      exists a, b. split_and!; [done..|]. symmetry. by apply Hall.
Qed.

Lemma elements_inj (A B : gset string) : elements A = elements B → A = B.
Proof.
  intros Heq. apply set_eq. intros x. by rewrite <-!elem_of_elements, Heq.
Qed.

(** What [transition_of] writes for a pair of sets. *)
Lemma transition_of_pair (fp : gmap pair relation) (A B : gset string)
    (k : tkey) (r : relation) :
  transition_of fp [A; B] = Some (k, r)
  ↔ (k = (elements A, elements B) ∧ (r = CausalFwd ∨ r = Parallel)
     ∧ uniform_cross fp A B r)
    ∨ (k = (elements B, elements A) ∧ r = CausalFwd
       ∧ uniform_cross fp A B CausalBwd).
Proof.
  unfold transition_of. rewrite <-!check_relationship_groups.
  destruct (check_relationship fp (Group A) (Group B)) as [[]|]; naive_solver.
Qed.

Lemma find_transitions_fold (fp : gmap pair relation) (sets : list (gset string)) :
  find_transitions fp sets
  = foldl (λ m c, match transition_of fp c with
                  | Some (k, v) => <[k := v]> m
                  | None => m
                  end) ∅ (combinations sets 2).
Proof.
  unfold find_transitions. generalize (∅ : gmap tkey relation).
  induction (combinations sets 2) as [|c l IH]; intros m; [done|].
  simpl. rewrite IH. f_equal.
  destruct c as [|A [|B [|? ?]]]; try done.
  unfold record_transition, transition_of.
  by destruct (check_relationship fp (Group A) (Group B)) as [[]|].
Qed.

(** Every entry of the result comes from one pair of sets in list order. *)
Lemma find_transitions_lookup (fp : gmap pair relation)
    (sets : list (gset string)) (k : tkey) (r : relation) :
  NoDup sets →
  find_transitions fp sets !! k = Some r
  ↔ ∃ A B, before sets A B ∧ transition_of fp [A; B] = Some (k, r).
Proof.
  intros Hnd. rewrite find_transitions_fold, foldl_insert_lookup.
  - split.
    + intros (c & (A & B & -> & Hb)%elem_of_combinations_2 & Hc). by exists A, B.
    + intros (A & B & Hb & Hc). exists [A; B]. split; [|done].
      apply elem_of_combinations_2. by exists A, B.
  - intros c1 c2 v1 v2 (A1 & B1 & -> & Hb1)%elem_of_combinations_2
      (A2 & B2 & -> & Hb2)%elem_of_combinations_2 H1 H2.
    apply transition_of_pair in H1 as H1', H2 as H2'.
    destruct H1' as [(-> & _ & _)|(-> & _ & _)];
      destruct H2' as [([= E1 E2] & _ & _)|([= E1 E2] & _ & _)];
      apply elements_inj in E1, E2; subst.
    + congruence.
    + by destruct (before_NoDup _ _ _ Hnd Hb1).
    + by destruct (before_NoDup _ _ _ Hnd Hb1).
    + congruence.
Qed.

(** C4. For a duplicate-free list of sets and every two of them, [A] listed
    before [B]: the two are distinct; the key [(A, B)] is recorded exactly
    when all cross pairs of [A] and [B] carry one identical symbol that is
    causal-forward or parallel, with that symbol; the reversed key [(B, A)]
    is recorded exactly when all cross pairs carry causal-backward, labelled
    causal-forward; so mixed symbols and an identical independent symbol
    record nothing. No key pairs a set with itself, and every recorded key
    arises in one of the two ways. *)
Theorem find_transitions_exact (fp : gmap pair relation)
    (sets : list (gset string)) :
  NoDup sets →
  (∀ A B, before sets A B →
     A ≠ B
     ∧ (∀ r, find_transitions fp sets !! (elements A, elements B) = Some r
             ↔ (r = CausalFwd ∨ r = Parallel) ∧ uniform_cross fp A B r)
     ∧ (∀ r, find_transitions fp sets !! (elements B, elements A) = Some r
             ↔ r = CausalFwd ∧ uniform_cross fp A B CausalBwd))
  ∧ (∀ A : gset string,
       find_transitions fp sets !! (elements A, elements A) = None)
  ∧ (∀ k r, find_transitions fp sets !! k = Some r →
       ∃ A B, before sets A B
         ∧ ((k = (elements A, elements B) ∧ (r = CausalFwd ∨ r = Parallel)
             ∧ uniform_cross fp A B r)
            ∨ (k = (elements B, elements A) ∧ r = CausalFwd
               ∧ uniform_cross fp A B CausalBwd))).
Proof.
  intros Hnd.
  assert (Hkeys : ∀ k r, find_transitions fp sets !! k = Some r
            ↔ ∃ A B, before sets A B
                ∧ ((k = (elements A, elements B) ∧ (r = CausalFwd ∨ r = Parallel)
                    ∧ uniform_cross fp A B r)
                   ∨ (k = (elements B, elements A) ∧ r = CausalFwd
                      ∧ uniform_cross fp A B CausalBwd))).
  { intros k r. rewrite find_transitions_lookup by done.
    by setoid_rewrite transition_of_pair. }
  split_and!.
  - intros A B Hb. destruct (before_NoDup _ _ _ Hnd Hb) as [Hne Hnb].
    split_and!; [done| |]; intros r; rewrite Hkeys; split.
    + intros (A' & B' & Hb' & [([= E1 E2] & Hr & Hu)|([= E1 E2] & _ & _)]);
        apply elements_inj in E1, E2; subst; done.
    + intros [Hr Hu]. exists A, B. split; [done|]. by left.
    + intros (A' & B' & Hb' & [([= E1 E2] & _ & _)|([= E1 E2] & Hr & Hu)]);
        apply elements_inj in E1, E2; subst; done.
    + intros [Hr Hu]. exists A, B. split; [done|]. by right.
  - intros A. destruct (find_transitions fp sets !! _) as [r|] eqn:Hl; [|done].
    apply Hkeys in Hl
      as (A' & B' & Hb' & [([= E1 E2] & _ & _)|([= E1 E2] & _ & _)]);
      apply elements_inj in E1, E2; subst;
      by destruct (before_NoDup _ _ _ Hnd Hb').
  - intros k r. by rewrite Hkeys.
Qed.

Lemma find_transitions_exact_witness :
  NoDup (find_independent_sets example_footprint)
  ∧ find_transitions example_footprint (find_independent_sets example_footprint)
      !! (elements ({["a"]} : gset string), elements ({["b"]} : gset string))
    = Some CausalFwd.
Proof.
  assert (Hnd : NoDup (find_independent_sets example_footprint)) by compute_done.
  split; [exact Hnd|].
  destruct (find_transitions_exact example_footprint _ Hnd) as (Hpairs & _).
  destruct (Hpairs {["a"]} {["b"]}) as (_ & Hfwd & _).
  - apply before_lookup. exists 2%nat, 3%nat. split_and!; [lia|vm_refl..].
  - apply Hfwd. split; [by left|]. unfold uniform_cross.
    split; [apply non_empty_singleton_L|]. split; [apply non_empty_singleton_L|].
    intros a b ->%elem_of_singleton ->%elem_of_singleton. vm_refl.
Defined.

(** ** Maximal-set filter *)

Section index_loop.
Context `{Countable K} `{Countable P}.
Implicit Types (m : gmap P (gset K)) (k : K) (p : P).

Lemma index_row_lookup k (ps : list P) m k' p :
  k' ∈ default ∅ (foldl (λ m q, <[q := {[k]} ∪ default ∅ (m !! q)]> m) m ps !! p)
  ↔ k' ∈ default ∅ (m !! p) ∨ (k' = k ∧ p ∈ ps).
Proof.
  revert m. induction ps as [|q ps IH]; intros m; cbn [foldl].
  - rewrite elem_of_nil. tauto.
  - rewrite IH, elem_of_cons. destruct (decide (q = p)) as [->|Hne].
    + rewrite lookup_insert_eq. simpl. rewrite elem_of_union, elem_of_singleton.
      tauto.
    + rewrite lookup_insert_ne by done. split; [tauto|].
      intros [?|[? [?|?]]]; [tauto|congruence|tauto].
Qed.

Lemma index_lookup (g : K → list P) (ks : list K) m k' p :
  k' ∈ default ∅
         (foldl (λ m k, foldl (λ m q, <[q := {[k]} ∪ default ∅ (m !! q)]> m)
                              m (g k)) m ks !! p)
  ↔ k' ∈ default ∅ (m !! p) ∨ (k' ∈ ks ∧ p ∈ g k').
Proof.
  revert m. induction ks as [|k ks IH]; intros m; cbn [foldl].
  - rewrite elem_of_nil. tauto.
  - rewrite IH, index_row_lookup, elem_of_cons. split.
    + intros [[?|[-> ?]]|[? ?]]; tauto.
    + intros [?|[[->|?] ?]]; tauto.
Qed.
End index_loop.

Lemma elem_of_keys (tr : gmap tkey relation) (k : tkey) :
  k ∈ (map_to_list tr).*1 ↔ is_Some (tr !! k).
Proof.
  rewrite list_elem_of_fmap. split.
  - intros ([k' r] & -> & Hkr%elem_of_map_to_list). by exists r.
  - intros [r Hr]. exists (k, r). split; [done|]. by apply elem_of_map_to_list.
Qed.

(** The index files a key under each of its indexed pairs, and only there. *)
Lemma map_pairs_to_sets_lookup (tr : gmap tkey relation) (p : pair) (k : tkey) :
  k ∈ default ∅ (map_pairs_to_sets tr !! p)
  ↔ is_Some (tr !! k) ∧ p ∈ indexed_pairs tr k.
Proof.
  unfold map_pairs_to_sets.
  rewrite (index_lookup (λ k, elements (indexed_pairs tr k))).
  rewrite lookup_empty, elem_of_keys, elem_of_elements. simpl. set_solver.
Qed.

(** [pair_to_sets[p]] is defined for every cross pair of every key, so the
    subscript in [filter_maximal_sets] never raises. *)
Lemma map_pairs_to_sets_indexed (tr : gmap tkey relation) (k : tkey) (p : pair) :
  is_Some (tr !! k) → p ∈ deconstruct_subset k →
  is_Some (map_pairs_to_sets tr !! p).
Proof.
  intros Hk Hp.
  assert (Hin : k ∈ default ∅ (map_pairs_to_sets tr !! p)).
  { apply map_pairs_to_sets_lookup. split; [done|].
    unfold indexed_pairs. case_decide; set_solver. }
  destruct (map_pairs_to_sets tr !! p); [by eexists|]. set_solver.
Qed.

Lemma dominates_spec (pairs : gset pair) (k larger : tkey) :
  dominates pairs k larger = true
  ↔ larger ≠ k ∧ pairs ⊆ deconstruct_subset larger.
Proof.
  unfold dominates.
  rewrite andb_true_iff, bool_decide_eq_true, forallb_forall.
  apply and_iff_compat_l. split.
  - intros Hall p Hp. eapply bool_decide_eq_true, Hall.
    by apply list_elem_of_In, elem_of_elements.
  - intros Hsub p Hp%list_elem_of_In%elem_of_elements.
    apply bool_decide_eq_true. by apply Hsub.
Qed.

(** The scan of one key, in closed form. *)
Lemma scan_pairs_closed (pts : gmap pair (gset tkey)) (k : tkey)
    (pairs : gset pair) (todo : list pair) (ms : gset tkey) :
  scan_pairs pts k pairs todo ms
  = if existsb (λ p, existsb (dominates pairs k) (elements (default ∅ (pts !! p))))
               todo
    then ms ∖ {[k]} else ms.
Proof.
  revert ms. induction todo as [|p todo IH]; intros ms; [done|].
  cbn [scan_pairs existsb].
  destruct (existsb (dominates pairs k) _) eqn:Hp; simpl.
  - rewrite decide_True; [done|set_solver].
  - case_decide as Hk.
    + destruct (existsb _ todo); [|done]. set_solver.
    + apply IH.
Qed.

(** The boolean the scan computes says that the key is dominated. *)
Lemma scan_hit_dominated (tr : gmap tkey relation) (k : tkey) :
  existsb (λ p, existsb (dominates (deconstruct_subset k) k)
                        (elements (default ∅ (map_pairs_to_sets tr !! p))))
          (elements (deconstruct_subset k)) = true
  ↔ dominated tr k.
Proof.
  unfold dominated, coverage. rewrite existsb_exists. split.
  - intros (p & Hp%list_elem_of_In%elem_of_elements
              & (L & HL%list_elem_of_In%elem_of_elements
                   & [Hne Hsub]%dominates_spec)%existsb_exists).
    apply map_pairs_to_sets_lookup in HL as [HL _].
    split; [set_solver|]. by exists L.
  - intros [[p Hp]%set_choose_L (L & HL & Hne & Hsub)].
    exists p. split; [by apply list_elem_of_In, elem_of_elements|].
    apply existsb_exists. exists L. split; [|by apply dominates_spec].
    apply list_elem_of_In, elem_of_elements, map_pairs_to_sets_lookup.
    split; [done|]. unfold indexed_pairs. case_decide; set_solver.
Qed.

Lemma elem_of_maximal_keys (tr : gmap tkey relation) (k : tkey) :
  k ∈ maximal_keys tr ↔ is_Some (tr !! k) ∧ ¬ dominated tr k.
Proof.
  unfold maximal_keys. rewrite <-elem_of_dom.
  assert (Hloop : ∀ (ks : list tkey) (ms : gset tkey),
    k ∈ foldl (λ maximal_sets complex_set,
                 scan_pairs (map_pairs_to_sets tr) complex_set
                   (deconstruct_subset complex_set)
                   (elements (deconstruct_subset complex_set)) maximal_sets)
              ms ks
    ↔ k ∈ ms ∧ ¬ (k ∈ ks ∧ dominated tr k)).
  { induction ks as [|k' ks IH]; intros ms; cbn [foldl].
    - rewrite elem_of_nil. tauto.
    - rewrite IH, scan_pairs_closed, elem_of_cons.
      destruct (existsb _ _) eqn:Hhit.
      + apply scan_hit_dominated in Hhit.
        rewrite elem_of_difference, elem_of_singleton. split.
        * intros [[? ?] ?]. split; [done|]. intros [[->|?] ?]; tauto.
        * intros [? Hn]. split_and!; [done| |tauto].
          intros ->. apply Hn. tauto.
      + assert (¬ dominated tr k') as Hnd.
        { rewrite <-scan_hit_dominated. congruence. }
        split; intros [? Hn]; (split; [done|]).
        * intros [[->|?] ?]; tauto.
        * tauto. }
  rewrite Hloop, elem_of_keys, <-elem_of_dom. tauto.
Qed.

(** The filter keeps exactly the entries whose key is not dominated. *)
Lemma filter_maximal_sets_lookup (tr : gmap tkey relation) (k : tkey) (r : relation) :
  filter_maximal_sets tr !! k = Some r ↔ tr !! k = Some r ∧ ¬ dominated tr k.
Proof.
  unfold filter_maximal_sets. rewrite map_lookup_filter_Some. simpl.
  rewrite elem_of_maximal_keys. split.
  - tauto.
  - intros [Hk Hn]. split_and!; [done|by eexists|done].
Qed.

(** The coverage of a key made of two sets is their Cartesian product. *)
Lemma elem_of_coverage_elements (A B : gset string) (a b : string) :
  (a, b) ∈ coverage (elements A, elements B) ↔ a ∈ A ∧ b ∈ B.
Proof.
  unfold coverage, deconstruct_subset. simpl.
  rewrite elem_of_list_to_set, list_elem_of_bind. split.
  - intros (x & (y & [= -> ->]%list_elem_of_singleton
                   & Hy%elem_of_elements)%list_elem_of_bind & Hx%elem_of_elements).
    done.
  - intros [Ha Hb]. exists a. split; [|by apply elem_of_elements].
    apply list_elem_of_bind. exists b.
    split; [by apply list_elem_of_singleton|by apply elem_of_elements].
Qed.

(** Every key that [find_transitions] writes pairs two non-empty sets. *)
Lemma find_transitions_key_shape (fp : gmap pair relation)
    (sets : list (gset string)) (k : tkey) (r : relation) :
  NoDup sets → find_transitions fp sets !! k = Some r →
  ∃ X Y : gset string, k = (elements X, elements Y) ∧ X ≠ ∅ ∧ Y ≠ ∅.
Proof.
  intros Hnd (A & B & _ & Ht)%find_transitions_lookup; [|done].
  apply transition_of_pair in Ht
    as [(-> & _ & HA & HB & _)|(-> & _ & HA & HB & _)].
  - by exists A, B.
  - by exists B, A.
Qed.

(** Keys that pair non-empty sets have non-empty, pairwise distinct
    coverages. *)
Lemma set_pairs_coverages (tr : gmap tkey relation) :
  set_pairs tr → covering tr ∧ distinct_coverages tr.
Proof.
  intros Hkeys. split.
  - intros k r (X & Y & -> & [x Hx]%set_choose_L & [y Hy]%set_choose_L)%Hkeys.
    intros Hempty.
    assert (Hin : (x, y) ∈ coverage (elements X, elements Y)).
    { by apply elem_of_coverage_elements. }
    rewrite Hempty in Hin. by apply not_elem_of_empty in Hin.
  - intros k1 r1 (X1 & Y1 & -> & [x1 Hx1]%set_choose_L & [y1 Hy1]%set_choose_L)%Hkeys.
    intros k2 r2 (X2 & Y2 & -> & [x2 Hx2]%set_choose_L & [y2 Hy2]%set_choose_L)%Hkeys.
    intros Hcov.
    assert (Hpairs : ∀ a b, a ∈ X1 ∧ b ∈ Y1 ↔ a ∈ X2 ∧ b ∈ Y2).
    { intros a b. by rewrite <-!elem_of_coverage_elements, Hcov. }
    assert (X1 = X2) as ->.
    { apply set_eq. intros a. split; intros Ha.
      - by apply (Hpairs a y1).
      - by apply (Hpairs a y2). }
    assert (Y1 = Y2) as ->; [|done].
    apply set_eq. intros b. split; intros Hb.
    + by apply (Hpairs x1 b).
    + by apply (Hpairs x2 b).
Qed.

(** The dictionaries built by [find_transitions] are such. *)
Lemma find_transitions_set_pairs (fp : gmap pair relation)
    (sets : list (gset string)) :
  NoDup sets → set_pairs (find_transitions fp sets).
Proof. intros Hnd k r. by apply find_transitions_key_shape. Qed.

Lemma find_transitions_coverages (fp : gmap pair relation)
    (sets : list (gset string)) :
  NoDup sets →
  covering (find_transitions fp sets) ∧ distinct_coverages (find_transitions fp sets).
Proof. intros Hnd. by apply set_pairs_coverages, find_transitions_set_pairs. Qed.

(** From any key one reaches a key that is not dominated and covers at least
    as much. *)
Lemma undominated_above (tr : gmap tkey relation) (k : tkey) :
  distinct_coverages tr → is_Some (tr !! k) →
  ∃ top, is_Some (tr !! top) ∧ ¬ dominated tr top ∧ coverage k ⊆ coverage top.
Proof.
  intros Hinj. remember (strictly_above tr k) as X eqn:HX. revert k HX.
  induction (set_wf X) as [X _ IH]. intros k -> Hk.
  destruct (existsb (λ p, existsb (dominates (deconstruct_subset k) k)
                            (elements (default ∅ (map_pairs_to_sets tr !! p))))
                    (elements (deconstruct_subset k))) eqn:Hhit.
  - apply scan_hit_dominated in Hhit as (_ & L & HL & Hne & Hsub).
    assert (Hstrict : coverage k ⊂ coverage L).
    { split; [done|]. intros Hrev. apply Hne.
      destruct Hk as [r Hr], HL as [s Hs]. symmetry.
      apply (Hinj k r Hr L s Hs). by apply (anti_symm (⊆)). }
    destruct (IH (strictly_above tr L)) with (k := L)
      as (top & Htop & Hund & Hcov); [|done|done|].
    + unfold strictly_above. split.
      * intros M [HM Hdom]%elem_of_filter. apply elem_of_filter.
        split; [|done]. by etrans.
      * intros Hsubset. assert (Hin : L ∈ filter (λ M, coverage L ⊂ coverage M) (dom tr)).
        { apply Hsubset, elem_of_filter. split; [done|]. by apply elem_of_dom. }
        apply elem_of_filter in Hin as [[_ Hirr] _]. by apply Hirr.
    + exists top. split_and!; [done..|]. destruct Hstrict as [Hle _]. by etrans.
  - exists k. split_and!; [done| |done].
    rewrite <-scan_hit_dominated. congruence.
Qed.

(** C5. On a dictionary of transitions, that is, one whose keys pair two
    non-empty sets (every dictionary built by [find_transitions] is such),
    [filter_maximal_sets] discards an entry exactly when a retained entry's
    coverage is a strict superset of its own; so no retained coverage is a
    strict subset of another retained coverage; two distinct transitions
    with equal coverage are both retained; and the retained entries keep
    their symbol. The entries kept are those whose key is not [dominated]. *)
Theorem filter_maximal_sets_exact (tr : gmap tkey relation) :
  set_pairs tr →
  (∀ k, is_Some (tr !! k) →
     filter_maximal_sets tr !! k = None
     ↔ ∃ top, is_Some (filter_maximal_sets tr !! top)
              ∧ coverage k ⊂ coverage top)
  ∧ (∀ k top, is_Some (filter_maximal_sets tr !! k) →
       is_Some (filter_maximal_sets tr !! top) →
       ¬ coverage k ⊂ coverage top)
  ∧ (∀ k1 k2, is_Some (tr !! k1) → is_Some (tr !! k2) → k1 ≠ k2 →
       coverage k1 = coverage k2 →
       is_Some (filter_maximal_sets tr !! k1)
       ∧ is_Some (filter_maximal_sets tr !! k2))
  ∧ (∀ k r, filter_maximal_sets tr !! k = Some r
            ↔ tr !! k = Some r ∧ ¬ dominated tr k).
Proof.
  intros [Hcov Hinj]%set_pairs_coverages.
  assert (Hstrict : ∀ k top, is_Some (tr !! k) → is_Some (tr !! top) →
            coverage k ⊂ coverage top → dominated tr k).
  { intros k top [r Hr] Htop Hsub. split; [by apply (Hcov k r)|].
    exists top. split_and!; [done| |by destruct Hsub].
    intros ->. by destruct Hsub as [_ []]. }
  split_and!.
  - intros k [r Hr]. split.
    + intros Hnone.
      assert (Hdom : dominated tr k).
      { destruct (existsb (λ p, existsb (dominates (deconstruct_subset k) k)
                            (elements (default ∅ (map_pairs_to_sets tr !! p))))
                    (elements (deconstruct_subset k))) eqn:Hhit.
        - by apply scan_hit_dominated.
        - assert (filter_maximal_sets tr !! k = Some r) as Hkeep; [|congruence].
          apply filter_maximal_sets_lookup. split; [done|].
          rewrite <-scan_hit_dominated. congruence. }
      destruct Hdom as (_ & L & HL & Hne & Hsub).
      destruct (undominated_above tr L Hinj HL) as (top & [s Hs] & Hund & Hle).
      exists top. split.
      * exists s. by apply filter_maximal_sets_lookup.
      * split; [by etrans|]. intros Hrev. apply Hne.
        destruct HL as [t Ht]. symmetry. apply (Hinj k r Hr L t Ht).
        apply (anti_symm (⊆)); [done|]. by etrans.
    + intros (top & [s Hs%filter_maximal_sets_lookup] & Hsub).
      destruct (filter_maximal_sets tr !! k) as [r'|] eqn:Hk; [|done].
      apply filter_maximal_sets_lookup in Hk as [_ []].
      apply (Hstrict k top); [by eexists|by eexists; apply Hs|done].
  - intros k top [r [Hr Hund]%filter_maximal_sets_lookup]
      [s [Hs _]%filter_maximal_sets_lookup] Hsub.
    apply Hund, (Hstrict k top); [by eexists..|done].
  - intros k1 k2 [r1 Hr1] [r2 Hr2] Hne Heq.
    destruct Hne. by apply (Hinj k1 r1 Hr1 k2 r2 Hr2).
  - apply filter_maximal_sets_lookup.
Qed.

Lemma filter_maximal_sets_exact_witness :
  set_pairs (find_transitions example_footprint (find_independent_sets example_footprint))
  ∧ filter_maximal_sets
      (find_transitions example_footprint (find_independent_sets example_footprint))
      !! (["a"], ["b"]) = None.
Proof.
  set (tr := find_transitions example_footprint (find_independent_sets example_footprint)).
  assert (Hkeys : set_pairs tr).
  { apply find_transitions_set_pairs, NoDup_find_independent_sets. }
  split; [done|].
  destruct (filter_maximal_sets_exact tr Hkeys) as (Hdisc & _).
  apply Hdisc; [exists CausalFwd; vm_refl|].
  exists (["a"], elements ({["b"; "e"]} : gset string)). split.
  - exists CausalFwd. vm_refl.
  - compute_done.
Defined.

(** ** Directly-follows relation *)

Lemma multiplicity_cons (p q : pair) (ps : list pair) :
  multiplicity p (q :: ps) = (if decide (q = p) then 1 else 0) + multiplicity p ps.
Proof.
  unfold multiplicity. rewrite filter_cons.
  case_decide; simpl length; lia.
Qed.

Lemma multiplicity_not_elem (p : pair) (ps : list pair) :
  p ∉ ps → multiplicity p ps = 0.
Proof.
  induction ps as [|q ps IH]; [done|]. rewrite not_elem_of_cons. intros [Hne Hp].
  rewrite multiplicity_cons, decide_False by done. by rewrite IH.
Qed.

(** The inner loop: every listed edge gains [q] per occurrence. *)
Lemma add_edges_lookup (d : gmap pair Z) (q : Z) (ps : list pair) (p : pair) :
  foldl (λ d p, add_edge d p q) d ps !! p
  = if decide (p ∈ ps)
    then Some (default 0 (d !! p) + q * multiplicity p ps)
    else d !! p.
Proof.
  revert d. induction ps as [|x ps IH]; intros d; cbn [foldl].
  - rewrite decide_False; [done|apply not_elem_of_nil].
  - rewrite IH, multiplicity_cons. unfold add_edge.
    destruct (decide (x = p)) as [->|Hne].
    + rewrite lookup_insert_eq, (decide_True (P := p ∈ p :: ps))
        by (by apply elem_of_cons; left).
      case_decide as Hp; simpl; f_equal; [lia|].
      rewrite (multiplicity_not_elem p ps Hp). lia.
    + rewrite lookup_insert_ne by done.
      destruct (decide (p ∈ ps)) as [Hp|Hp].
      * rewrite decide_True by (by apply elem_of_cons; right). f_equal; lia.
      * rewrite decide_False; [done|]. rewrite not_elem_of_cons. by split.
Qed.

Lemma accepted_count_of (m : metrics) (q : Z) :
  as_int (recorded_count m) = Some q → count_of m = q.
Proof.
  unfold recorded_count, count_of. destruct (m !! "count") as [v|]; simpl.
  - by intros ->.
  - by intros [= <-].
Qed.

(** One iteration on a non-empty trace with an integer count. *)
Lemma follow_trace_ok (S E : gset string) (d : gmap pair Z) (t : trace)
    (m : metrics) :
  count_accepted (t, m) → t ≠ [] →
  follow_trace S E d (t, m)
  = Ok (foldl (λ d p, add_edge d p (count_of m)) d (trace_edges S E t)).
Proof.
  intros [q Hq] Ht. unfold follow_trace. fold (recorded_count m).
  simpl in Hq. rewrite Hq, (accepted_count_of m q Hq).
  destruct t as [|first t']; [done|]. clear Ht.
  unfold first_event, last_event, trace_edges. simpl mbind.
  destruct (last (first :: t')) as [lst|] eqn:Hlast.
  - simpl. rewrite !foldl_app.
    destruct (decide (first ∈ S)), (decide (lst ∈ E)); done.
  - by apply last_None in Hlast.
Qed.

Lemma rfold_app {A B} (f : A → B → result A) (a : A) (l1 l2 : list B) :
  rfold f a (l1 ++ l2) = (a' ← rfold f a l1; rfold f a' l2).
Proof.
  revert a. induction l1 as [|b l1 IH]; intros a; [done|].
  simpl. destruct (f a b); simpl; [apply IH|done].
Qed.

(** The loop of [compute_directly_follows] on accepted entries. *)
Lemma follow_traces_ok (S E : gset string) (td : trace_dict) (d : gmap pair Z) :
  Forall (λ e, e.1 ≠ []) td → Forall count_accepted td →
  rfold (follow_trace S E) d td
  = Ok (foldl (λ d e, foldl (λ d p, add_edge d p (count_of e.2)) d
                            (trace_edges S E e.1)) d td).
Proof.
  intros Hne. revert d. induction Hne as [|[t m] td Ht Hne IH]; intros d Hacc.
  - done.
  - apply Forall_cons in Hacc as [Hm Hacc]. cbn [rfold foldl].
    rewrite follow_trace_ok by done. by apply IH.
Qed.

Lemma edge_weight_absent (S E : gset string) (td : trace_dict) (p : pair) :
  ¬ edge_present S E td p → edge_weight S E td p = 0.
Proof.
  unfold edge_present. induction td as [|e td IH]; [done|].
  rewrite Exists_cons. intros Hn. simpl.
  rewrite multiplicity_not_elem, IH by tauto. lia.
Qed.

(** The relation the loop builds: an edge is a key exactly when some trace
    contributes to it, and it carries the weighted number of successions. *)
Lemma follow_traces_lookup (S E : gset string) (td : trace_dict)
    (d : gmap pair Z) (p : pair) :
  foldl (λ d e, foldl (λ d p, add_edge d p (count_of e.2)) d
                      (trace_edges S E e.1)) d td !! p
  = if decide (edge_present S E td p)
    then Some (default 0 (d !! p) + edge_weight S E td p)
    else d !! p.
Proof.
  revert d. induction td as [|e td IH]; intros d; cbn [foldl].
  - rewrite decide_False; [done|]. unfold edge_present. by intros ?%Exists_nil.
  - rewrite IH, add_edges_lookup. unfold edge_present in *.
    cbn [edge_weight foldr]. fold (edge_weight S E td p).
    destruct (decide (Exists _ td)) as [Htd|Htd];
      destruct (decide (p ∈ trace_edges S E e.1)) as [He|He].
    + rewrite decide_True by (by apply Exists_cons; right). simpl. f_equal; lia.
    + rewrite decide_True by (by apply Exists_cons; right).
      rewrite (multiplicity_not_elem _ _ He). f_equal; lia.
    + rewrite decide_True by (by apply Exists_cons; left).
      rewrite (edge_weight_absent S E td p Htd). f_equal; lia.
    + rewrite decide_False; [done|]. rewrite Exists_cons. tauto.
Qed.

(** A list with an element satisfying a decidable property splits at the
    first such element. *)
Lemma Exists_first {A} (P : A → Prop) `{∀ x, Decision (P x)} (l : list A) :
  Exists P l → ∃ l1 x l2, l = l1 ++ x :: l2 ∧ Forall (λ y, ¬ P y) l1 ∧ P x.
Proof.
  induction l as [|y l IH]; [by intros ?%Exists_nil|].
  intros Hex. destruct (decide (P y)) as [Hy|Hy].
  - by exists [], y, l.
  - apply Exists_cons in Hex as [?|Hex]; [done|].
    destruct (IH Hex) as (l1 & x & l2 & -> & Hl1 & Hx).
    exists (y :: l1), x, l2. split_and!; [done| |done]. by constructor.
Qed.

Lemma compute_directly_follows_raises (td l1 l2 : trace_dict) (t : trace)
    (m : metrics) (starts ends : list string) :
  Forall (λ e, e.1 ≠ []) td →
  td = l1 ++ (t, m) :: l2 → Forall count_accepted l1 → ¬ count_accepted (t, m) →
  compute_directly_follows td starts ends = Raise (ValueError t (recorded_count m)).
Proof.
  intros Hne -> Hacc Hbad. apply Forall_app in Hne as [Hne1 _].
  unfold compute_directly_follows.
  rewrite rfold_app, follow_traces_ok by done. simpl.
  unfold count_accepted in Hbad. simpl in Hbad. fold (recorded_count m).
  destruct (as_int (recorded_count m)) as [q|]; [|done].
  exfalso. apply Hbad. by eexists.
Qed.

(** C6 (amended). On a dictionary of non-empty traces,
    [compute_directly_follows] returns a relation when every count passes
    the integer test, and otherwise raises [ValueError] carrying the first
    trace whose count fails it, with that count; it raises a [ValueError]
    exactly when some count is not an integer. Every integer is accepted as
    it is, zero and negative ones included, and a missing count reads as
    the integer 0. *)
Theorem compute_directly_follows_validation (td : trace_dict)
    (starts ends : list string) :
  Forall (λ e, e.1 ≠ []) td →
  (Forall count_accepted td →
     ∃ df, compute_directly_follows td starts ends = Ok df)
  ∧ (∀ l1 t m l2, td = l1 ++ (t, m) :: l2 →
       Forall count_accepted l1 → ¬ count_accepted (t, m) →
       compute_directly_follows td starts ends
       = Raise (ValueError t (recorded_count m)))
  ∧ ((∃ t q, compute_directly_follows td starts ends = Raise (ValueError t q))
     ↔ Exists (λ e, ¬ count_accepted e) td)
  ∧ (∀ t m z, m !! "count" = Some (PyInt z) → count_accepted (t, m))
  ∧ (∀ t m, m !! "count" = None → count_accepted (t, m)).
Proof.
  intros Hne. split_and!.
  - intros Hacc. eexists. unfold compute_directly_follows.
    by apply follow_traces_ok.
  - intros l1 t m l2. by apply compute_directly_follows_raises.
  - split.
    + intros (t & q & Hraise).
      destruct (decide (Exists (λ e, ¬ count_accepted e) td)) as [|Hn]; [done|].
      apply not_Exists_Forall in Hn; [|apply _].
      assert (Hacc : Forall count_accepted td).
      { eapply Forall_impl; [exact Hn|]. intros e He. simpl in He.
        by destruct (decide (count_accepted e)). }
      unfold compute_directly_follows in Hraise.
      by rewrite follow_traces_ok in Hraise.
    + intros Hex.
      destruct (Exists_first _ td Hex) as (l1 & [t m] & l2 & Htd & Hl1 & Hbad).
      exists t, (recorded_count m).
      apply (compute_directly_follows_raises td l1 l2); [done..| |done].
      eapply Forall_impl; [exact Hl1|]. intros e He. simpl in He.
      by destruct (decide (count_accepted e)).
  - intros t m z Hm. unfold count_accepted, recorded_count. simpl.
    rewrite Hm. by eexists.
  - intros t m Hm. unfold count_accepted, recorded_count. simpl.
    rewrite Hm. by eexists.
Qed.

Lemma compute_directly_follows_validation_witness :
  Forall (λ e : trace * metrics, e.1 ≠ []) invalid_traces
  ∧ compute_directly_follows invalid_traces ["a"] ["b"]
    = Raise (ValueError ["b"] (PyStr "3")).
Proof.
  assert (Hne : Forall (λ e : trace * metrics, e.1 ≠ []) invalid_traces).
  { by repeat constructor. }
  split; [exact Hne|].
  destruct (compute_directly_follows_validation invalid_traces ["a"] ["b"] Hne)
    as (_ & Hraise & _).
  rewrite (Hraise [(["a"; "b"], {["count" := PyInt 0]})] ["b"]
                  {["count" := PyStr "3"]} [(["c"], {["count" := PyNone]})]).
  - vm_refl.
  - reflexivity.
  - repeat constructor. compute_done.
  - compute_done.
Defined.

(** C6, as stated, fails on counts that are integers but not positive: a
    zero and a negative count are both accepted and weigh the edges. *)
Lemma compute_directly_follows_accepts_nonpositive :
  compute_directly_follows [(["a"], {["count" := PyInt 0]})] ["a"] ["a"]
  = Ok (list_to_map [(("start", "a"), 0); (("a", "end"), 0)])
  ∧ compute_directly_follows [(["a"; "b"], {["count" := PyInt (-2)]})] ["a"] ["b"]
    = Ok (list_to_map [(("start", "a"), -2); (("a", "b"), -2); (("b", "end"), -2)]).
Proof. split; vm_refl. Qed.

Lemma consecutive_pairs_edges (S E : gset string) (t : trace) (p : pair) :
  p ∈ consecutive_pairs t → p ∈ trace_edges S E t.
Proof.
  destruct t as [|first t']; [by intros ?%elem_of_nil|].
  intros Hp. unfold trace_edges. rewrite !elem_of_app. auto.
Qed.

(** C9. A missing [count] passes the integer test and weighs 0. On a
    dictionary of non-empty traces whose counts are all accepted,
    [compute_directly_follows] returns a relation whose keys are exactly the
    boundary and consecutive-pair edges of the traces, whatever the counts,
    each carrying the sum of the counts of the traces through it; so every
    edge of every trace is present, also when the counts are zero, and
    [create_footprint] never classifies a consecutive pair of non-sentinel
    activities as independent. *)
Theorem zero_count_edges_present (td : trace_dict) (starts ends : list string) :
  Forall (λ e, e.1 ≠ []) td → Forall count_accepted td →
  (∀ t m, m !! "count" = None →
     count_accepted (t, m) ∧ recorded_count m = PyInt 0 ∧ count_of m = 0)
  ∧ ∃ df, compute_directly_follows td starts ends = Ok df
      ∧ (∀ p, df !! p
              = if decide (edge_present (list_to_set starts) (list_to_set ends) td p)
                then Some (edge_weight (list_to_set starts) (list_to_set ends) td p)
                else None)
      ∧ (∀ e p, e ∈ td →
           p ∈ trace_edges (list_to_set starts) (list_to_set ends) e.1 →
           has_key df p = true)
      ∧ (∀ e x y, e ∈ td → (x, y) ∈ consecutive_pairs e.1 →
           x ∉ sentinels → y ∉ sentinels →
           create_footprint df !! (x, y)
           = Some (if decide (x = y) then Parallel
                   else if has_key df (y, x) then Parallel else CausalFwd)).
Proof.
  intros Hne Hacc. split.
  { intros t m Hm. unfold count_accepted, recorded_count, count_of. simpl.
    rewrite Hm. split_and!; [by eexists|done..]. }
  set (S := list_to_set starts : gset string).
  set (E := list_to_set ends : gset string).
  eexists. split; [by apply follow_traces_ok|].
  set (df := foldl _ _ td).
  assert (Hlookup : ∀ p, df !! p
            = if decide (edge_present S E td p)
              then Some (edge_weight S E td p) else None).
  { intros p. unfold df. rewrite follow_traces_lookup, lookup_empty. simpl.
    fold S E. destruct (decide (edge_present S E td p)); [f_equal; lia|done]. }
  assert (Hkeys : ∀ e p, e ∈ td → p ∈ trace_edges S E e.1 → has_key df p = true).
  { intros e p He Hp. unfold has_key. apply bool_decide_eq_true.
    rewrite Hlookup, decide_True; [by eexists|].
    apply Exists_exists. by exists e. }
  split_and!; [done..|].
  intros e x y He Hxy Hx Hy.
  assert (Hab : has_key df (x, y) = true).
  { apply (Hkeys e); [done|]. by apply consecutive_pairs_edges. }
  assert (Hsome : is_Some (df !! (x, y))).
  { unfold has_key in Hab. by apply bool_decide_eq_true in Hab. }
  rewrite create_footprint_lookup, decide_True.
  - unfold footprint_cell. case_decide as Heq; [subst y; by rewrite Hab|].
    rewrite Hab. by destruct (has_key df (y, x)).
  - split; apply elem_of_activities; (split; [done|]).
    + exists y. by left.
    + exists x. by right.
Qed.

Lemma zero_count_edges_present_witness :
  Forall (λ e : trace * metrics, e.1 ≠ []) uncounted_traces
  ∧ Forall count_accepted uncounted_traces
  ∧ ∃ df, compute_directly_follows uncounted_traces ["a"] ["b"] = Ok df
      ∧ df !! ("a", "b") = Some 0
      ∧ create_footprint df !! ("a", "b") = Some CausalFwd.
Proof.
  assert (Hne : Forall (λ e : trace * metrics, e.1 ≠ []) uncounted_traces).
  { by repeat constructor. }
  assert (Hacc : Forall count_accepted uncounted_traces).
  { repeat constructor. compute_done. }
  split_and!; [done..|].
  destruct (zero_count_edges_present uncounted_traces ["a"] ["b"] Hne Hacc)
    as (_ & df & Hdf & Hlookup & _ & Hfp).
  exists df. split_and!; [done| |].
  - rewrite Hlookup. vm_refl.
  - rewrite (Hfp (["a"; "b"], ∅) "a" "b");
      [|by left|simpl; by left|compute_done|compute_done].
    rewrite decide_False by done. unfold has_key.
    rewrite Hlookup. vm_refl.
Defined.

(** ** Trace aggregation *)

Lemma sum_snd_Permutation (l k : list (trace * Z)) :
  l ≡ₚ k → sum_snd l = sum_snd k.
Proof. induction 1; simpl in *; lia. Qed.

Lemma filter_all {A} (P : A → Prop) `{∀ x, Decision (P x)} (l : list A) :
  (∀ x, x ∈ l → P x) → filter P l = l.
Proof.
  induction l as [|x l IH]; [done|]. intros Hall.
  rewrite filter_cons, decide_True by (apply Hall; by left).
  f_equal. apply IH. intros y Hy. apply Hall. by right.
Qed.

Lemma filter_none {A} (P : A → Prop) `{∀ x, Decision (P x)} (l : list A) :
  (∀ x, x ∈ l → ¬ P x) → filter P l = [].
Proof.
  induction l as [|x l IH]; [done|]. intros Hall.
  rewrite filter_cons, decide_False by (apply Hall; by left).
  apply IH. intros y Hy. apply Hall. by right.
Qed.

Section stable_sort_facts.
Context {A : Type} (R : A → A → Prop) `{!RelDecision R}.
Implicit Types (x y : A) (l : list A).

Lemma insert_sorted_Permutation x l : insert_sorted R x l ≡ₚ x :: l.
Proof.
  induction l as [|y l IH]; [done|]. simpl. case_decide; [done|].
  rewrite IH. apply perm_swap.
Qed.

Lemma stable_sort_Permutation l : stable_sort R l ≡ₚ l.
Proof.
  induction l as [|x l IH]; [done|].
  cbn [stable_sort foldr]. fold (stable_sort R l).
  by rewrite insert_sorted_Permutation, IH.
Qed.

Lemma insert_sorted_HdRel x y l :
  R x y → HdRel R x l → HdRel R x (insert_sorted R y l).
Proof.
  intros Hxy Hhd. destruct l as [|z l]; simpl; [by constructor|].
  case_decide; constructor; [done|]. by inversion Hhd.
Qed.

Lemma insert_sorted_Sorted `{!Total R} x l :
  Sorted R l → Sorted R (insert_sorted R x l).
Proof.
  induction 1 as [|y l Hl IH Hhd]; simpl.
  - by repeat constructor.
  - case_decide as Hxy.
    + constructor; [by constructor|by constructor].
    + constructor; [done|]. apply insert_sorted_HdRel; [|done].
      by destruct (total R x y).
Qed.

Lemma stable_sort_Sorted `{!Total R} l : Sorted R (stable_sort R l).
Proof.
  induction l as [|x l IH]; [constructor|].
  cbn [stable_sort foldr]. by apply insert_sorted_Sorted.
Qed.


(** Members that [R] relates in both directions keep their order. *)
Lemma insert_sorted_filter (P : A → Prop) `{∀ x, Decision (P x)} x l :
  (∀ y, y ∈ l → P x → P y → R x y) →
  filter P (insert_sorted R x l) = filter P (x :: l).
Proof.
  induction l as [|y l IH]; [done|]. intros Hle. simpl.
  case_decide as Hxy; [done|].
  rewrite !filter_cons, IH by (intros z Hz; apply Hle; by right).
  rewrite !filter_cons.
  destruct (decide (P x)) as [Hx|]; [|done].
  destruct (decide (P y)) as [Hy|]; [|done].
  destruct Hxy. apply Hle; [by left|done..].
Qed.

Lemma stable_sort_stable (P : A → Prop) `{∀ x, Decision (P x)} l :
  (∀ x y, P x → P y → R x y) →
  filter P (stable_sort R l) = filter P l.
Proof.
  intros HP. induction l as [|x l IH]; [done|].
  cbn [stable_sort foldr]. fold (stable_sort R l).
  rewrite insert_sorted_filter, !filter_cons, IH; [done|].
  intros y _. apply HP.
Qed.
End stable_sort_facts.

Section unique_facts.
Context {A : Type} `{EqDecision A}.
Implicit Types (x : A) (l : list A).

Lemma elem_of_unique l x : x ∈ unique l ↔ x ∈ l.
Proof.
  induction l as [|y l IH]; [done|].
  cbn [unique]. rewrite !elem_of_cons, list_elem_of_filter, IH.
  destruct (decide (x = y)); tauto.
Qed.

Lemma NoDup_unique l : NoDup (unique l).
Proof.
  induction l as [|y l IH]; [constructor|].
  cbn [unique]. constructor; [|by apply NoDup_filter].
  rewrite list_elem_of_filter. tauto.
Qed.

(** Selecting before or after listing the distinct members is the same. *)
Lemma unique_filter (P : A → Prop) `{∀ x, Decision (P x)} l :
  unique (filter P l) = filter P (unique l).
Proof.
  induction l as [|x l IH]; [done|].
  cbn [unique]. rewrite !filter_cons.
  destruct (decide (P x)) as [Hx|Hx].
  - cbn [unique]. rewrite IH, !list_filter_filter. f_equal.
    apply list_filter_iff. tauto.
  - rewrite IH, list_filter_filter. apply list_filter_iff.
    intros y. split; [|tauto]. intros Hy. split; [done|]. by intros ->.
Qed.

End unique_facts.

Global Instance event_le_trans : Transitive event_le.
Proof. intros e1 e2 e3. unfold event_le. lia. Qed.

Global Instance event_le_total : Total event_le.
Proof. intros e1 e2. unfold event_le. lia. Qed.

Lemma sort_values_Permutation (df_log : list event) : sort_values df_log ≡ₚ df_log.
Proof. apply stable_sort_Permutation. Qed.

Lemma sort_values_Sorted (df_log : list event) : Sorted event_le (sort_values df_log).
Proof. apply stable_sort_Sorted, _. Qed.


(** Rows of equal case and time stamp stay in the order of the file. *)
Lemma sort_values_stable (c t : Z) (df_log : list event) :
  filter (λ e, case_id e = c ∧ timestamp e = t) (sort_values df_log)
  = filter (λ e, case_id e = c ∧ timestamp e = t) df_log.
Proof.
  apply stable_sort_stable. intros x y [Hc Ht] [Hc' Ht']. right. lia.
Qed.

(** Rows equal to a fresh trace and rows in a set of traces add up. *)
Lemma length_filter_cons_fresh (t : trace) (D col : list trace) :
  t ∉ D →
  length (filter (λ u, u ∈ t :: D) col)
  = (length (filter (λ u, u = t) col) + length (filter (λ u, u ∈ D) col))%nat.
Proof.
  intros Ht. induction col as [|x col IH]; [done|].
  rewrite !filter_cons.
  destruct (decide (x = t)) as [->|Hne].
  - rewrite decide_True by (by left). rewrite decide_False by done.
    simpl. by rewrite IH.
  - destruct (decide (x ∈ D)) as [Hx|Hx].
    + rewrite decide_True by (by right). simpl. rewrite IH. lia.
    + rewrite decide_False; [done|]. rewrite not_elem_of_cons. by split.
Qed.

Lemma sum_occurrences (D col : list trace) :
  NoDup D →
  sum_snd ((λ t, (t, occurrences t col)) <$> D)
  = Z.of_nat (length (filter (λ u, u ∈ D) col)).
Proof.
  induction 1 as [|t D Ht Hnd IH].
  - simpl. rewrite filter_none; [done|]. intros x _. apply not_elem_of_nil.
  - rewrite fmap_cons. cbn [sum_snd foldr]. fold (sum_snd ((λ t, (t, occurrences t col)) <$> D)).
    rewrite IH, length_filter_cons_fresh by done. unfold occurrences. simpl. lia.
Qed.

Lemma value_counts_Permutation (col : list trace) :
  value_counts col ≡ₚ (λ t, (t, occurrences t col)) <$> unique col.
Proof. apply stable_sort_Permutation. Qed.

(** The counts of [value_counts] add up to the number of rows. *)
Lemma sum_snd_value_counts (col : list trace) :
  sum_snd (value_counts col) = Z.of_nat (length col).
Proof.
  rewrite (sum_snd_Permutation _ _ (value_counts_Permutation col)).
  rewrite sum_occurrences by apply NoDup_unique.
  rewrite filter_all; [done|]. intros x Hx. by apply elem_of_unique.
Qed.

Lemma elem_of_value_counts (col : list trace) (t : trace) (c : Z) :
  (t, c) ∈ value_counts col ↔ t ∈ col ∧ c = occurrences t col.
Proof.
  rewrite (value_counts_Permutation col), list_elem_of_fmap.
  setoid_rewrite elem_of_unique. split.
  - by intros (u & [= -> ->] & Hu).
  - intros [Ht ->]. by exists t.
Qed.

Lemma occurrences_pos (col : list trace) (t : trace) :
  t ∈ col → 0 < occurrences t col.
Proof.
  intros Ht. unfold occurrences.
  assert (Hin : t ∈ filter (λ u, u = t) col) by (by apply list_elem_of_filter).
  destruct (filter _ col); [by apply elem_of_nil in Hin|]. simpl. lia.
Qed.

(** The grouped frame has one row per case identifier of the log. *)
Lemma length_group_traces (df_log : list event) :
  Z.of_nat (length (group_traces df_log)) = total_cases df_log.
Proof.
  unfold group_traces, group_rows, total_cases. rewrite length_fmap. f_equal.
  rewrite <-(size_list_to_set (C := gset Z)) by apply NoDup_remove_dups. f_equal.
  apply set_eq. intros c.
  rewrite !elem_of_list_to_set, elem_of_remove_dups, !list_elem_of_fmap.
  by setoid_rewrite (sort_values_Permutation df_log).
Qed.

Lemma total_cases_pos (df_log : list event) :
  df_log ≠ [] → 0 < total_cases df_log.
Proof.
  intros Hne. unfold total_cases. destruct df_log as [|e l]; [done|].
  assert (size (list_to_set (C := gset Z) (case_id <$> e :: l)) ≠ 0%nat); [|lia].
  apply size_non_empty_iff. rewrite fmap_cons. set_solver.
Qed.

Lemma count_of_entry (c : Z) (f : PrimFloat.float) :
  count_of {["count" := PyInt c; "frequency" := PyFloat f]} = c.
Proof. unfold count_of. by rewrite lookup_insert_eq. Qed.

Lemma sum_counts_entries (total : Z) (vc : list (trace * Z)) :
  sum_counts ((λ tc : trace * Z,
                 (tc.1, ({["count" := PyInt tc.2;
                           "frequency" := PyFloat (true_div tc.2 total)]} : metrics)))
                <$> vc)
  = sum_snd vc.
Proof.
  induction vc as [|[t c] vc IH]; [done|].
  rewrite fmap_cons. cbn [sum_counts sum_snd foldr]. simpl.
  fold (sum_snd vc). rewrite <-IH, count_of_entry. done.
Qed.

(** The counts of the trace dictionary add up to the number of cases. *)
Lemma sum_counts_read_log_file (df_log : list event) :
  sum_counts (read_log_file df_log) = total_cases df_log.
Proof.
  unfold read_log_file, tabulate.
  rewrite sum_counts_entries, sum_snd_value_counts.
  by rewrite length_fmap, length_group_traces.
Qed.

(** The quotients over a common denominator add up to the quotient of the
    sum. *)
Lemma sum_exact_frequencies_counts (total : Z) (td : trace_dict) :
  (sum_exact_frequencies total td == Qmake (sum_counts td) (Z.to_pos total))%Q.
Proof.
  induction td as [|e td IH]; [done|].
  cbn [sum_exact_frequencies sum_counts foldr].
  fold (sum_exact_frequencies total td). fold (sum_counts td).
  rewrite IH. unfold exact_frequency, Qeq, Qplus. simpl.
  rewrite Pos2Z.inj_mul. ring.
Qed.

(** The entries of the table built from a grouped frame. *)
Lemma elem_of_tabulate (df_grouped : list (Z * trace)) (t : trace) (m : metrics) :
  (t, m) ∈ tabulate df_grouped
  ↔ t ∈ df_grouped.*2
    ∧ m = {["count" := PyInt (occurrences t df_grouped.*2);
            "frequency" := PyFloat (true_div (occurrences t df_grouped.*2)
                                             (Z.of_nat (length df_grouped)))]}.
Proof.
  unfold tabulate. rewrite list_elem_of_fmap. split.
  - intros ([u c] & [= -> ->] & [Hu ->]%elem_of_value_counts). by simpl.
  - intros [Ht ->]. exists (t, occurrences t df_grouped.*2).
    split; [done|]. by apply elem_of_value_counts.
Qed.

Lemma NoDup_tabulate (df_grouped : list (Z * trace)) :
  NoDup (tabulate df_grouped).*1.
Proof.
  unfold tabulate. rewrite <-list_fmap_compose.
  rewrite (list_fmap_ext _ fst) by (by intros).
  rewrite (value_counts_Permutation _), <-list_fmap_compose.
  rewrite (list_fmap_ext _ id) by (by intros).
  rewrite list_fmap_id. apply NoDup_unique.
Qed.

(** The entries of the trace dictionary. *)
Lemma elem_of_read_log_file (df_log : list event) (t : trace) (m : metrics) :
  (t, m) ∈ read_log_file df_log
  ↔ t ∈ case_traces df_log
    ∧ m = {["count" := PyInt (occurrences t (case_traces df_log));
            "frequency" := PyFloat (true_div (occurrences t (case_traces df_log))
                                             (total_cases df_log))]}.
Proof.
  unfold read_log_file. rewrite elem_of_tabulate, length_group_traces. done.
Qed.

Lemma NoDup_read_log_file (df_log : list event) :
  NoDup (read_log_file df_log).*1.
Proof. apply NoDup_tabulate. Qed.

(** ** Rounding of the quotient *)

(** [PrimFloat.div] and [PrimFloat.of_uint63] compute what [SpecFloat]
    specifies; here the specification is followed for a quotient of two
    integers below [2^53]. *)

Section rounding.
Import SpecFloat.

Lemma digits2_pos_bounds (p : positive) :
  2 ^ (Z.pos (SpecFloat.digits2_pos p) - 1) ≤ Z.pos p
  < 2 ^ Z.pos (SpecFloat.digits2_pos p).
Proof.
  induction p as [p IH|p IH|]; cbn [SpecFloat.digits2_pos].
  - rewrite Pos2Z.inj_succ, Z.pow_succ_r by lia.
    replace (Z.succ (Z.pos (SpecFloat.digits2_pos p)) - 1)
      with (Z.succ (Z.pos (SpecFloat.digits2_pos p) - 1)) by lia.
    rewrite Z.pow_succ_r by lia. lia.
  - rewrite Pos2Z.inj_succ, Z.pow_succ_r by lia.
    replace (Z.succ (Z.pos (SpecFloat.digits2_pos p)) - 1)
      with (Z.succ (Z.pos (SpecFloat.digits2_pos p) - 1)) by lia.
    rewrite Z.pow_succ_r by lia. lia.
  - simpl. lia.
Qed.

Lemma digits2_pos_unique (p : positive) (k : Z) :
  2 ^ (k - 1) ≤ Z.pos p < 2 ^ k → Z.pos (SpecFloat.digits2_pos p) = k.
Proof.
  intros [Hlo Hhi]. pose proof (digits2_pos_bounds p) as [Hlo' Hhi'].
  assert (0 < k).
  { destruct (decide (0 < k)); [done|]. rewrite Z.pow_neg_r in Hlo by lia.
    assert (2 ^ k ≤ 2 ^ 0) by (apply Z.pow_le_mono_r; lia). simpl in *. lia. }
  destruct (Z.lt_trichotomy (Z.pos (SpecFloat.digits2_pos p)) k) as [Hlt|[Heq|Hgt]];
    [|done|].
  - assert (2 ^ Z.pos (SpecFloat.digits2_pos p) ≤ 2 ^ (k - 1))
      by (apply Z.pow_le_mono_r; lia). lia.
  - assert (2 ^ k ≤ 2 ^ (Z.pos (SpecFloat.digits2_pos p) - 1))
      by (apply Z.pow_le_mono_r; lia). lia.
Qed.

Lemma iter_xO_pos (p k : positive) :
  Z.pos (Pos.iter xO p k) = Z.pos p * 2 ^ Z.pos k.
Proof.
  induction k as [|k IH] using Pos.peano_ind.
  - simpl. lia.
  - rewrite Pos.iter_succ, Pos2Z.inj_succ, Z.pow_succ_r, Pos2Z.inj_xO, IH by lia.
    lia.
Qed.


Lemma shr_record_of_loc_m (m : Z) (l : location) :
  shr_m (shr_record_of_loc m l) = m.
Proof. by destruct l as [|[]]. Qed.

Lemma loc_of_shr_record_of_loc (m : Z) (l : location) :
  loc_of_shr_record (shr_record_of_loc m l) = l.
Proof. by destruct l as [|[]]. Qed.

(** A mantissa of 53 digits is not shifted, one of 54 digits by one place. *)
Lemma shr_fexp_53 (q : positive) (e : Z) (l : location) :
  Z.pos (digits2_pos q) = 53 → -1074 ≤ e →
  shr_fexp FloatOps.prec FloatOps.emax (Z.pos q) e l
  = (shr_record_of_loc (Z.pos q) l, e).
Proof.
  intros Hd He. unfold shr_fexp, fexp, emin, Zdigits2. rewrite Hd.
  change FloatOps.prec with 53. change FloatOps.emax with 1024.
  replace (Z.max (53 + e - 53) (3 - 1024 - 53) - e) with 0 by lia. done.
Qed.

Lemma shr_fexp_54 (q : positive) (e : Z) (l : location) :
  Z.pos (digits2_pos q) = 54 → -1075 ≤ e →
  shr_fexp FloatOps.prec FloatOps.emax (Z.pos q) e l
  = (shr_1 (shr_record_of_loc (Z.pos q) l), e + 1).
Proof.
  intros Hd He. unfold shr_fexp, fexp, emin, Zdigits2. rewrite Hd.
  change FloatOps.prec with 53. change FloatOps.emax with 1024.
  replace (Z.max (54 + e - 53) (3 - 1024 - 53) - e) with 1 by lia. done.
Qed.

(** The last step of rounding: a mantissa that rounding has carried to
    [2^53] is halved. *)
Lemma round_carry (mr : Z) (e : Z) :
  2 ^ 52 ≤ mr ≤ 2 ^ 53 → -1074 ≤ e ≤ 900 →
  ∃ m e2,
    (let '(mrs, e') := shr_fexp FloatOps.prec FloatOps.emax mr e loc_Exact in
     match shr_m mrs with
     | Z0 => S754_zero false
     | Z.pos m => if e' <=? FloatOps.emax - FloatOps.prec then S754_finite false m e'
                  else S754_infinity false
     | Z.neg _ => S754_nan
     end) = S754_finite false m e2
    ∧ Z.pos (digits2_pos m) = 53
    ∧ e ≤ e2 ≤ e + 1
    ∧ Z.pos m * 2 ^ (e2 - e) = mr.
Proof.
  intros Hmr He. destruct mr as [|q|q]; [lia| |lia].
  destruct (decide (Z.pos q = 2 ^ 53)) as [Heq|Hne].
  - exists (2 ^ 52)%positive, (e + 1).
    rewrite shr_fexp_54; [|by injection Heq as ->|lia].
    injection Heq as ->. cbn [shr_record_of_loc shr_1 shr_m].
    change FloatOps.emax with 1024. change FloatOps.prec with 53.
    rewrite (proj2 (Z.leb_le _ _)) by lia.
    split_and!; [done|done|lia|lia|].
    replace (e + 1 - e) with 1 by lia. done.
  - exists q, e.
    assert (Hd : Z.pos (digits2_pos q) = 53) by (apply digits2_pos_unique; lia).
    rewrite shr_fexp_53, shr_record_of_loc_m by (done || lia).
    change FloatOps.emax with 1024. change FloatOps.prec with 53.
    rewrite (proj2 (Z.leb_le _ _)) by lia.
    split_and!; [done|done|lia|lia|].
    rewrite Z.sub_diag. lia.
Qed.

(** The location that [SFdiv] computes for a remainder. *)
Lemma new_location_spec (d r : Z) :
  0 < d → 0 ≤ r < d →
  new_location d r = if r =? 0 then loc_Exact else loc_Inexact (2 * r ?= d).
Proof.
  intros Hd Hr. unfold new_location, new_location_even, new_location_odd.
  destruct (Z.even d) eqn:Heven; [done|].
  destruct (r =? 0); [done|]. f_equal.
  assert (Hodd : Z.odd d = true) by (by rewrite <-Z.negb_even, Heven).
  apply Z.odd_spec in Hodd as [k ->].
  destruct (Z.compare_spec (2 * r + 1) (2 * k + 1)),
    (Z.compare_spec (2 * r) (2 * k + 1)); done || lia.
Qed.

(** Rounding to nearest an integer [q] with a remainder [r] out of [d]. *)
Lemma round_nearest_even_spec (q d r : Z) :
  0 < d → 0 ≤ r < d →
  let mr := round_nearest_even q
              (if r =? 0 then loc_Exact else loc_Inexact (2 * r ?= d)) in
  q ≤ mr ≤ q + 1 ∧ 2 * Z.abs (mr * d - (q * d + r)) ≤ d.
Proof.
  intros Hd Hr. cbn zeta. destruct (Z.eqb_spec r 0) as [->|Hne].
  - simpl. split; [lia|]. replace (q * d - (q * d + 0)) with 0 by lia. simpl. lia.
  - destruct (Z.compare_spec (2 * r) d) as [Heq|Hlt|Hgt]; cbn [round_nearest_even].
    + destruct (Z.even q); split; nia.
    + split; nia.
    + split; nia.
Qed.

(** The same after one place has been shifted out. *)
Lemma round_shifted_spec (q : positive) (d r : Z) :
  0 < d → 0 ≤ r < d → 2 ≤ Z.pos q →
  let mrs := shr_1 (shr_record_of_loc (Z.pos q)
                      (if r =? 0 then loc_Exact else loc_Inexact (2 * r ?= d))) in
  let mr := round_nearest_even (shr_m mrs) (loc_of_shr_record mrs) in
  Z.pos q / 2 ≤ mr ≤ Z.pos q / 2 + 1
  ∧ Z.abs (2 * mr * d - (Z.pos q * d + r)) ≤ d.
Proof.
  intros Hd Hr Hq. cbn zeta.
  destruct (Z.eqb_spec r 0) as [->|Hne].
  - destruct q as [q|q|]; [| |lia]; cbn [shr_record_of_loc shr_1 shr_m orb
      loc_of_shr_record round_nearest_even].
    + rewrite Pos2Z.inj_xI.
      replace ((2 * Z.pos q + 1) / 2) with (Z.pos q)
        by (apply Z.div_unique with 1; lia).
      destruct (Z.even (Z.pos q)); split; nia.
    + rewrite Pos2Z.inj_xO, Z.mul_comm, Z.div_mul by lia. split; nia.
  - assert (Hs : ∀ c, shr_record_of_loc (Z.pos q) (loc_Inexact c)
                     = {| shr_m := Z.pos q;
                          shr_r := match c with Lt => false | _ => true end;
                          shr_s := match c with Eq => false | _ => true end |})
      by (by intros []).
    rewrite Hs.
    assert (Hor : ∀ c, (match c with Lt => false | _ => true end
                       || match c with Eq => false | _ => true end) = true)
      by (by intros []).
    destruct q as [q|q|]; [| |lia]; cbn [shr_1 shr_m shr_r shr_s]; rewrite Hor;
      cbn [loc_of_shr_record round_nearest_even].
    + rewrite Pos2Z.inj_xI.
      replace ((2 * Z.pos q + 1) / 2) with (Z.pos q)
        by (apply Z.div_unique with 1; lia).
      split; nia.
    + rewrite Pos2Z.inj_xO, Z.mul_comm, Z.div_mul by lia. split; nia.
Qed.

(** [binary_round_aux] on a quotient of 53 or 54 digits with its remainder:
    the result is finite and at most half a unit of its last place away. *)
Lemma binary_round_aux_nearest (q : positive) (d r e : Z) :
  2 ^ 52 ≤ Z.pos q < 2 ^ 54 → 0 < d → 0 ≤ r < d → -1074 ≤ e ≤ 800 →
  ∃ m e2,
    binary_round_aux FloatOps.prec FloatOps.emax false (Z.pos q) e (new_location d r)
    = S754_finite false m e2
    ∧ Z.pos (digits2_pos m) = 53
    ∧ e ≤ e2 ≤ e + 2
    ∧ 2 * Z.abs (Z.pos m * 2 ^ (e2 - e) * d - (Z.pos q * d + r))
      ≤ d * (if decide (Z.pos q < 2 ^ 53) then 1 else 2).
Proof.
  intros Hq Hd Hr He. rewrite new_location_spec by done.
  unfold binary_round_aux. destruct (decide (Z.pos q < 2 ^ 53)) as [Hlt|Hge].
  - assert (Hdq : Z.pos (digits2_pos q) = 53) by (apply digits2_pos_unique; lia).
    rewrite shr_fexp_53, shr_record_of_loc_m, loc_of_shr_record_of_loc by (done || lia).
    destruct (round_nearest_even_spec (Z.pos q) d r Hd Hr) as [Hmr Herr].
    cbn zeta in Hmr, Herr.
    set (mr := round_nearest_even _ _) in *.
    destruct (round_carry mr e) as (m & e2 & Hres & Hdm & He2 & Hval); [lia..|].
    exists m, e2. split_and!; [exact Hres|done|lia|lia|].
    rewrite Hval. lia.
  - assert (Hdq : Z.pos (digits2_pos q) = 54) by (apply digits2_pos_unique; lia).
    rewrite shr_fexp_54 by (done || lia).
    destruct (round_shifted_spec q d r Hd Hr) as [Hmr Herr]; [lia|].
    cbn zeta in Hmr, Herr.
    set (mr := round_nearest_even _ _) in *.
    assert (2 ^ 52 ≤ Z.pos q / 2 < 2 ^ 53).
    { split; [apply Z.div_le_lower_bound; lia|apply Z.div_lt_upper_bound; lia]. }
    destruct (round_carry mr (e + 1)) as (m & e2 & Hres & Hdm & He2 & Hval); [lia..|].
    exists m, e2. split_and!; [exact Hres|done|lia|lia|].
    replace (e2 - e) with (e2 - (e + 1) + 1) by lia.
    rewrite Z.pow_add_r, Z.mul_assoc, Hval by lia. simpl (2 ^ 1). lia.
Qed.

(** The quotient of two positive binary64 values with exponents in the
    range of the integers below [2^53]: finite, and within a relative
    distance of [2^-53] of the exact quotient. *)
Lemma SFdiv_nearest (m1 m2 : positive) (e1 e2 : Z) :
  Z.pos (digits2_pos m1) = 53 → Z.pos (digits2_pos m2) = 53 →
  -52 ≤ e1 ≤ 0 → -52 ≤ e2 ≤ 0 →
  ∃ m e,
    SFdiv FloatOps.prec FloatOps.emax (S754_finite false m1 e1) (S754_finite false m2 e2)
    = S754_finite false m e
    ∧ Z.pos (digits2_pos m) = 53
    ∧ e1 - e2 - 53 ≤ e ≤ e1 - e2 - 51
    ∧ Z.abs (Z.pos m * 2 ^ (e - (e1 - e2 - 53)) * Z.pos m2 - Z.pos m1 * 2 ^ 53)
      ≤ Z.pos m1.
Proof.
  intros Hd1 Hd2 He1 He2.
  pose proof (digits2_pos_bounds m1) as Hm1. rewrite Hd1 in Hm1.
  pose proof (digits2_pos_bounds m2) as Hm2. rewrite Hd2 in Hm2.
  change (53 - 1) with 52 in Hm1, Hm2.
  unfold SFdiv, SFdiv_core_binary, Zdigits2, fexp, emin. rewrite Hd1, Hd2.
  change FloatOps.prec with 53. change FloatOps.emax with 1024.
  replace (Z.min (Z.max (53 + e1 - (53 + e2) - 53) (3 - 1024 - 53)) (e1 - e2))
    with (e1 - e2 - 53) by lia.
  replace (e1 - e2 - (e1 - e2 - 53)) with 53 by lia.
  rewrite Z.shiftl_mul_pow2 by lia.
  pose proof (Z_div_mod (Z.pos m1 * 2 ^ 53) (Z.pos m2) eq_refl) as Hdiv.
  destruct (Z.div_eucl (Z.pos m1 * 2 ^ 53) (Z.pos m2)) as [q r].
  destruct Hdiv as [Hdiv Hr].
  assert (Hq : 2 ^ 52 ≤ q < 2 ^ 54).
  { split.
    - destruct (decide (2 ^ 52 ≤ q)) as [|Hn]; [done|].
      assert (Z.pos m2 * q + r < Z.pos m2 * 2 ^ 52) by nia.
      assert (Z.pos m2 * 2 ^ 52 ≤ Z.pos m1 * 2 ^ 53) by nia. lia.
    - destruct (decide (q < 2 ^ 54)) as [|Hn]; [done|].
      assert (Z.pos m2 * 2 ^ 54 ≤ Z.pos m2 * q) by nia.
      assert (Z.pos m1 * 2 ^ 53 < Z.pos m2 * 2 ^ 54) by nia. lia. }
  destruct q as [|q|q]; [lia| |lia].
  destruct (binary_round_aux_nearest q (Z.pos m2) r (e1 - e2 - 53))
    as (m & e & Hres & Hdm & He & Herr); [done|lia|done|lia|].
  exists m, e. change (xorb false false) with false.
  split_and!; [exact Hres|done|lia|lia|].
  replace (Z.pos q * Z.pos m2 + r) with (Z.pos m1 * 2 ^ 53) in Herr by lia.
  destruct (decide (Z.pos q < 2 ^ 53)) as [Hlt|Hge]; [lia|].
  assert (Z.pos m2 ≤ Z.pos m1); [|lia].
  destruct (decide (Z.pos m2 ≤ Z.pos m1)) as [|Hn]; [done|].
  assert (Z.pos m2 * 2 ^ 53 ≤ Z.pos m2 * Z.pos q) by nia.
  assert (Z.pos m1 * 2 ^ 53 < Z.pos m2 * 2 ^ 53) by nia. lia.
Qed.

(** An integer below [2^53] converts exactly. *)
Lemma binary_normalize_exact (c : Z) :
  0 < c < 2 ^ 53 →
  ∃ m e,
    binary_normalize FloatOps.prec FloatOps.emax c 0 false = S754_finite false m e
    ∧ Z.pos (digits2_pos m) = 53 ∧ -52 ≤ e ≤ 0 ∧ Z.pos m = c * 2 ^ (- e).
Proof.
  intros Hc. destruct c as [|p|p]; [lia| |lia].
  pose proof (digits2_pos_bounds p) as Hp.
  assert (Hdp : Z.pos (digits2_pos p) ≤ 53).
  { destruct (decide (Z.pos (digits2_pos p) ≤ 53)) as [|Hn]; [done|].
    assert (2 ^ 53 ≤ 2 ^ (Z.pos (digits2_pos p) - 1))
      by (apply Z.pow_le_mono_r; lia). lia. }
  cbn [binary_normalize]. unfold binary_round, shl_align, fexp, emin.
  change FloatOps.prec with 53. change FloatOps.emax with 1024.
  replace (Z.max (Z.pos (digits2_pos p) + 0 - 53) (3 - 1024 - 53) - 0)
    with (Z.pos (digits2_pos p) - 53) by lia.
  replace (Z.max (Z.pos (digits2_pos p) + 0 - 53) (3 - 1024 - 53))
    with (Z.pos (digits2_pos p) - 53) by lia.
  destruct (Z.pos (digits2_pos p) - 53) as [|k|k] eqn:Hk; [|lia|].
  - exists p, 0.
    unfold binary_round_aux.
    rewrite shr_fexp_53, shr_record_of_loc_m by lia.
    cbn [shr_record_of_loc loc_of_shr_record round_nearest_even].
    rewrite shr_fexp_53, shr_record_of_loc_m by lia.
    split_and!; [done|lia|lia|lia|]. simpl. lia.
  - exists (Pos.iter xO p k), (Z.neg k).
    assert (Hval : Z.pos (Pos.iter xO p k) = Z.pos p * 2 ^ Z.pos k)
      by apply iter_xO_pos.
    assert (Hd : Z.pos (digits2_pos (Pos.iter xO p k)) = 53).
    { apply digits2_pos_unique. rewrite Hval.
      assert (H1 : 2 ^ (53 - 1)
                   = 2 ^ (Z.pos (digits2_pos p) - 1) * 2 ^ Z.pos k)
        by (rewrite <-Z.pow_add_r by lia; f_equal; lia).
      assert (H2 : 2 ^ 53 = 2 ^ Z.pos (digits2_pos p) * 2 ^ Z.pos k)
        by (rewrite <-Z.pow_add_r by lia; f_equal; lia).
      rewrite H1, H2.
      assert (0 < 2 ^ Z.pos k) by (apply Z.pow_pos_nonneg; lia). nia. }
    unfold binary_round_aux.
    rewrite shr_fexp_53, shr_record_of_loc_m by lia.
    cbn [shr_record_of_loc loc_of_shr_record round_nearest_even].
    rewrite shr_fexp_53, shr_record_of_loc_m by lia.
    change FloatOps.emax with 1024. change FloatOps.prec with 53.
    rewrite (proj2 (Z.leb_le _ _)) by lia.
    split_and!; [done|done|lia|lia|]. by rewrite Hval.
Qed.

(** The frequency of a trace: the stored value is finite, below 2, and
    within a relative distance of [2^-53] of the quotient. *)
Lemma true_div_nearest (c n : Z) :
  0 < c ≤ n → n < 2 ^ 53 →
  ∃ m E,
    FloatOps.Prim2SF (true_div c n) = S754_finite false m (- E)
    ∧ 0 < E
    ∧ 2 ^ 53 * Z.abs (Z.pos m * n - c * 2 ^ E) ≤ c * 2 ^ E.
Proof.
  intros Hc Hn. unfold true_div.
  rewrite FloatAxioms.div_spec, !FloatAxioms.of_uint63_spec, !Uint63.of_Z_spec.
  rewrite !Z.mod_small by (change Uint63.wB with (2 ^ 63); lia).
  destruct (binary_normalize_exact c) as (m1 & e1 & -> & Hd1 & He1 & Hm1); [lia|].
  destruct (binary_normalize_exact n) as (m2 & e2 & -> & Hd2 & He2 & Hm2); [lia|].
  destruct (SFdiv_nearest m1 m2 e1 e2) as (m & e & Hres & _ & He & Herr); [done..|].
  pose proof (digits2_pos_bounds m1) as Hb1. rewrite Hd1 in Hb1.
  pose proof (digits2_pos_bounds m2) as Hb2. rewrite Hd2 in Hb2.
  change (53 - 1) with 52 in Hb1, Hb2.
  assert (He12 : e1 ≤ e2).
  { destruct (decide (e1 ≤ e2)) as [|Hgt]; [done|].
    assert (H2 : 2 ^ (- e2) = 2 ^ (- e1) * 2 ^ (e1 - e2))
      by (rewrite <-Z.pow_add_r by lia; f_equal; lia).
    assert (2 ^ 1 ≤ 2 ^ (e1 - e2)) by (apply Z.pow_le_mono_r; lia).
    assert (0 < 2 ^ (- e1)) by (apply Z.pow_pos_nonneg; lia).
    change (2 ^ 1) with 2 in *. nia. }
  exists m, (- e). rewrite Z.opp_involutive.
  split_and!; [exact Hres|lia|].
  set (a := e - (e1 - e2 - 53)) in *.
  set (K := 2 ^ a * 2 ^ (- e2)).
  assert (HK : 0 < K).
  { apply Z.mul_pos_pos; apply Z.pow_pos_nonneg; lia. }
  assert (HP : 2 ^ (- e) * K = 2 ^ 53 * 2 ^ (- e1)).
  { unfold K. rewrite <-!Z.pow_add_r by lia. f_equal. lia. }
  assert (Hbound : Z.abs (Z.pos m * n - c * 2 ^ (- e)) * K ≤ c * 2 ^ (- e1)).
  { rewrite <-(Z.abs_eq K) at 1 by lia. rewrite <-Z.abs_mul.
    rewrite <-Hm1. etrans; [|exact Herr]. apply Z.eq_le_incl. f_equal.
    rewrite Hm1, Hm2. unfold K.
    replace (c * 2 ^ (- e1) * 2 ^ 53) with (c * (2 ^ 53 * 2 ^ (- e1))) by lia.
    rewrite <-HP. unfold K. lia. }
  apply (Z.mul_le_mono_pos_r _ _ K); [done|].
  replace (c * 2 ^ (- e) * K) with (c * (2 ^ (- e) * K)) by lia.
  rewrite HP. nia.
Qed.

Lemma Q_of_float_finite (f : PrimFloat.float) (m : positive) (E : Z) :
  FloatOps.Prim2SF f = S754_finite false m (- E) → 0 < E →
  Q_of_float f = Qmake (Z.pos m) (Pos.pow 2 (Z.to_pos E)).
Proof.
  intros Hf HE. unfold Q_of_float. rewrite Hf.
  rewrite decide_False by lia. by rewrite Z.opp_involutive.
Qed.

(** The frequency that [read_log_file] stores for a trace of [c] cases out
    of [n]. *)
Lemma entry_rounded_within (t : trace) (c n : Z) :
  0 < c ≤ n → n < 2 ^ 53 → rounded_within n (entry t c n).
Proof.
  intros Hc Hn.
  destruct (true_div_nearest c n Hc Hn) as (m & E & Hf & HE & Herr).
  unfold rounded_within, entry, frequency_of, exact_frequency. cbn [snd].
  rewrite count_of_entry, lookup_insert_ne, lookup_singleton_eq by done.
  rewrite (Q_of_float_finite _ m E Hf HE).
  unfold Qle, unit_roundoff, Qmult, Qminus, Qplus, Qopp. cbn [Qnum Qden].
  rewrite !Pos2Z.inj_mul, !Pos2Z.inj_pow, !Z2Pos.id by lia.
  change (Z.pos (2 ^ 53)) with (2 ^ 53).
  assert (Hu : 0 < 2 ^ 53) by lia.
  generalize dependent (2 ^ E). generalize dependent (2 ^ 53).
  intros u _ Hu P Herr.
  destruct (Z.abs_spec (Z.pos m * n - c * P)) as [[Hs Ha]|[Hs Ha]];
    rewrite Ha in Herr.
  - assert (0 ≤ u * (Z.pos m * n - c * P)) by (apply Z.mul_nonneg_nonneg; lia).
    lia.
  - assert (0 ≤ u * (c * P - Z.pos m * n)) by (apply Z.mul_nonneg_nonneg; lia).
    lia.
Qed.
End rounding.

Lemma occurrences_le_total (df_log : list event) (t : trace) :
  occurrences t (case_traces df_log) ≤ total_cases df_log.
Proof.
  rewrite <-length_group_traces. unfold case_traces, occurrences.
  rewrite <-(length_fmap snd (group_traces df_log)).
  apply inj_le, length_filter.
Qed.

(** Every frequency of the trace dictionary of a log of fewer than [2^53]
    cases is within one unit roundoff of its quotient. *)
Lemma read_log_file_rounded (df_log : list event) :
  total_cases df_log < 2 ^ 53 →
  Forall (rounded_within (total_cases df_log)) (read_log_file df_log).
Proof.
  intros Hmax. apply Forall_forall.
  intros [t m] [Ht ->]%elem_of_read_log_file.
  apply (entry_rounded_within t); [|done].
  split; [by apply occurrences_pos|apply occurrences_le_total].
Qed.

(** Entry-wise rounding bounds carry over to the sums. *)
Lemma sum_frequencies_bounds (total : Z) (td : trace_dict) :
  Forall (rounded_within total) td →
  ((1 - unit_roundoff) * sum_exact_frequencies total td <= sum_frequencies td)%Q
  ∧ (sum_frequencies td <= (1 + unit_roundoff) * sum_exact_frequencies total td)%Q.
Proof.
  induction 1 as [|e td [Hlo Hhi] Htd [IHlo IHhi]].
  - cbn [sum_exact_frequencies sum_frequencies foldr].
    rewrite !Qmult_0_r. split; apply Qle_refl.
  - cbn [sum_exact_frequencies sum_frequencies foldr].
    fold (sum_exact_frequencies total td). fold (sum_frequencies td).
    rewrite !Qmult_plus_distr_r. split; by apply Qplus_le_compat.
Qed.

(** C8 (amended). For every non-empty event log, [read_log_file] maps each
    distinct trace, and nothing else, to the number of cases that run it and
    to the binary64 quotient of that count by the number of cases (the
    distinct case identifiers, not the distinct traces); the counts add up
    to the number of cases, and the quotients [count / total] before
    rounding add up to 1. For a log of fewer than [2^53] cases every stored
    frequency is within one unit roundoff, relatively, of its quotient, and
    the stored frequencies add up to 1 within [2^-53]. *)
Theorem read_log_file_conservation (df_log : list event) :
  df_log ≠ [] →
  0 < total_cases df_log
  ∧ NoDup (read_log_file df_log).*1
  ∧ (∀ t, t ∈ case_traces df_log → ∃ m, (t, m) ∈ read_log_file df_log)
  ∧ (∀ t m, (t, m) ∈ read_log_file df_log →
       t ∈ case_traces df_log
       ∧ 0 < count_of m
       ∧ count_of m = occurrences t (case_traces df_log)
       ∧ m !! "count" = Some (PyInt (count_of m))
       ∧ m !! "frequency"
         = Some (PyFloat (true_div (count_of m) (total_cases df_log))))
  ∧ sum_counts (read_log_file df_log) = total_cases df_log
  ∧ (sum_exact_frequencies (total_cases df_log) (read_log_file df_log) == 1)%Q
  ∧ (total_cases df_log < 2 ^ 53 →
     Forall (rounded_within (total_cases df_log)) (read_log_file df_log)
     ∧ (1 - unit_roundoff <= sum_frequencies (read_log_file df_log))%Q
     ∧ (sum_frequencies (read_log_file df_log) <= 1 + unit_roundoff)%Q).
Proof.
  intros Hne. pose proof (total_cases_pos df_log Hne) as Hpos.
  assert (Hone : (sum_exact_frequencies (total_cases df_log)
                    (read_log_file df_log) == 1)%Q).
  { rewrite sum_exact_frequencies_counts, sum_counts_read_log_file.
    unfold Qeq. simpl. rewrite Z2Pos.id by done. ring. }
  split_and!;
    [done|apply NoDup_read_log_file| | |apply sum_counts_read_log_file|done|].
  - intros t Ht. eexists. by apply elem_of_read_log_file.
  - intros t m [Ht ->]%elem_of_read_log_file. rewrite count_of_entry.
    split_and!; [done|by apply occurrences_pos|done|by rewrite lookup_insert_eq|].
    by rewrite lookup_insert_ne, lookup_singleton_eq.
  - intros Hround%read_log_file_rounded. split; [done|].
    apply sum_frequencies_bounds in Hround as [Hlo Hhi].
    rewrite Hone, Qmult_1_r in Hlo, Hhi. by split.
Qed.

Lemma read_log_file_conservation_witness :
  example_log ≠ []
  ∧ sum_counts (read_log_file example_log) = total_cases example_log
  ∧ (sum_exact_frequencies (total_cases example_log) (read_log_file example_log)
     == 1)%Q
  ∧ total_cases example_log < 2 ^ 53
  ∧ (1 - unit_roundoff <= sum_frequencies (read_log_file example_log))%Q
  ∧ (sum_frequencies (read_log_file example_log) <= 1 + unit_roundoff)%Q.
Proof.
  assert (Hne : example_log ≠ []) by done.
  assert (Hmax : total_cases example_log < 2 ^ 53) by (by vm_compute).
  destruct (read_log_file_conservation example_log Hne)
    as (_ & _ & _ & _ & Hc & Hf & Hbounds).
  destruct (Hbounds Hmax) as (_ & Hlo & Hhi).
  by split_and!.
Defined.

(** C8, as stated, fails on [rounding_log]: each of its 49 traces gets the
    binary64 value nearest to 1/49, and these values add up to less than 1
    (by 23 units of 2^-58, more than half a unit in the last place below 1);
    adding them as floats from left to right does not give 1.0 either. The
    empty log has no frequencies at all to add up to 1. *)
Lemma read_log_file_frequencies_rounded :
  total_cases rounding_log = 49
  ∧ sum_counts (read_log_file rounding_log) = 49
  ∧ (λ e : trace * metrics, e.2 !! "frequency") <$> read_log_file rounding_log
    = replicate 49 (Some (PyFloat (true_div 1 49)))
  ∧ (sum_frequencies (read_log_file rounding_log) + Qmake 23 (2 ^ 58) == 1)%Q
  ∧ ¬ (sum_frequencies (read_log_file rounding_log) == 1)%Q
  ∧ PrimFloat.eqb (float_sum_frequencies (read_log_file rounding_log))
                  PrimFloat.one = false
  ∧ read_log_file [] = [].
Proof.
  split_and!; try vm_refl.
  - unfold Qeq. vm_refl.
  - unfold Qeq. intros H. by vm_compute in H.
Qed.

(** ** Threshold filter *)

Lemma threshold_filter_ok (min_frequency : PrimFloat.float) (td : trace_dict) :
  Forall (λ e : trace * metrics, ∃ f, e.2 !! "frequency" = Some (PyFloat f)) td →
  threshold_filter min_frequency td = Ok (filter (λ e, meets min_frequency e) td).
Proof.
  induction 1 as [|[t info] td [f Hf] Htd IH]; [done|].
  simpl in Hf. cbn [threshold_filter]. rewrite Hf, IH, filter_cons.
  assert (Hm : meets min_frequency (t, info) = PrimFloat.leb min_frequency f).
  { unfold meets. simpl. by rewrite Hf. }
  unfold py_ge. destruct (PrimFloat.leb min_frequency f) eqn:Hleb.
  - by rewrite decide_True by (by rewrite Hm).
  - rewrite decide_False; [done|]. rewrite Hm. exact id.
Qed.







(** ** The worked example, end to end *)

(** C7. On the dictionary [(a,b,c,d): 3, (a,c,b,d): 2, (a,e,d): 1] (the
    aggregation of a log of six cases) the pipeline yields initial
    activities [{a}] and final activities [{d}]; the directly-follows
    relation with the ten listed weights; a footprint with [(b,c)] parallel,
    [(a,d)], [(b,e)], [(c,e)] independent and [(a,b)], [(c,d)], [(e,d)]
    causal-forward; and a list of independent sets that holds [{a,d}],
    [{b,e}], [{c,e}] and the five singletons but neither [{a,b,e}] nor
    [{b,c,e}]. *)
Theorem worked_example :
  read_log_file example_log = example_traces
  ∧ total_cases example_log = 6
  ∧ sum_counts example_traces = 6
  ∧ identify_initial_and_final_events example_traces = Ok (["a"], ["d"])
  ∧ compute_directly_follows example_traces ["a"] ["d"]
    = Ok example_directly_follows
  ∧ (example_directly_follows !! ("start", "a") = Some 6
     ∧ example_directly_follows !! ("a", "b") = Some 3
     ∧ example_directly_follows !! ("a", "c") = Some 2
     ∧ example_directly_follows !! ("a", "e") = Some 1
     ∧ example_directly_follows !! ("b", "c") = Some 3
     ∧ example_directly_follows !! ("c", "b") = Some 2
     ∧ example_directly_follows !! ("c", "d") = Some 3
     ∧ example_directly_follows !! ("b", "d") = Some 2
     ∧ example_directly_follows !! ("e", "d") = Some 1
     ∧ example_directly_follows !! ("d", "end") = Some 6
     ∧ size example_directly_follows = 10%nat)
  ∧ (example_footprint !! ("b", "c") = Some Parallel
     ∧ example_footprint !! ("a", "d") = Some Independent
     ∧ example_footprint !! ("b", "e") = Some Independent
     ∧ example_footprint !! ("c", "e") = Some Independent
     ∧ example_footprint !! ("a", "b") = Some CausalFwd
     ∧ example_footprint !! ("c", "d") = Some CausalFwd
     ∧ example_footprint !! ("e", "d") = Some CausalFwd)
  ∧ ({["a"; "d"]} ∈ find_independent_sets example_footprint
     ∧ {["b"; "e"]} ∈ find_independent_sets example_footprint
     ∧ {["c"; "e"]} ∈ find_independent_sets example_footprint
     ∧ {["a"]} ∈ find_independent_sets example_footprint
     ∧ {["b"]} ∈ find_independent_sets example_footprint
     ∧ {["c"]} ∈ find_independent_sets example_footprint
     ∧ {["d"]} ∈ find_independent_sets example_footprint
     ∧ {["e"]} ∈ find_independent_sets example_footprint
     ∧ ({["a"; "b"; "e"]} ∉ find_independent_sets example_footprint)
     ∧ ({["b"; "c"; "e"]} ∉ find_independent_sets example_footprint)
     ∧ length (find_independent_sets example_footprint) = 8%nat).
Proof.
  do 5 (split; [vm_refl|]).
  split; [split_and!; vm_refl|].
  split; [split_and!; vm_refl|].
  split_and!; try vm_refl; compute_done.
Qed.

(* ===================================================================== *)
(** * Further properties of the code *)
(* ===================================================================== *)

(** ** The node list *)

(** One [extend]: the events of the trace that the list lacks are appended,
    each once, and nothing else changes. *)
Lemma extend_new_spec (ns : list string) (t : trace) :
  ∃ added, extend_new ns t = ns ++ added
    ∧ (NoDup ns → NoDup (ns ++ added))
    ∧ ∀ x, x ∈ added ↔ x ∈ t ∧ x ∉ ns.
Proof.
  unfold extend_new. revert ns. induction t as [|ev t IH]; intros ns.
  - exists []. rewrite app_nil_r. split_and!; [done..|].
    intros x. rewrite elem_of_nil. tauto.
  - cbn [foldl]. destruct (decide (ev ∈ ns)) as [Hin|Hout].
    + destruct (IH ns) as (added & -> & Hnd & Hmem).
      exists added. split_and!; [done..|].
      intros x. rewrite Hmem, elem_of_cons. split; [tauto|].
      intros [[->|?] ?]; tauto.
    + destruct (IH (ns ++ [ev])) as (added & -> & Hnd & Hmem).
      exists (ev :: added). split_and!.
      * by rewrite <-(assoc_L (++)).
      * intros Hns. change (ev :: added) with ([ev] ++ added).
        rewrite (assoc_L (++)). apply Hnd.
        apply NoDup_app. split_and!; [done| |apply NoDup_singleton].
        intros x Hx ->%list_elem_of_singleton. done.
      * intros x. rewrite !elem_of_cons, Hmem, elem_of_app, list_elem_of_singleton.
        split.
        -- intros [->|[? ?]]; tauto.
        -- intros [[->|?] ?]; [tauto|].
           destruct (decide (x = ev)); tauto.
Qed.

Lemma extend_all_spec (ns : list string) (ts : list trace) :
  ∃ added, foldl extend_new ns ts = ns ++ added
    ∧ (NoDup ns → NoDup (ns ++ added))
    ∧ ∀ x, x ∈ added ↔ (∃ t, t ∈ ts ∧ x ∈ t) ∧ x ∉ ns.
Proof.
  revert ns. induction ts as [|t ts IH]; intros ns.
  - exists []. rewrite app_nil_r. split_and!; [done..|].
    intros x. split; [by intros ?%elem_of_nil|].
    by intros [(t & ?%elem_of_nil & _) _].
  - cbn [foldl]. destruct (extend_new_spec ns t) as (a1 & -> & Hnd1 & Hmem1).
    destruct (IH (ns ++ a1)) as (a2 & -> & Hnd2 & Hmem2).
    exists (a1 ++ a2). split_and!.
    + by rewrite (assoc_L (++)).
    + intros Hns. rewrite (assoc_L (++)). auto.
    + intros x. rewrite elem_of_app, Hmem2, elem_of_app, !Hmem1. split.
      * intros [[Hx Hn]|[(u & Hu & Hx) Hn]].
        -- split; [|done]. exists t. split; [by left|done].
        -- split; [|tauto]. exists u. split; [by right|done].
      * intros [(u & [->|Hu]%elem_of_cons & Hx) Hn]; [tauto|].
        destruct (decide (x ∈ t)); [tauto|]. right. split; [by exists u|tauto].
Qed.

Lemma occurs_traces (td : trace_dict) (x : string) :
  occurs td x ↔ ∃ t, t ∈ td.*1 ∧ x ∈ t.
Proof.
  unfold occurs. rewrite Exists_exists. split.
  - intros ([t m] & He & Hx). exists t. split; [|done].
    apply list_elem_of_fmap. by exists (t, m).
  - intros (t & ([u m] & -> & He)%list_elem_of_fmap & Hx). by exists (u, m).
Qed.

(** The loop of one [extend] appends the events the list lacks, in the
    order of their first appearance. *)
Lemma extend_new_order (ns : list string) (t : trace) :
  extend_new ns t = ns ++ unique (filter (λ x, x ∉ ns) t).
Proof.
  unfold extend_new. revert ns. induction t as [|ev t IH]; intros ns.
  - by rewrite app_nil_r.
  - cbn [foldl]. rewrite filter_cons.
    destruct (decide (ev ∈ ns)) as [Hin|Hout].
    + rewrite decide_False by tauto. apply IH.
    + rewrite decide_True by done. rewrite IH. cbn [unique].
      rewrite <-unique_filter, list_filter_filter, <-(assoc_L (++)).
      cbn [app]. do 3 f_equal. apply list_filter_iff. intros x.
      rewrite elem_of_app, list_elem_of_singleton. tauto.
Qed.

(** So do the [extend]s of all traces, one after the other. *)
Lemma extend_all_order (ns : list string) (ts : list trace) :
  foldl extend_new ns ts = ns ++ unique (filter (λ x, x ∉ ns) (concat ts)).
Proof.
  rewrite <-extend_new_order. revert ns.
  induction ts as [|t ts IH]; intros ns; [done|].
  cbn [foldl concat]. rewrite IH. unfold extend_new. by rewrite foldl_app.
Qed.

(** X1. [identify_all_nodes] never raises. It returns ["start"], then the
    events of the traces other than ["start"], each once and in the order
    of their first appearance (the traces in the order of the dictionary,
    the events in the order of their trace), then ["end"]; so the list
    repeats an entry exactly when some trace has an event called ["end"],
    which is then listed twice. *)
Theorem identify_all_nodes_shape (td : trace_dict) :
  ∃ mid,
    identify_all_nodes td = "start" :: mid ++ ["end"]
    ∧ mid = unique (filter (λ x, x ≠ "start") (concat td.*1))
    ∧ NoDup ("start" :: mid)
    ∧ (∀ x, x ∈ mid ↔ x ≠ "start" ∧ occurs td x)
    ∧ (NoDup (identify_all_nodes td) ↔ ¬ occurs td "end").
Proof.
  unfold identify_all_nodes.
  destruct (extend_all_spec ["start"] td.*1) as (mid & Heq & Hnd & Hmem).
  assert (Hmid : ∀ x, x ∈ mid ↔ x ≠ "start" ∧ occurs td x).
  { intros x. rewrite Hmem, occurs_traces, list_elem_of_singleton. tauto. }
  assert (Horder : mid = unique (filter (λ x, x ≠ "start") (concat td.*1))).
  { rewrite extend_all_order in Heq. apply (inj (app ["start"])) in Heq.
    rewrite <-Heq. f_equal. apply list_filter_iff. intros x.
    by rewrite list_elem_of_singleton. }
  rewrite Heq. specialize (Hnd (NoDup_singleton _)).
  exists mid. split_and!; [done..|].
  change (["start"] ++ mid) with ("start" :: mid) in *.
  rewrite NoDup_app. split.
  - intros (_ & Hdisj & _) Hend. apply (Hdisj "end").
    + apply elem_of_cons. right. by apply Hmid.
    + by apply list_elem_of_singleton.
  - intros Hend. split_and!; [done| |apply NoDup_singleton].
    intros x Hx Hx'%list_elem_of_singleton. subst x.
    apply elem_of_cons in Hx as [?|Hx]; [done|].
    apply Hend. by apply Hmid.
Qed.

(** ** Boundary activities *)

Lemma boundary_fold_ok (f : trace → result string) (g : trace → option string)
    (td : trace_dict) (s : gset string) :
  (∀ t, t ≠ [] → ∃ x, f t = Ok x ∧ g t = Some x) →
  Forall (λ e : trace * metrics, e.1 ≠ []) td →
  ∃ s', rfold (λ (s : gset string) (e : trace * metrics),
                 x ← f e.1; Ok ({[x]} ∪ s)) s td = Ok s'
        ∧ ∀ x, x ∈ s' ↔ x ∈ s ∨ ∃ e, e ∈ td ∧ g e.1 = Some x.
Proof.
  intros Hf Hne. revert s. induction Hne as [|e td He Hne IH]; intros s.
  - exists s. split; [done|]. intros x. split; [by left|].
    intros [?|(e & ?%elem_of_nil & _)]; done.
  - destruct (Hf e.1 He) as (x0 & Hx0 & Hg). cbn [rfold]. rewrite Hx0. simpl.
    destruct (IH ({[x0]} ∪ s)) as (s' & -> & Hmem).
    exists s'. split; [done|]. intros x.
    rewrite Hmem, elem_of_union, elem_of_singleton. split.
    + intros [[->|?]|(e' & He' & Hx)]; [|by left|].
      * right. exists e. split; [by left|done].
      * right. exists e'. split; [by right|done].
    + intros [?|(e' & [->|He']%elem_of_cons & Hx)]; [by left; right| |].
      * left. left. congruence.
      * right. by exists e'.
Qed.

Lemma boundary_fold_raises (f : trace → result string) (td : trace_dict)
    (s : gset string) :
  f [] = Raise IndexError → (∀ t, t ≠ [] → ∃ x, f t = Ok x) →
  Exists (λ e : trace * metrics, e.1 = []) td →
  rfold (λ (s : gset string) (e : trace * metrics),
           x ← f e.1; Ok ({[x]} ∪ s)) s td = Raise IndexError.
Proof.
  intros Hnil Hf Hex. revert s. induction td as [|e td IH]; intros s.
  - by apply Exists_nil in Hex.
  - cbn [rfold]. destruct (decide (e.1 = [])) as [He|He].
    + by rewrite He, Hnil.
    + destruct (Hf e.1 He) as (x & ->). simpl. apply IH.
      apply Exists_cons in Hex as [?|?]; done.
Qed.

Lemma first_event_head (t : trace) :
  t ≠ [] → ∃ x, first_event t = Ok x ∧ head t = Some x.
Proof. destruct t as [|x t]; [done|]. by exists x. Qed.

Lemma last_event_last (t : trace) :
  t ≠ [] → ∃ x, last_event t = Ok x ∧ last t = Some x.
Proof.
  intros Ht. unfold last_event. destruct (last t) as [x|] eqn:Hl.
  - by exists x.
  - by apply last_None in Hl.
Qed.

(** The two comprehensions on non-empty traces. *)
Lemma identify_boundary_ok (td : trace_dict) :
  Forall (λ e, e.1 ≠ []) td →
  ∃ starts ends,
    identify_initial_and_final_events td = Ok (starts, ends)
    ∧ NoDup starts ∧ NoDup ends
    ∧ (∀ x, x ∈ starts ↔ ∃ e, e ∈ td ∧ head e.1 = Some x)
    ∧ (∀ x, x ∈ ends ↔ ∃ e, e ∈ td ∧ last e.1 = Some x).
Proof.
  intros Hne. unfold identify_initial_and_final_events.
  destruct (boundary_fold_ok first_event head td ∅ first_event_head Hne)
    as (I & -> & HI).
  destruct (boundary_fold_ok last_event last td ∅ last_event_last Hne)
    as (F & -> & HF).
  exists (elements I), (elements F). simpl.
  split_and!; [done|apply NoDup_elements..| |].
  - intros x. rewrite elem_of_elements, HI. set_solver.
  - intros x. rewrite elem_of_elements, HF. set_solver.
Qed.

Lemma identify_boundary_raises (td : trace_dict) :
  Exists (λ e, e.1 = []) td →
  identify_initial_and_final_events td = Raise IndexError.
Proof.
  intros Hex. unfold identify_initial_and_final_events.
  rewrite (boundary_fold_raises first_event td ∅); [done..| |done].
  intros t Ht. destruct (first_event_head t Ht) as (x & ? & _). by exists x.
Qed.

(** X2. [identify_initial_and_final_events] raises [IndexError] exactly when
    some trace is the empty tuple. Otherwise it returns two duplicate-free
    lists: the first events and the last events of the traces. *)
Theorem identify_boundary (td : trace_dict) :
  (identify_initial_and_final_events td = Raise IndexError
   ↔ Exists (λ e, e.1 = []) td)
  ∧ (Forall (λ e, e.1 ≠ []) td →
     ∃ starts ends,
       identify_initial_and_final_events td = Ok (starts, ends)
       ∧ NoDup starts ∧ NoDup ends
       ∧ (∀ x, x ∈ starts ↔ ∃ e, e ∈ td ∧ head e.1 = Some x)
       ∧ (∀ x, x ∈ ends ↔ ∃ e, e ∈ td ∧ last e.1 = Some x)).
Proof.
  split; [|apply identify_boundary_ok]. split.
  - intros Hraise.
    destruct (decide (Exists (λ e : trace * metrics, e.1 = []) td)) as [|Hn]; [done|].
    apply not_Exists_Forall in Hn; [|apply _].
    destruct (identify_boundary_ok td Hn) as (starts & ends & Heq & _). congruence.
  - apply identify_boundary_raises.
Qed.

Lemma elem_of_identify_all_nodes (td : trace_dict) (x : string) :
  x ∈ identify_all_nodes td ↔ x = "start" ∨ x = "end" ∨ occurs td x.
Proof.
  unfold identify_all_nodes.
  destruct (extend_all_spec ["start"] td.*1) as (mid & -> & _ & Hmem).
  rewrite !elem_of_app, !list_elem_of_singleton, Hmem, occurs_traces,
    list_elem_of_singleton.
  destruct (decide (x = "start")); tauto.
Qed.

(** ** The pipeline as a whole *)

(** The end points of the edges of a trace are its events and the two
    sentinels. *)
Lemma consecutive_pairs_events (t : trace) (x y : string) :
  (x, y) ∈ consecutive_pairs t → x ∈ t ∧ y ∈ t.
Proof.
  induction t as [|a [|b t] IH]; simpl; [by intros ?%elem_of_nil..|].
  intros [[= -> ->]|Hin]%elem_of_cons.
  - split; [by left|by right; left].
  - destruct (IH Hin). split; by right.
Qed.

Lemma trace_edges_events (S E : gset string) (t : trace) (x y : string) :
  (x, y) ∈ trace_edges S E t → (x = "start" ∨ x ∈ t) ∧ (y = "end" ∨ y ∈ t).
Proof.
  destruct t as [|first t']; [by intros ?%elem_of_nil|].
  unfold trace_edges. rewrite !elem_of_app.
  intros [Hs|[Hc|He]].
  - case_decide; [|by apply elem_of_nil in Hs].
    apply list_elem_of_singleton in Hs as [= -> ->]. split; [by left|right; by left].
  - apply consecutive_pairs_events in Hc as [? ?]. by split; right.
  - case_decide; [|by apply elem_of_nil in He].
    apply list_elem_of_singleton in He as [= -> ->]. split; [right|by left].
    destruct (last (first :: t')) as [l|] eqn:Hl; simpl; [|by left].
    by apply last_Some_elem_of.
Qed.

(** Every event after the first has a predecessor. *)
Lemma consecutive_pairs_predecessor (a : string) (t : trace) (x : string) :
  x ∈ t → ∃ p, (p, x) ∈ consecutive_pairs (a :: t).
Proof.
  revert a. induction t as [|b t IH]; intros a; [by intros ?%elem_of_nil|].
  intros [->|Hx]%elem_of_cons.
  - exists a. simpl. by left.
  - destruct (IH b Hx) as (p & Hp). exists p.
    change (consecutive_pairs (a :: b :: t))
      with ((a, b) :: consecutive_pairs (b :: t)).
    by right.
Qed.

(** With the first event recognised, every event of a trace is an end point
    of one of its edges. *)
Lemma trace_edges_cover (S E : gset string) (t : trace) (x : string) :
  x ∈ t → (∀ a, head t = Some a → a ∈ S) →
  ∃ y, (y, x) ∈ trace_edges S E t.
Proof.
  destruct t as [|first t']; [by intros ?%elem_of_nil|].
  intros [->|Hx]%elem_of_cons Hhead; unfold trace_edges.
  - exists "start". rewrite decide_True by (by apply Hhead).
    apply elem_of_app. left. by left.
  - destruct (consecutive_pairs_predecessor first t' x Hx) as (p & Hp).
    exists p. rewrite !elem_of_app. right. by left.
Qed.

(** What [compute_directly_follows] does on non-empty traces. *)
Lemma compute_directly_follows_outcome (td : trace_dict) (starts ends : list string) :
  Forall (λ e, e.1 ≠ []) td →
  (Forall count_accepted td
   ∧ ∃ df, compute_directly_follows td starts ends = Ok df
       ∧ ∀ p, df !! p
              = if decide (edge_present (list_to_set starts) (list_to_set ends) td p)
                then Some (edge_weight (list_to_set starts) (list_to_set ends) td p)
                else None)
  ∨ (∃ l1 t m l2, td = l1 ++ (t, m) :: l2 ∧ Forall count_accepted l1
       ∧ ¬ count_accepted (t, m)
       ∧ compute_directly_follows td starts ends
         = Raise (ValueError t (recorded_count m))).
Proof.
  intros Hne. destruct (decide (Exists (λ e, ¬ count_accepted e) td)) as [Hex|Hn].
  - right. destruct (Exists_first _ td Hex) as (l1 & [t m] & l2 & Htd & Hl1 & Hbad).
    assert (Hacc : Forall count_accepted l1).
    { eapply Forall_impl; [exact Hl1|]. intros e He. simpl in He.
      by destruct (decide (count_accepted e)). }
    exists l1, t, m, l2. split_and!; [done..|].
    by apply (compute_directly_follows_raises td l1 l2).
  - left. apply not_Exists_Forall in Hn; [|apply _].
    assert (Hacc : Forall count_accepted td).
    { eapply Forall_impl; [exact Hn|]. intros e He. simpl in He.
      by destruct (decide (count_accepted e)). }
    split; [done|]. eexists. split.
    + unfold compute_directly_follows. by apply follow_traces_ok.
    + intros p. rewrite follow_traces_lookup, lookup_empty. simpl.
      destruct (decide _); [f_equal; lia|done].
Qed.

(** X3. [discover] raises [IndexError] exactly when some trace is the empty
    tuple, whatever the counts are: the boundary events are computed first.
    On non-empty traces it raises the [ValueError] of the first count that is
    not an integer, and returns a result exactly when all counts are
    integers. The empty dictionary gives empty structures and the node list
    [start, end]. *)
Theorem discover_outcome (td : trace_dict) :
  (discover td = Raise IndexError ↔ Exists (λ e, e.1 = []) td)
  ∧ (Forall (λ e, e.1 ≠ []) td →
     ∀ l1 t m l2, td = l1 ++ (t, m) :: l2 →
       Forall count_accepted l1 → ¬ count_accepted (t, m) →
       discover td = Raise (ValueError t (recorded_count m)))
  ∧ ((∃ d, discover td = Ok d)
     ↔ Forall (λ e, e.1 ≠ []) td ∧ Forall count_accepted td)
  ∧ discover [] = Ok (Discovery [] [] ["start"; "end"] ∅ ∅ [] ∅ ∅).
Proof.
  assert (Hempty : Exists (λ e : trace * metrics, e.1 = []) td →
            discover td = Raise IndexError).
  { intros Hex. unfold discover.
    by rewrite (identify_boundary_raises td Hex). }
  assert (Hfull : Forall (λ e : trace * metrics, e.1 ≠ []) td →
            ∃ starts ends,
              discover td
              = (directly_follows ← compute_directly_follows td starts ends;
                 Ok (Discovery starts ends (identify_all_nodes td) directly_follows
                       (create_footprint directly_follows)
                       (find_independent_sets (create_footprint directly_follows))
                       (find_transitions (create_footprint directly_follows)
                          (find_independent_sets (create_footprint directly_follows)))
                       (filter_maximal_sets
                          (find_transitions (create_footprint directly_follows)
                             (find_independent_sets
                                (create_footprint directly_follows))))))).
  { intros Hne.
    destruct (identify_boundary_ok td Hne) as (starts & ends & Hb & _).
    exists starts, ends. unfold discover. by rewrite Hb. }
  split_and!.
  - split; [|done]. intros Hraise.
    destruct (decide (Exists (λ e : trace * metrics, e.1 = []) td)) as [|Hn]; [done|].
    apply not_Exists_Forall in Hn; [|apply _].
    destruct (Hfull Hn) as (starts & ends & Heq). rewrite Heq in Hraise.
    destruct (compute_directly_follows_outcome td starts ends Hn)
      as [(_ & df & Hdf & _)|(l1 & t & m & l2 & _ & _ & _ & Hdf)];
      rewrite Hdf in Hraise; done.
  - intros Hne l1 t m l2 Htd Hl1 Hbad.
    destruct (Hfull Hne) as (starts & ends & ->).
    by rewrite (compute_directly_follows_raises td l1 l2 t m starts ends).
  - split.
    + intros (d & Hd).
      destruct (decide (Exists (λ e : trace * metrics, e.1 = []) td)) as [Hex|Hn].
      { rewrite (Hempty Hex) in Hd. done. }
      apply not_Exists_Forall in Hn; [|apply _]. split; [done|].
      destruct (Hfull Hn) as (starts & ends & Heq). rewrite Heq in Hd.
      destruct (compute_directly_follows_outcome td starts ends Hn)
        as [(Hacc & _)|(l1 & t & m & l2 & _ & _ & _ & Hdf)]; [done|].
      by rewrite Hdf in Hd.
    + intros [Hne Hacc]. destruct (Hfull Hne) as (starts & ends & ->).
      destruct (compute_directly_follows_outcome td starts ends Hne)
        as [(_ & df & -> & _)|(l1 & t & m & l2 & -> & Hl1 & Hbad & _)].
      * by eexists.
      * apply Forall_app in Hacc as [_ [? _]%Forall_cons]. done.
  - vm_refl.
Qed.

Lemma not_elem_of_sentinels (x : string) :
  x ∉ sentinels ↔ x ≠ "start" ∧ x ≠ "end".
Proof. unfold sentinels. rewrite elem_of_union, !elem_of_singleton. tauto. Qed.

(** A successful run, taken apart. *)
Lemma discover_ok_inv (td : trace_dict) (d : discovery) :
  discover td = Ok d →
  ∃ starts ends df,
    identify_initial_and_final_events td = Ok (starts, ends)
    ∧ compute_directly_follows td starts ends = Ok df
    ∧ Forall (λ e, e.1 ≠ []) td ∧ Forall count_accepted td
    ∧ (∀ x, x ∈ starts ↔ ∃ e, e ∈ td ∧ head e.1 = Some x)
    ∧ (∀ x, x ∈ ends ↔ ∃ e, e ∈ td ∧ last e.1 = Some x)
    ∧ (∀ p, df !! p
            = if decide (edge_present (list_to_set starts) (list_to_set ends) td p)
              then Some (edge_weight (list_to_set starts) (list_to_set ends) td p)
              else None)
    ∧ d = Discovery starts ends (identify_all_nodes td) df (create_footprint df)
            (find_independent_sets (create_footprint df))
            (find_transitions (create_footprint df)
               (find_independent_sets (create_footprint df)))
            (filter_maximal_sets
               (find_transitions (create_footprint df)
                  (find_independent_sets (create_footprint df)))).
Proof.
  intros Hd.
  destruct (decide (Exists (λ e : trace * metrics, e.1 = []) td)) as [Hex|Hn].
  { unfold discover in Hd. by rewrite (identify_boundary_raises td Hex) in Hd. }
  apply not_Exists_Forall in Hn; [|apply _].
  destruct (identify_boundary_ok td Hn) as (starts & ends & Hb & _ & _ & Hs & He).
  unfold discover in Hd. rewrite Hb in Hd. cbn [mbind result_bind fst snd] in Hd.
  destruct (compute_directly_follows_outcome td starts ends Hn)
    as [(Hacc & df & Hdf & Hlookup)|(l1 & t & m & l2 & _ & _ & _ & Hdf)];
    rewrite Hdf in Hd; [|done].
  cbn [mbind result_bind] in Hd.
  exists starts, ends, df. split_and!; [done..|]. congruence.
Qed.

(** Non-empty traces with integer counts go through. *)
Lemma discover_ok (td : trace_dict) :
  Forall (λ e, e.1 ≠ []) td → Forall count_accepted td → ∃ d, discover td = Ok d.
Proof.
  intros Hne Hacc.
  destruct (identify_boundary_ok td Hne) as (starts & ends & Hb & _).
  unfold discover. rewrite Hb. cbn [mbind result_bind fst snd].
  unfold compute_directly_follows. rewrite follow_traces_ok by done.
  by eexists.
Qed.

Lemma before_elem_of {A} (l : list A) (x y : A) : before l x y → x ∈ l ∧ y ∈ l.
Proof.
  intros (l1 & l2 & -> & Hy). rewrite !elem_of_app, !elem_of_cons. auto.
Qed.

(** The labels of the footprint matrix of a run are the listed nodes
    other than the sentinels. *)
Lemma discover_footprint_labels (td : trace_dict) (d : discovery) (x : string) :
  discover td = Ok d →
  x ∈ events_of (footprint d) ↔ x ∈ nodes d ∧ x ≠ "start" ∧ x ≠ "end".
Proof.
  intros (starts & ends & df & _ & _ & Hne & Hacc & Hstarts & _ & Hlookup & ->
         )%discover_ok_inv.
  cbn [footprint nodes].
  set (S := list_to_set starts : gset string) in *.
  set (E := list_to_set ends : gset string) in *.
  assert (Hkey : ∀ p, is_Some (df !! p)
            ↔ ∃ e, e ∈ td ∧ p ∈ trace_edges S E e.1).
  { intros p. rewrite Hlookup. unfold edge_present. rewrite <-Exists_exists.
    destruct (decide _) as [Hex|Hn].
    - split; [done|]. by eexists.
    - split; [by intros [? ?]|done]. }
  rewrite events_of_create_footprint, elem_of_activities,
    elem_of_identify_all_nodes, not_elem_of_sentinels.
  unfold occurs. rewrite Exists_exists. split.
  - intros [[Hs1 Hs2] (y & [Hk|Hk])]; apply Hkey in Hk as (e & He & Hedge);
      apply trace_edges_events in Hedge as [Hx Hy];
      (split_and!; [|done..]); right; right; exists e;
      (split; [done|]).
    + by destruct Hx.
    + by destruct Hy.
  - intros ([->|[->|(e & He & Hx)]] & Hs1 & Hs2); [done..|].
    split; [done|].
    destruct (trace_edges_cover S E e.1 x Hx) as (y & Hy).
    { intros a Ha. apply elem_of_list_to_set, Hstarts. by exists e. }
    exists y. right. apply Hkey. by exists e.
Qed.

(** The transitions between the independent sets of a matrix are causal
    or parallel, and their members are labels of the matrix. *)
Lemma find_transitions_members (fp : gmap pair relation) (k : tkey) (r : relation) :
  find_transitions fp (find_independent_sets fp) !! k = Some r →
  (r = CausalFwd ∨ r = Parallel) ∧ ∀ x, x ∈ k.1 ++ k.2 → x ∈ events_of fp.
Proof.
  intros (A & B & Hb & Ht)%find_transitions_lookup;
    [|apply NoDup_find_independent_sets].
  apply before_elem_of in Hb as [[_ [HA _]]%elem_of_find_independent_sets
                                 [_ [HB _]]%elem_of_find_independent_sets].
  apply transition_of_pair in Ht as [(-> & Hr & _)|(-> & -> & _)].
  - split; [done|]. intros x. simpl.
    rewrite elem_of_app, !elem_of_elements. intros [?|?]; auto.
  - split; [by left|]. intros x. simpl.
    rewrite elem_of_app, !elem_of_elements. intros [?|?]; auto.
Qed.

(** X4. After a successful run, the labels of the footprint matrix are
    exactly the listed nodes other than ["start"] and ["end"], and the
    matrix has a cell for each pair of them; the members of every independent
    set and of every transition are such nodes, every transition is
    causal-forward or parallel, and the filter only removes transitions. *)
Theorem discover_labels (td : trace_dict) (d : discovery) :
  discover td = Ok d →
  (∀ x, x ∈ events_of (footprint d) ↔ x ∈ nodes d ∧ x ≠ "start" ∧ x ≠ "end")
  ∧ total_footprint (footprint d)
  ∧ (∀ S x, S ∈ independent_sets d → x ∈ S → x ∈ events_of (footprint d))
  ∧ (∀ k r, transitions d !! k = Some r →
       (r = CausalFwd ∨ r = Parallel)
       ∧ ∀ x, x ∈ k.1 ++ k.2 → x ∈ events_of (footprint d))
  ∧ filtered_transitions d ⊆ transitions d.
Proof.
  intros Hd. split.
  { intros x. by apply (discover_footprint_labels td). }
  apply discover_ok_inv in Hd as (starts & ends & df & _ & _ & _ & _ & _ & _ & _ & ->).
  cbn [footprint nodes independent_sets transitions filtered_transitions].
  split_and!.
  - apply create_footprint_total.
  - intros A x [_ [Hsub _]]%elem_of_find_independent_sets Hx. by apply Hsub.
  - intros k r. apply find_transitions_members.
  - unfold filter_maximal_sets. apply map_filter_subseteq.
Qed.

Lemma discover_labels_witness :
  ∃ d, discover example_traces = Ok d
       ∧ "b" ∈ events_of (footprint d) ∧ "b" ∈ nodes d
       ∧ "start" ∉ events_of (footprint d).
Proof.
  set (fp := create_footprint example_directly_follows).
  set (d := Discovery ["a"] ["d"] (identify_all_nodes example_traces)
              example_directly_follows fp (find_independent_sets fp)
              (find_transitions fp (find_independent_sets fp))
              (filter_maximal_sets (find_transitions fp (find_independent_sets fp)))).
  assert (Hd : discover example_traces = Ok d) by vm_refl.
  destruct (discover_labels example_traces d Hd) as (Hlabels & _).
  exists d. split; [done|].
  assert (Hb : "b" ∈ events_of (footprint d)) by compute_done.
  split_and!; [done| |].
  - by apply Hlabels.
  - intros Hs. apply Hlabels in Hs as (_ & Hs & _). by apply Hs.
Defined.

(** ** Relations between operands *)

Lemma sole_singleton (x : option relation) : sole {[x]} = x.
Proof. unfold sole. by rewrite elements_singleton. Qed.

(** [check_relationship] treats a single label as the set that holds it. *)
Lemma check_relationship_as_group (fp : gmap pair relation) (X Y : operand) :
  check_relationship fp X Y
  = check_relationship fp (Group (as_group X)) (Group (as_group Y)).
Proof.
  destruct X as [a|A], Y as [b|B]; simpl; rewrite ?elements_singleton; simpl.
  - by rewrite (right_id_L ∅ (∪)), sole_singleton.
  - by rewrite app_nil_r.
  - done.
  - done.
Qed.

(** X5. The answer of [check_relationship] does not depend on whether an
    argument is passed as a label or as a set: a label stands for its
    singleton. The answer is a symbol exactly when both arguments have a
    member and every cross pair carries that symbol; otherwise it is
    [None], in particular for an empty set and for cross pairs that
    disagree. *)
Theorem check_relationship_uniform (fp : gmap pair relation) (X Y : operand) :
  check_relationship fp X Y
  = check_relationship fp (Group (as_group X)) (Group (as_group Y))
  ∧ (∀ r, check_relationship fp X Y = Some r
          ↔ uniform_cross fp (as_group X) (as_group Y) r)
  ∧ (as_group X = ∅ ∨ as_group Y = ∅ → check_relationship fp X Y = None)
  ∧ (∀ a b a' b', a ∈ as_group X → b ∈ as_group Y →
       a' ∈ as_group X → b' ∈ as_group Y →
       fp !! (a, b) ≠ fp !! (a', b') → check_relationship fp X Y = None).
Proof.
  assert (Hiff : ∀ r, check_relationship fp X Y = Some r
            ↔ uniform_cross fp (as_group X) (as_group Y) r).
  { intros r. by rewrite check_relationship_as_group, check_relationship_groups. }
  split_and!; [apply check_relationship_as_group|done| |].
  - intros Hempty.
    destruct (check_relationship fp X Y) as [r|] eqn:Hr; [|done].
    destruct (proj1 (Hiff r) eq_refl) as (HX & HY & _). by destruct Hempty.
  - intros a b a' b' Ha Hb Ha' Hb' Hne.
    destruct (check_relationship fp X Y) as [r|] eqn:Hr; [|done].
    destruct (proj1 (Hiff r) eq_refl) as (_ & _ & Hall).
    destruct Hne. by rewrite (Hall a b), (Hall a' b').
Qed.

(** In a footprint built by [create_footprint] the cell of [(b, a)] holds
    the converse of the cell of [(a, b)]. *)
Lemma create_footprint_converse (df : gmap pair Z) (a b : string) (r : relation) :
  create_footprint df !! (a, b) = Some r
  → create_footprint df !! (b, a) = Some (converse r).
Proof.
  rewrite !create_footprint_lookup.
  destruct (decide (a ∈ activities df ∧ b ∈ activities df)) as [[Ha Hb]|]; [|done].
  rewrite decide_True by done. intros [= <-]. f_equal.
  unfold footprint_cell.
  destruct (decide (a = b)) as [->|Hab].
  - rewrite decide_True by done. by destruct (has_key df (b, b)).
  - rewrite (decide_False (P := b = a)) by congruence. simpl.
    by destruct (has_key df (a, b)), (has_key df (b, a)).
Qed.

Lemma converse_involutive (r : relation) : converse (converse r) = r.
Proof. by destruct r. Qed.

Lemma uniform_cross_converse (df : gmap pair Z) (A B : gset string) (r : relation) :
  uniform_cross (create_footprint df) A B r
  → uniform_cross (create_footprint df) B A (converse r).
Proof.
  intros (HA & HB & Hall). split_and!; [done..|].
  intros b a Hb Ha. by apply create_footprint_converse, Hall.
Qed.

(** X6. On a footprint built by [create_footprint], swapping the two
    arguments of [check_relationship] turns the answer into its converse:
    causal-forward into causal-backward and back, parallel and independent
    into themselves, and no answer into no answer. *)
Theorem check_relationship_converse (df : gmap pair Z) (X Y : operand) :
  check_relationship (create_footprint df) Y X
  = converse <$> check_relationship (create_footprint df) X Y.
Proof.
  set (fp := create_footprint df).
  assert (Hstep : ∀ X Y r, check_relationship fp X Y = Some r
            → check_relationship fp Y X = Some (converse r)).
  { intros X' Y' r.
    rewrite (check_relationship_as_group fp X'), (check_relationship_as_group fp Y'),
      !check_relationship_groups.
    apply uniform_cross_converse. }
  destruct (check_relationship fp X Y) as [r|] eqn:Hxy; simpl.
  - by apply Hstep.
  - destruct (check_relationship fp Y X) as [r|] eqn:Hyx; [|done].
    apply Hstep in Hyx. congruence.
Qed.

(** ** Transitions over a footprint of [create_footprint] *)

Lemma before_total {A} (l : list A) (x y : A) :
  x ∈ l → y ∈ l → x ≠ y → before l x y ∨ before l y x.
Proof.
  intros (l1 & l2 & ->)%list_elem_of_split Hy Hxy.
  apply elem_of_app in Hy as [Hy|Hy].
  - right. apply list_elem_of_split in Hy as (l3 & l4 & ->).
    exists l3, (l4 ++ x :: l2). split; [by rewrite <-app_assoc|].
    rewrite elem_of_app, elem_of_cons. auto.
  - apply elem_of_cons in Hy as [->|Hy]; [done|].
    left. by exists l1, l2.
Qed.

Lemma uniform_cross_agree (fp : gmap pair relation) (A B : gset string)
    (r1 r2 : relation) :
  uniform_cross fp A B r1 → uniform_cross fp A B r2 → r1 = r2.
Proof.
  intros (HA & HB & H1) (_ & _ & H2).
  apply set_choose_L in HA as [a Ha]. apply set_choose_L in HB as [b Hb].
  specialize (H1 a b Ha Hb). specialize (H2 a b Ha Hb). congruence.
Qed.

Lemma uniform_cross_irrefl (df : gmap pair Z) (A : gset string) :
  ¬ uniform_cross (create_footprint df) A A CausalFwd.
Proof.
  intros (HA & _ & Hall). apply set_choose_L in HA as [a Ha].
  specialize (Hall a a Ha Ha).
  pose proof (create_footprint_converse df a a _ Hall) as Hrev. simpl in Hrev.
  congruence.
Qed.

(** X7. For the transitions that the pipeline derives from a
    directly-follows dictionary (footprint, then independent sets, then
    transitions), the order in which the independent sets are listed does
    not affect the causal entries: a key holds the causal symbol exactly
    when its two tuples list two independent sets all of whose cross pairs
    are causal-forward. For two different independent sets whose cross pairs
    are all parallel, exactly one of the two orientations is a key, and it
    holds the parallel symbol. *)
Theorem find_transitions_orientation (df : gmap pair Z) :
  let fp := create_footprint df in
  let sets := find_independent_sets fp in
  let tr := find_transitions fp sets in
  (∀ A B : gset string,
     tr !! (elements A, elements B) = Some CausalFwd
     ↔ A ∈ sets ∧ B ∈ sets ∧ uniform_cross fp A B CausalFwd)
  ∧ (∀ A B : gset string,
       A ∈ sets → B ∈ sets → A ≠ B → uniform_cross fp A B Parallel →
       (tr !! (elements A, elements B) = Some Parallel
        ∧ tr !! (elements B, elements A) = None)
       ∨ (tr !! (elements B, elements A) = Some Parallel
          ∧ tr !! (elements A, elements B) = None)).
Proof.
  intros fp sets tr.
  assert (Hnd : NoDup sets) by apply NoDup_find_independent_sets.
  assert (Hlookup : ∀ k r, tr !! k = Some r
            ↔ ∃ A B, before sets A B ∧ transition_of fp [A; B] = Some (k, r)).
  { intros k r. by apply find_transitions_lookup. }
  split.
  - intros A B. split.
    + intros (A' & B' & Hb & Ht)%Hlookup.
      apply before_elem_of in Hb as [HA' HB'].
      apply transition_of_pair in Ht as [(Hk & _ & Hu)|(Hk & _ & Hu)].
      * injection Hk as ->%elements_inj ->%elements_inj. done.
      * injection Hk as ->%elements_inj ->%elements_inj.
        split_and!; [done..|]. by apply uniform_cross_converse in Hu.
    + intros (HA & HB & Hu).
      assert (Hne : A ≠ B).
      { intros ->. by apply uniform_cross_irrefl in Hu. }
      apply Hlookup.
      destruct (before_total sets A B HA HB Hne) as [Hb|Hb].
      * exists A, B. split; [done|]. apply transition_of_pair. left. auto.
      * exists B, A. split; [done|]. apply transition_of_pair. right.
        split_and!; [done..|]. by apply uniform_cross_converse in Hu.
  - intros A B HA HB Hne Hu.
    assert (Hu' : uniform_cross fp B A Parallel).
    { by apply uniform_cross_converse in Hu. }
    assert (Hone : ∀ X Y : gset string, before sets X Y →
              uniform_cross fp X Y Parallel →
              tr !! (elements X, elements Y) = Some Parallel
              ∧ tr !! (elements Y, elements X) = None).
    { intros X Y Hb HuXY. split.
      - apply Hlookup. exists X, Y. split; [done|].
        apply transition_of_pair. left. auto.
      - destruct (tr !! (elements Y, elements X)) as [r|] eqn:Hr; [|done].
        apply Hlookup in Hr as (A' & B' & Hb' & Ht).
        apply transition_of_pair in Ht as [(Hk & _ & _)|(Hk & _ & Hbwd)].
        + injection Hk as ->%elements_inj ->%elements_inj.
          by destruct (before_NoDup _ _ _ Hnd Hb).
        + injection Hk as ->%elements_inj ->%elements_inj.
          by pose proof (uniform_cross_agree _ _ _ _ _ HuXY Hbwd). }
    destruct (before_total sets A B HA HB Hne) as [Hb|Hb]; [left|right]; auto.
Qed.

(** ** Independent sets of any matrix *)

(** X8. The list of independent sets is closed under taking non-empty
    subsets, whatever the matrix: a cell that is missing counts as
    independent, so the closure needs no assumption on the matrix. *)
Theorem find_independent_sets_subsets (fp : gmap pair relation)
    (S S' : gset string) :
  S ∈ find_independent_sets fp → S' ⊆ S → S' ≠ ∅ →
  S' ∈ find_independent_sets fp.
Proof.
  rewrite !elem_of_find_independent_sets.
  intros (_ & Hsub & Hind) Hle Hne. split_and!; [done| |].
  - by etrans.
  - intros a b Ha Hb. apply Hind; by apply Hle.
Qed.

Lemma find_independent_sets_subsets_witness :
  ({["b"; "e"]} : gset string) ∈ find_independent_sets example_footprint
  ∧ ({["e"]} : gset string) ∈ find_independent_sets example_footprint.
Proof.
  assert (Hbe : ({["b"; "e"]} : gset string) ∈ find_independent_sets example_footprint)
    by compute_done.
  split; [exact Hbe|].
  apply (find_independent_sets_subsets example_footprint {["b"; "e"]} {["e"]} Hbe).
  - compute_done.
  - apply non_empty_singleton_L.
Defined.

(** ** The maximal-set filter as an operation *)

Lemma dominated_keys (tr tr' : gmap tkey relation) (k : tkey) :
  (∀ larger, is_Some (tr !! larger) → is_Some (tr' !! larger)) →
  dominated tr k → dominated tr' k.
Proof.
  intros Hkeys (Hne & larger & Hin & Hdiff & Hsub).
  split; [done|]. exists larger. auto.
Qed.

(** X9. The symbols play no part in the selection of
    [filter_maximal_sets]: replacing every symbol of the dictionary by
    another one replaces the symbols of the result and changes nothing
    else. In particular the mirrored pairs that [map_pairs_to_sets] files
    for parallel entries never decide whether a key is kept. *)
Theorem filter_maximal_sets_relabel (f : relation → relation)
    (tr : gmap tkey relation) :
  filter_maximal_sets (f <$> tr) = f <$> filter_maximal_sets tr.
Proof.
  assert (Hdom : ∀ k, dominated (f <$> tr) k ↔ dominated tr k).
  { intros k. split; apply dominated_keys; intros larger;
      rewrite lookup_fmap, fmap_is_Some; done. }
  apply map_eq. intros k. apply option_eq. intros r.
  rewrite filter_maximal_sets_lookup, !lookup_fmap, !fmap_Some, Hdom.
  split.
  - intros [(r' & Hr' & ->) Hnd]. exists r'. split; [|done].
    by apply filter_maximal_sets_lookup.
  - intros (r' & [Hr' Hnd]%filter_maximal_sets_lookup & ->). eauto.
Qed.

(** X10. Filtering a second time removes nothing: a key that survives
    [filter_maximal_sets] also survives it among the survivors. *)
Theorem filter_maximal_sets_idempotent (tr : gmap tkey relation) :
  filter_maximal_sets (filter_maximal_sets tr) = filter_maximal_sets tr.
Proof.
  apply map_eq. intros k. apply option_eq. intros r.
  rewrite !filter_maximal_sets_lookup. split; [tauto|].
  intros [Hr Hnd]. split_and!; [done..|].
  intros Hdom. apply Hnd. revert Hdom. apply dominated_keys.
  intros larger [r' [Hr' _]%filter_maximal_sets_lookup]. by exists r'.
Qed.

(** ** The index of [map_pairs_to_sets] *)

Lemma elem_of_deconstruct_subset (k : tkey) (a b : string) :
  (a, b) ∈ deconstruct_subset k ↔ a ∈ k.1 ∧ b ∈ k.2.
Proof.
  unfold deconstruct_subset.
  rewrite elem_of_list_to_set, list_elem_of_bind. split.
  - intros (x & (y & [= -> ->]%list_elem_of_singleton & Hy)%list_elem_of_bind & Hx).
    done.
  - intros [Ha Hb]. exists a. split; [|done].
    apply list_elem_of_bind. exists b. split; [by apply list_elem_of_singleton|done].
Qed.

Lemma elem_of_indexed_pairs (tr : gmap tkey relation) (k : tkey) (a b : string) :
  (a, b) ∈ indexed_pairs tr k
  ↔ (a ∈ k.1 ∧ b ∈ k.2) ∨ (tr !! k = Some Parallel ∧ b ∈ k.1 ∧ a ∈ k.2).
Proof.
  unfold indexed_pairs. destruct (decide (tr !! k = Some Parallel)) as [Hp|Hp].
  - rewrite elem_of_union, elem_of_map, elem_of_deconstruct_subset. split.
    + intros [?|([x y] & [= -> ->] & ?%elem_of_deconstruct_subset)]; tauto.
    + intros [?|(_ & ? & ?)]; [tauto|]. right. exists (b, a).
      split; [done|]. by apply elem_of_deconstruct_subset.
  - rewrite elem_of_deconstruct_subset. tauto.
Qed.

Section index_values.
Context `{Countable K} `{Countable P}.
Implicit Types (m : gmap P (gset K)) (k : K) (p : P).

Lemma index_row_inhabited k (ps : list P) m :
  map_Forall (λ _ S, S ≠ ∅) m →
  map_Forall (λ _ S, S ≠ ∅)
    (foldl (λ m q, <[q := {[k]} ∪ default ∅ (m !! q)]> m) m ps).
Proof.
  revert m. induction ps as [|q ps IH]; intros m Hm; cbn [foldl]; [done|].
  apply IH, map_Forall_insert_2; [|done].
  intros Hempty. apply empty_union_L in Hempty as [Hk _].
  by apply (non_empty_singleton_L k) in Hk.
Qed.

Lemma index_inhabited (g : K → list P) (ks : list K) m :
  map_Forall (λ _ S, S ≠ ∅) m →
  map_Forall (λ _ S, S ≠ ∅)
    (foldl (λ m k, foldl (λ m q, <[q := {[k]} ∪ default ∅ (m !! q)]> m)
                         m (g k)) m ks).
Proof.
  revert m. induction ks as [|k ks IH]; intros m Hm; cbn [foldl]; [done|].
  by apply IH, index_row_inhabited.
Qed.
End index_values.

(** X11. The index built by [map_pairs_to_sets] has an entry for a pair
    exactly when some key of the dictionary is filed under it, and the entry
    is then the set of all such keys, never an empty set. A key is filed
    under each pair made of a member of its first tuple and a member of its
    second tuple and, when its symbol is the parallel one, also under the
    mirror image of each such pair. *)
Theorem map_pairs_to_sets_exact (tr : gmap tkey relation) (a b : string)
    (S : gset tkey) :
  map_pairs_to_sets tr !! (a, b) = Some S
  ↔ S ≠ ∅
    ∧ ∀ k, k ∈ S ↔ ∃ r, tr !! k = Some r
                 ∧ ((a ∈ k.1 ∧ b ∈ k.2) ∨ (r = Parallel ∧ b ∈ k.1 ∧ a ∈ k.2)).
Proof.
  assert (Hfiled : ∀ k, k ∈ default ∅ (map_pairs_to_sets tr !! (a, b))
            ↔ ∃ r, tr !! k = Some r
                ∧ ((a ∈ k.1 ∧ b ∈ k.2) ∨ (r = Parallel ∧ b ∈ k.1 ∧ a ∈ k.2))).
  { intros k. rewrite map_pairs_to_sets_lookup, elem_of_indexed_pairs. split.
    - intros [[r Hr] [?|(Hp & ? & ?)]]; exists r; [tauto|].
      split; [done|]. right. split_and!; [congruence|done..].
    - intros (r & Hr & [?|(-> & ? & ?)]); (split; [by eexists|tauto]). }
  assert (Hinh : map_Forall (λ _ S, S ≠ ∅) (map_pairs_to_sets tr)).
  { unfold map_pairs_to_sets.
    exact (index_inhabited (λ k, elements (indexed_pairs tr k)) _ ∅
             (map_Forall_empty _)). }
  split.
  - intros HS. split; [by apply (Hinh (a, b))|].
    intros k. rewrite <-Hfiled, HS. done.
  - intros [Hne HS].
    destruct (map_pairs_to_sets tr !! (a, b)) as [S'|] eqn:Hlook.
    + f_equal. apply set_eq. intros k. by rewrite HS, <-Hfiled.
    + simpl in Hfiled. apply set_choose_L in Hne as [k Hk].
      apply HS, Hfiled in Hk. by apply elem_of_empty in Hk.
Qed.

(** ** The directly-follows relation as a function of its arguments *)

Lemma edge_weight_Permutation (S E : gset string) (td td' : trace_dict) (p : pair) :
  td ≡ₚ td' → edge_weight S E td p = edge_weight S E td' p.
Proof.
  induction 1 as [|e l l' _ IH|e1 e2 l|l1 l2 l3 _ IH1 _ IH2]; simpl.
  - done.
  - fold (edge_weight S E l p). fold (edge_weight S E l' p). lia.
  - lia.
  - congruence.
Qed.

Lemma edge_present_Permutation (S E : gset string) (td td' : trace_dict) (p : pair) :
  td ≡ₚ td' → edge_present S E td p → edge_present S E td' p.
Proof.
  unfold edge_present. rewrite !Exists_exists.
  intros Hperm (e & He & Hp). exists e. split; [|done]. by rewrite <-Hperm.
Qed.

(** X12. The relation computed by [compute_directly_follows] does not
    depend on the order of the entries of the trace dictionary, nor on the
    order or repetitions of the two lists of boundary events, as long as all
    traces are non-empty and all counts are integers (otherwise the error
    raised is that of the first offending entry, which depends on the
    order). *)
Theorem compute_directly_follows_order (td td' : trace_dict)
    (starts starts' ends ends' : list string) :
  td ≡ₚ td' →
  list_to_set starts =@{gset string} list_to_set starts' →
  list_to_set ends =@{gset string} list_to_set ends' →
  Forall (λ e, e.1 ≠ []) td → Forall count_accepted td →
  compute_directly_follows td starts ends
  = compute_directly_follows td' starts' ends'.
Proof.
  intros Hperm Hs He Hne Hacc. unfold compute_directly_follows.
  rewrite <-Hs, <-He.
  rewrite !follow_traces_ok by (done || by rewrite <-Hperm).
  f_equal. apply map_eq. intros p.
  rewrite !follow_traces_lookup, lookup_empty.
  rewrite (edge_weight_Permutation _ _ td td') by done.
  destruct (decide (edge_present _ _ td p)) as [Hp|Hp];
    destruct (decide (edge_present _ _ td' p)) as [Hp'|Hp']; try done.
  - destruct Hp'. by apply (edge_present_Permutation _ _ td).
  - destruct Hp. by apply (edge_present_Permutation _ _ td').
Qed.

Lemma compute_directly_follows_order_witness :
  compute_directly_follows example_traces ["a"] ["d"]
  = compute_directly_follows
      [entry ["a"; "c"; "b"; "d"] 2 6; entry ["a"; "b"; "c"; "d"] 3 6;
       entry ["a"; "e"; "d"] 1 6] ["a"; "a"] ["d"].
Proof.
  apply compute_directly_follows_order.
  - apply perm_swap.
  - vm_refl.
  - done.
  - by repeat constructor.
  - repeat constructor; compute_done.
Defined.

(** ** The threshold filter and the front end *)

(** X13. On a dictionary whose entries up to some entry hold a float under
    ['frequency'], the threshold filter raises [KeyError] when that entry has
    no ['frequency'] field and [TypeError] when the field holds a string or
    [None]; the entries after it are not looked at. *)
Theorem threshold_filter_raises (min_frequency : PrimFloat.float)
    (l1 l2 : trace_dict) (t : trace) (info : metrics) :
  Forall (λ e : trace * metrics, ∃ f, e.2 !! "frequency" = Some (PyFloat f)) l1 →
  (info !! "frequency" = None →
   threshold_filter min_frequency (l1 ++ (t, info) :: l2)
   = Raise (KeyError "frequency"))
  ∧ (∀ v, info !! "frequency" = Some v → v = PyNone ∨ (∃ s, v = PyStr s) →
       threshold_filter min_frequency (l1 ++ (t, info) :: l2) = Raise TypeError).
Proof.
  intros Hl1.
  assert (Hstep : ∀ e, threshold_filter min_frequency ((t, info) :: l2) = Raise e →
            threshold_filter min_frequency (l1 ++ (t, info) :: l2) = Raise e).
  { intros e He. induction Hl1 as [|[u m] l1 [f Hf] _ IH]; [done|].
    simpl in Hf. rewrite <-app_comm_cons. cbn [threshold_filter].
    rewrite Hf, IH. done. }
  split.
  - intros Hnone. apply Hstep. cbn [threshold_filter]. by rewrite Hnone.
  - intros v Hv Hkind. apply Hstep. cbn [threshold_filter]. rewrite Hv.
    by destruct Hkind as [->|[s ->]].
Qed.

Lemma threshold_filter_raises_witness :
  threshold_filter PrimFloat.zero (example_traces ++ [(["a"], {["count" := PyInt 1]})])
  = Raise (KeyError "frequency").
Proof.
  apply (threshold_filter_raises PrimFloat.zero example_traces []).
  - unfold example_traces.
    repeat (apply Forall_cons_2; [eexists; vm_compute; reflexivity|]).
    apply Forall_nil_2.
  - vm_refl.
Defined.

(** ** Conservation of flow in the directly-follows relation *)

Section sums.
Context {A : Type}.
Implicit Types (f g : A → Z) (l : list A).

Lemma sumZ_ext f g l : (∀ x, x ∈ l → f x = g x) → sumZ f l = sumZ g l.
Proof.
  induction l as [|x l IH]; [done|]. intros Hfg. simpl.
  rewrite (Hfg x) by (by left). rewrite IH; [done|].
  intros y Hy. apply Hfg. by right.
Qed.

Lemma sumZ_add f g l : sumZ (λ x, f x + g x) l = sumZ f l + sumZ g l.
Proof. induction l as [|x l IH]; [done|]. simpl. rewrite IH. lia. Qed.

Lemma sumZ_scale (c : Z) f l : sumZ (λ x, c * f x) l = c * sumZ f l.
Proof. induction l as [|x l IH]; simpl; [lia|]. rewrite IH. lia. Qed.

Lemma sumZ_zero l : sumZ (λ _, 0) l = 0.
Proof. induction l as [|x l IH]; [done|]. simpl. by rewrite IH. Qed.

Lemma tally_nil (P : A → Prop) `{∀ x, Decision (P x)} : tally P [] = 0.
Proof. done. Qed.

Lemma tally_cons (P : A → Prop) `{∀ x, Decision (P x)} (x : A) l :
  tally P (x :: l) = (if decide (P x) then 1 else 0) + tally P l.
Proof. unfold tally. rewrite filter_cons. case_decide; simpl length; lia. Qed.

Lemma tally_app (P : A → Prop) `{∀ x, Decision (P x)} l1 l2 :
  tally P (l1 ++ l2) = tally P l1 + tally P l2.
Proof. unfold tally. rewrite filter_app, length_app. lia. Qed.
End sums.

Section flows.
Context (φ : pair → Prop) `{∀ p, Decision (φ p)}.

(** A sum over the entries of a relation is a sum over its keys. *)
Lemma sumZ_entries (w : pair → Z) (l : list (pair * Z)) :
  (∀ kv, kv ∈ l → kv.2 = w kv.1) →
  sumZ (λ kv : pair * Z, if decide (φ kv.1) then kv.2 else 0) l
  = sumZ (λ p, if decide (φ p) then w p else 0) l.*1.
Proof.
  induction l as [|kv l IH]; [done|]. intros Hw. simpl.
  rewrite (Hw kv) by (by left). rewrite IH; [done|].
  intros kv' Hkv'. apply Hw. by right.
Qed.

(** Among duplicate-free keys exactly one equals a listed edge. *)
Lemma sumZ_pick (q : pair) (K : list pair) :
  NoDup K → q ∈ K →
  sumZ (λ p, if decide (φ p) then if decide (q = p) then 1 else 0 else 0) K
  = if decide (φ q) then 1 else 0.
Proof.
  induction 1 as [|p K Hp Hnd IH]; [by intros ?%elem_of_nil|].
  intros Hq. simpl. destruct (decide (q = p)) as [->|Hne].
  - rewrite (sumZ_ext _ (λ _, 0)), sumZ_zero; [lia|].
    intros p' Hp'. destruct (decide (p = p')) as [->|]; [done|].
    by destruct (decide (φ p')).
  - apply elem_of_cons in Hq as [?|Hq]; [done|]. rewrite IH by done.
    destruct (decide (φ p)); lia.
Qed.

Lemma sumZ_multiplicity (K L : list pair) :
  NoDup K → (∀ q, q ∈ L → q ∈ K) →
  sumZ (λ p, if decide (φ p) then multiplicity p L else 0) K = tally φ L.
Proof.
  intros Hnd. induction L as [|q L IH]; intros HL.
  - rewrite (sumZ_ext _ (λ _, 0)), sumZ_zero; [done|].
    intros p _. by case_decide.
  - rewrite tally_cons, <-IH by (intros q' Hq'; apply HL; by right).
    rewrite <-(sumZ_pick q K Hnd) by (apply HL; by left).
    rewrite <-sumZ_add. apply sumZ_ext. intros p _.
    rewrite multiplicity_cons. by case_decide.
Qed.

Lemma sumZ_edge_weight (S E : gset string) (td : trace_dict) (K : list pair) :
  NoDup K →
  (∀ e q, e ∈ td → q ∈ trace_edges S E e.1 → q ∈ K) →
  sumZ (λ p, if decide (φ p) then edge_weight S E td p else 0) K
  = sumZ (λ e : trace * metrics, count_of e.2 * tally φ (trace_edges S E e.1)) td.
Proof.
  intros Hnd. induction td as [|e td IH]; intros HK.
  - rewrite (sumZ_ext _ (λ _, 0)), sumZ_zero; [done|].
    intros p _. by case_decide.
  - cbn [sumZ foldr]. fold (sumZ (λ e : trace * metrics,
      count_of e.2 * tally φ (trace_edges S E e.1)) td).
    rewrite <-IH by (intros e' q He'; apply HK; by right).
    rewrite <-(sumZ_multiplicity K (trace_edges S E e.1) Hnd)
      by (intros q; apply HK; by left).
    rewrite <-sumZ_scale, <-sumZ_add. apply sumZ_ext. intros p _.
    cbn [edge_weight foldr]. fold (edge_weight S E td p).
    case_decide; lia.
Qed.

(** The total weight of the edges with a property, trace by trace. *)
Lemma flow_by_traces (S E : gset string) (td : trace_dict) (df : gmap pair Z) :
  (∀ p, df !! p = if decide (edge_present S E td p)
                  then Some (edge_weight S E td p) else None) →
  sumZ (λ kv : pair * Z, if decide (φ kv.1) then kv.2 else 0) (map_to_list df)
  = sumZ (λ e : trace * metrics, count_of e.2 * tally φ (trace_edges S E e.1)) td.
Proof.
  intros Hlookup.
  rewrite (sumZ_entries (edge_weight S E td)).
  - apply sumZ_edge_weight; [apply NoDup_fst_map_to_list|].
    intros e q He Hq. apply list_elem_of_fmap.
    exists (q, edge_weight S E td q). split; [done|].
    apply elem_of_map_to_list. rewrite Hlookup, decide_True; [done|].
    apply Exists_exists. by exists e.
  - intros [p w] Hkv%elem_of_map_to_list. simpl.
    rewrite Hlookup in Hkv. by case_decide; simplify_eq.
Qed.
End flows.

(** Each occurrence of [x] after the first position is entered by one
    consecutive pair; each occurrence before the last position is left by
    one. *)
Lemma tally_consecutive_in (x a : string) (t : trace) :
  tally (λ q : pair, q.2 = x) (consecutive_pairs (a :: t)) = tally (λ y, y = x) t.
Proof.
  revert a. induction t as [|b t IH]; intros a; [done|].
  change (consecutive_pairs (a :: b :: t)) with ((a, b) :: consecutive_pairs (b :: t)).
  by rewrite !tally_cons, IH.
Qed.

Lemma tally_consecutive_out (x a : string) (t : trace) :
  tally (λ q : pair, q.1 = x) (consecutive_pairs (a :: t))
  + (if decide (default a (last (a :: t)) = x) then 1 else 0)
  = tally (λ y, y = x) (a :: t).
Proof.
  revert a. induction t as [|b t IH]; intros a.
  - rewrite tally_cons. simpl. unfold tally. simpl. lia.
  - change (consecutive_pairs (a :: b :: t)) with ((a, b) :: consecutive_pairs (b :: t)).
    assert (Hlast : default a (last (a :: b :: t)) = default b (last (b :: t))).
    { change (last (a :: b :: t)) with (last (b :: t)).
      by destruct (last (b :: t)) eqn:Hl; [|apply last_None in Hl]. }
    rewrite Hlast, (tally_cons (λ y, y = x) a), tally_cons, <-IH.
    cbn [fst]. lia.
Qed.

Lemma tally_trace_edges (S E : gset string) (t : trace) (x : string) :
  t ≠ [] → (∀ a, head t = Some a → a ∈ S) → (∀ b, last t = Some b → b ∈ E) →
  tally (λ q : pair, q.1 = x) (trace_edges S E t)
  = tally (λ y, y = x) t + (if decide (x = "start") then 1 else 0)
  ∧ tally (λ q : pair, q.2 = x) (trace_edges S E t)
    = tally (λ y, y = x) t + (if decide (x = "end") then 1 else 0).
Proof.
  destruct t as [|a t]; [done|]. intros _ Hhead Hlast. unfold trace_edges.
  assert (HE : default a (last (a :: t)) ∈ E).
  { destruct (last (a :: t)) as [b|] eqn:Hl; [by apply Hlast|].
    by apply last_None in Hl. }
  rewrite decide_True by (by apply Hhead). rewrite decide_True by done.
  pose proof (tally_consecutive_out x a t) as Hout.
  rewrite !tally_app, !tally_cons, !tally_nil, tally_consecutive_in.
  rewrite tally_cons in Hout. cbn [fst snd].
  destruct (decide ("start" = x)), (decide (x = "start")),
    (decide ("end" = x)), (decide (x = "end")); try congruence; lia.
Qed.

Lemma sumZ_counts (g : trace * metrics → Z) (c : Z) (td : trace_dict) :
  sumZ (λ e : trace * metrics, count_of e.2 * (g e + c)) td
  = sumZ (λ e : trace * metrics, count_of e.2 * g e) td + c * sum_counts td.
Proof.
  induction td as [|e td IH]; [simpl; lia|].
  cbn [sumZ sum_counts foldr].
  fold (sumZ (λ e : trace * metrics, count_of e.2 * (g e + c)) td).
  fold (sumZ (λ e : trace * metrics, count_of e.2 * g e) td).
  fold (sum_counts td). rewrite IH. lia.
Qed.

(** X14. In the directly-follows relation of a successful run, the weights
    of the edges that leave a label add up to the case-weighted number of
    its occurrences in the traces, and so do the weights of the edges that
    enter it: inflow equals outflow at every activity. The sentinel
    ["start"] has in addition one unit of outflow per case and ["end"] one
    unit of inflow per case. *)
Theorem directly_follows_flow (td : trace_dict) (d : discovery) (x : string) :
  discover td = Ok d →
  outflow (directly_follows d) x
  = visits x td + (if decide (x = "start") then sum_counts td else 0)
  ∧ inflow (directly_follows d) x
    = visits x td + (if decide (x = "end") then sum_counts td else 0).
Proof.
  intros (starts & ends & df & _ & _ & Hne & _ & Hstarts & Hends & Hlookup & ->
         )%discover_ok_inv.
  cbn [directly_follows]. unfold outflow, inflow, visits.
  pose proof (flow_by_traces (λ q : pair, q.1 = x) _ _ td df Hlookup) as Hout.
  pose proof (flow_by_traces (λ q : pair, q.2 = x) _ _ td df Hlookup) as Hin.
  cbn beta in Hout, Hin. rewrite Hout, Hin. clear Hout Hin.
  assert (Hedges : ∀ e, e ∈ td →
            tally (λ q : pair, q.1 = x)
                  (trace_edges (list_to_set starts) (list_to_set ends) e.1)
            = tally (λ y, y = x) e.1 + (if decide (x = "start") then 1 else 0)
            ∧ tally (λ q : pair, q.2 = x)
                    (trace_edges (list_to_set starts) (list_to_set ends) e.1)
              = tally (λ y, y = x) e.1 + (if decide (x = "end") then 1 else 0)).
  { intros e He. apply tally_trace_edges.
    - rewrite Forall_forall in Hne. by apply Hne.
    - intros a Ha. apply elem_of_list_to_set, Hstarts. by exists e.
    - intros b Hb. apply elem_of_list_to_set, Hends. by exists e. }
  split.
  - rewrite (sumZ_ext _ (λ e : trace * metrics,
               count_of e.2 * (tally (λ y, y = x) e.1
                               + (if decide (x = "start") then 1 else 0))))
      by (intros e He; by rewrite (proj1 (Hedges e He))).
    rewrite sumZ_counts.
    destruct (decide (x = "start")); [rewrite Z.mul_1_l|rewrite Z.mul_0_l];
      reflexivity.
  - rewrite (sumZ_ext _ (λ e : trace * metrics,
               count_of e.2 * (tally (λ y, y = x) e.1
                               + (if decide (x = "end") then 1 else 0))))
      by (intros e He; by rewrite (proj2 (Hedges e He))).
    rewrite sumZ_counts.
    destruct (decide (x = "end")); [rewrite Z.mul_1_l|rewrite Z.mul_0_l];
      reflexivity.
Qed.

Lemma directly_follows_flow_witness :
  ∃ d, discover example_traces = Ok d
    ∧ outflow (directly_follows d) "b" = 5
    ∧ inflow (directly_follows d) "b" = 5
    ∧ outflow (directly_follows d) "start" = 6.
Proof.
  set (fp := create_footprint example_directly_follows).
  set (d := Discovery ["a"] ["d"] (identify_all_nodes example_traces)
              example_directly_follows fp (find_independent_sets fp)
              (find_transitions fp (find_independent_sets fp))
              (filter_maximal_sets (find_transitions fp (find_independent_sets fp)))).
  assert (Hd : discover example_traces = Ok d) by vm_refl.
  exists d. split; [done|].
  destruct (directly_follows_flow example_traces d "b" Hd) as [Hout Hin].
  destruct (directly_follows_flow example_traces d "start" Hd) as [Hstart _].
  rewrite Hout, Hin, Hstart. split_and!; vm_refl.
Defined.

(** ** The log generator *)








(** ** From the generator to the trace dictionary *)








(** ** A log on which rounding hides a removed trace *)



(** ** The traces of the cases *)

Lemma group_rows_nonempty (sorted : list event) (t : trace) :
  t ∈ (group_rows sorted).*2 → t ≠ [].
Proof.
  unfold group_rows. rewrite <-list_fmap_compose.
  intros (c & -> & Hc)%list_elem_of_fmap. simpl.
  rewrite elem_of_remove_dups in Hc.
  apply list_elem_of_fmap in Hc as (e & -> & He).
  intros Hnil%fmap_nil_inv.
  assert (Hin : e ∈ filter (λ e', case_id e' = case_id e) sorted).
  { by apply list_elem_of_filter. }
  rewrite Hnil in Hin. by apply elem_of_nil in Hin.
Qed.

Lemma case_traces_nonempty (df_log : list event) (t : trace) :
  t ∈ case_traces df_log → t ≠ [].
Proof. apply group_rows_nonempty. Qed.

(** The distinct members of an ascending list are strictly ascending. *)
Lemma remove_dups_ascending (l : list Z) :
  StronglySorted Z.le l → StronglySorted Z.lt (remove_dups l).
Proof.
  induction 1 as [|x l Hl IH Hx]; [constructor|].
  cbn [remove_dups]. destruct (decide_rel elem_of x l) as [|Hn]; [done|].
  constructor; [done|]. apply Forall_forall. intros y Hy.
  rewrite elem_of_remove_dups in Hy.
  rewrite Forall_forall in Hx. specialize (Hx y Hy).
  assert (x ≠ y) by (by intros ->). lia.
Qed.

(** The rows of one case, taken from a sorted frame, are in the order of
    their time stamps. *)
Lemma case_rows_by_timestamp (c : Z) (sorted : list event) :
  StronglySorted event_le sorted →
  StronglySorted (λ e1 e2, timestamp e1 ≤ timestamp e2)
                 (filter (λ e, case_id e = c) sorted).
Proof.
  induction 1 as [|x l Hl IH Hx]; [constructor|].
  rewrite filter_cons. case_decide as Hc; [|done].
  constructor; [done|]. apply Forall_forall.
  intros y [Hyc Hy]%list_elem_of_filter.
  rewrite Forall_forall in Hx. specialize (Hx y Hy).
  unfold event_le in Hx. lia.
Qed.

Lemma filter_case_timestamp (c ts : Z) (l : list event) :
  filter (λ e, timestamp e = ts) (filter (λ e, case_id e = c) l)
  = filter (λ e, case_id e = c ∧ timestamp e = ts) l.
Proof.
  induction l as [|x l IH]; [done|].
  rewrite !filter_cons.
  destruct (decide (case_id x = c)) as [Hc|Hc].
  - rewrite filter_cons, IH.
    destruct (decide (timestamp x = ts)) as [Ht|Ht].
    + by rewrite decide_True.
    + rewrite decide_False; [done|]. tauto.
  - rewrite IH. rewrite decide_False; [done|]. tauto.
Qed.

(** X17. [read_log_file] groups the rows by case, the cases in ascending
    order of their identifiers, one group for every identifier of the log.
    The trace of a case lists the activities of the rows of that case in
    ascending order of their time stamps, and rows of the case with equal
    time stamps in the order of the file. *)
Theorem group_traces_order (df_log : list event) :
  (∀ c, c ∈ (group_traces df_log).*1 ↔ c ∈ case_id <$> df_log)
  ∧ StronglySorted Z.lt (group_traces df_log).*1
  ∧ (∀ c t, (c, t) ∈ group_traces df_log →
       ∃ rows, t = activity_name <$> rows
         ∧ rows ≡ₚ filter (λ e, case_id e = c) df_log
         ∧ StronglySorted (λ e1 e2, timestamp e1 ≤ timestamp e2) rows
         ∧ ∀ ts, filter (λ e, timestamp e = ts) rows
                 = filter (λ e, timestamp e = ts)
                          (filter (λ e, case_id e = c) df_log)).
Proof.
  assert (Hsorted : StronglySorted event_le (sort_values df_log)).
  { apply Sorted_StronglySorted; [apply _|apply sort_values_Sorted]. }
  assert (Hids : (group_traces df_log).*1
                 = remove_dups (case_id <$> sort_values df_log)).
  { unfold group_traces, group_rows. rewrite <-list_fmap_compose.
    rewrite (list_fmap_ext _ id) by (by intros). by rewrite list_fmap_id. }
  split_and!.
  - intros c. rewrite Hids, elem_of_remove_dups, !list_elem_of_fmap.
    by setoid_rewrite (sort_values_Permutation df_log).
  - rewrite Hids. apply remove_dups_ascending.
    apply (StronglySorted_fmap case_id event_le); [|done].
    intros e1 e2. unfold event_le. lia.
  - intros c t. unfold group_traces, group_rows.
    intros (c' & [= -> ->] & _)%list_elem_of_fmap.
    exists (filter (λ e, case_id e = c') (sort_values df_log)).
    split_and!; [done| | |].
    + by rewrite sort_values_Permutation.
    + by apply case_rows_by_timestamp.
    + intros ts. by rewrite !filter_case_timestamp, sort_values_stable.
Qed.

(** ** The trace dictionary *)

Global Instance count_ge_total : Total count_ge.
Proof. intros x y. unfold count_ge. lia. Qed.

Lemma read_log_file_entry (df_log : list event) (t : trace) (m : metrics) :
  (t, m) ∈ read_log_file df_log →
  t ≠ [] ∧ ∃ n f, 1 ≤ n ∧ m = {["count" := PyInt n; "frequency" := PyFloat f]}.
Proof.
  intros [Ht ->]%elem_of_read_log_file.
  split; [by apply (case_traces_nonempty df_log)|].
  eexists _, _. split; [|done]. by apply Z.lt_pred_le, occurrences_pos.
Qed.

(** X18. The dictionary that [read_log_file] returns has exactly one entry
    for every distinct trace of the cases of the log and no other entry; no
    trace is empty; the entry of a trace holds the number of cases with that
    trace, an integer between 1 and the number of cases, and the float
    quotient of that number by the number of cases, and nothing else. The
    entries are in descending order of their counts, the counts add up to
    the number of distinct case identifiers of the log, and the empty log
    gives the empty dictionary. *)
Theorem read_log_file_entries (df_log : list event) :
  NoDup (read_log_file df_log).*1
  ∧ (∀ t, t ∈ (read_log_file df_log).*1 ↔ t ∈ case_traces df_log)
  ∧ (∀ t m, (t, m) ∈ read_log_file df_log →
       t ≠ []
       ∧ 1 ≤ occurrences t (case_traces df_log) ≤ total_cases df_log
       ∧ m = {["count" := PyInt (occurrences t (case_traces df_log));
               "frequency" := PyFloat (true_div (occurrences t (case_traces df_log))
                                                (total_cases df_log))]})
  ∧ Sorted (λ e1 e2 : trace * metrics, count_of e2.2 ≤ count_of e1.2)
           (read_log_file df_log)
  ∧ sum_counts (read_log_file df_log) = total_cases df_log
  ∧ read_log_file [] = [].
Proof.
  split_and!.
  - apply NoDup_read_log_file.
  - intros t. rewrite list_elem_of_fmap. split.
    + intros ([t' m] & -> & [Ht _]%elem_of_read_log_file). done.
    + intros Ht. eexists (t, _). split; [done|]. by apply elem_of_read_log_file.
  - intros t m [Ht ->]%elem_of_read_log_file.
    split_and!; [by apply (case_traces_nonempty df_log)| | |done].
    + by apply Z.lt_pred_le, occurrences_pos.
    + rewrite <-length_group_traces. unfold case_traces, occurrences.
      rewrite <-(length_fmap snd (group_traces df_log)).
      apply inj_le, length_filter.
  - unfold read_log_file, tabulate.
    apply (Sorted_fmap _ count_ge); [|apply stable_sort_Sorted, _].
    intros [t1 c1] [t2 c2] Hc. unfold count_ge in Hc. simpl in *.
    by rewrite !count_of_entry.
  - apply sum_counts_read_log_file.
  - done.
Qed.

(** ** The front end from the rows of the log *)

(** The threshold filter applied to the aggregated dictionary. *)
Lemma analysed_traces_ok (df_log : list event) (min_frequency : PrimFloat.float) :
  analysed_traces df_log min_frequency
  = Ok (filter (λ e, meets min_frequency e) (read_log_file df_log)).
Proof.
  apply threshold_filter_ok, Forall_forall.
  intros [t m] (_ & n & f & _ & ->)%read_log_file_entry.
  exists f. simpl. by rewrite lookup_insert_ne, lookup_singleton_eq.
Qed.

(** X19. From the rows of a log, the computing part of the front end's
    [start_analyser] (aggregation, threshold filter and the pipeline) raises
    no exception, whatever the threshold: every trace that the aggregation
    builds is non-empty, every count is an integer and every frequency a
    float. The nodes it lists are the two sentinels and the activities of
    the traces whose stored frequency meets the threshold; when no trace
    meets it, all structures are empty and the node list is [start, end]. *)
Theorem start_analyser_succeeds (df_log : list event)
    (min_frequency : PrimFloat.float) :
  ∃ d, start_analyser df_log min_frequency = Ok d
    ∧ (∀ x, x ∈ nodes d
          ↔ x = "start" ∨ x = "end"
            ∨ ∃ e, e ∈ read_log_file df_log
                   ∧ meets min_frequency e = true ∧ x ∈ e.1)
    ∧ (Forall (λ e, meets min_frequency e = false) (read_log_file df_log) →
       d = Discovery [] [] ["start"; "end"] ∅ ∅ [] ∅ ∅).
Proof.
  set (td := read_log_file df_log).
  set (kept := filter (λ e, meets min_frequency e) td).
  assert (Hentry : ∀ t m, (t, m) ∈ td →
            t ≠ [] ∧ ∃ n f, 1 ≤ n
              ∧ m = {["count" := PyInt n; "frequency" := PyFloat f]}).
  { intros t m. apply read_log_file_entry. }
  assert (Hkept : analysed_traces df_log min_frequency = Ok kept).
  { apply analysed_traces_ok. }
  assert (Hin : ∀ e, e ∈ kept ↔ e ∈ td ∧ meets min_frequency e = true).
  { intros e. unfold kept. rewrite list_elem_of_filter.
    destruct (meets min_frequency e); simpl; split; intros [? ?]; done. }
  assert (Hne : Forall (λ e : trace * metrics, e.1 ≠ []) kept).
  { apply Forall_forall. intros [t m] [[Ht _]%Hentry _]%Hin. done. }
  assert (Hacc : Forall count_accepted kept).
  { apply Forall_forall. intros [t m] [(_ & n & f & _ & ->)%Hentry _]%Hin.
    unfold count_accepted, recorded_count. simpl.
    rewrite lookup_insert_eq. by eexists. }
  destruct (discover_ok kept Hne Hacc) as [d Hd].
  exists d. unfold start_analyser. rewrite Hkept. cbn [mbind result_bind].
  split_and!; [done| |].
  - apply discover_ok_inv in Hd as (starts & ends & df & _ & _ & _ & _ & _ & _ & _ & ->).
    intros x. cbn [nodes]. rewrite elem_of_identify_all_nodes.
    unfold occurs. rewrite Exists_exists. setoid_rewrite Hin.
    split; (intros [?|[?|(e & ? & ?)]]; [by left|by right; left|right; right]);
      exists e; tauto.
  - intros Hnone.
    assert (Hnil : kept = []).
    { unfold kept. apply filter_none. intros e He.
      rewrite Forall_forall in Hnone. rewrite (Hnone e He). exact id. }
    assert (Hrun : discover [] = Ok (Discovery [] [] ["start"; "end"] ∅ ∅ [] ∅ ∅))
      by vm_refl.
    rewrite Hnil in Hd. congruence.
Qed.

(** ** The process diagram *)

Lemma elem_of_transition_statements (source target : list string) (r : relation)
    (a b : string) (dir : bool) :
  Edge a b dir ∈ transition_statements source target r →
  ∃ id label, Node id label Circle ∈ transition_statements source target r
    ∧ ((a ∈ source ∧ b = id) ∨ (a = id ∧ b ∈ target)).
Proof.
  unfold transition_statements.
  destruct r; try (by intros ?%elem_of_nil);
    rewrite elem_of_cons, elem_of_app, !list_elem_of_fmap;
    (intros [?|[(s & [= -> -> ->] & Hs)|(t & [= -> -> ->] & Ht)]]; [done| |]);
    eexists _, _; (split; [by left|]); auto.
Qed.

(** No statement of a transition is a rectangle, and none of its node
    statements is named ["start"] or ["end"]. *)
Lemma transition_statements_nodes (source target : list string) (r : relation)
    (name label : string) (sh : shape) :
  Node name label sh ∈ transition_statements source target r →
  sh = Circle ∧ name ≠ "start" ∧ name ≠ "end".
Proof.
  unfold transition_statements.
  destruct r; try (by intros ?%elem_of_nil);
    rewrite elem_of_cons, elem_of_app, !list_elem_of_fmap;
    (intros [[= -> _ ->]|[(? & [=] & _)|(? & [=] & _)]]); done.
Qed.

(** X20. In the diagram built from a successful run, every edge joins two
    names that have a node statement. The rectangles are exactly the listed
    nodes other than ["start"] and ["end"], each labelled by its name. The
    edges that leave ["start"] are arrows and lead exactly to the initial
    events, and the edges that enter ["end"] are arrows and come exactly
    from the final events; the one exception is the arrow from ["start"] to
    ["end"], which is also drawn when an activity named ["start"] ends a
    trace or one named ["end"] begins one. *)
Theorem create_process_diagram_closed (td : trace_dict) (d : discovery) :
  discover td = Ok d →
  let diagram := create_process_diagram (initial_events d) (final_events d)
                   (nodes d) (filtered_transitions d) in
  (∀ a b dir, Edge a b dir ∈ diagram → declared diagram a ∧ declared diagram b)
  ∧ (∀ x label, Node x label Rect ∈ diagram
       ↔ label = x ∧ x ∈ nodes d ∧ x ≠ "start" ∧ x ≠ "end")
  ∧ (∀ x dir, Edge "start" x dir ∈ diagram
       ↔ dir = true
         ∧ (x ∈ initial_events d ∨ (x = "end" ∧ "start" ∈ final_events d)))
  ∧ (∀ x dir, Edge x "end" dir ∈ diagram
       ↔ dir = true
         ∧ (x ∈ final_events d ∨ (x = "start" ∧ "end" ∈ initial_events d))).
Proof.
  intros Hd diagram.
  pose proof (λ x, discover_footprint_labels td d x Hd) as Hlabels.
  apply discover_ok_inv in Hd
    as (starts & ends & df & _ & _ & Hne & _ & Hstarts & Hends & _ & ->).
  cbn [initial_events final_events nodes filtered_transitions footprint] in *.
  set (fp := create_footprint df) in *.
  set (tr := find_transitions fp (find_independent_sets fp)) in *.
  assert (Hfilter : ∀ x, x ∈ filter (λ node, node ∉ ["start"; "end"])
                               (identify_all_nodes td)
            ↔ x ∈ identify_all_nodes td ∧ x ≠ "start" ∧ x ≠ "end").
  { intros x. rewrite list_elem_of_filter, !not_elem_of_cons. split.
    - intros [(? & ? & _) ?]. done.
    - intros (? & ? & ?). split_and!; [done..| |done]. apply not_elem_of_nil. }
  assert (Hmember : ∀ k r x, (k, r) ∈ map_to_list (filter_maximal_sets tr) →
            x ∈ k.1 ++ k.2 → x ∈ identify_all_nodes td ∧ x ≠ "start" ∧ x ≠ "end").
  { intros k r x [Hk _]%elem_of_map_to_list%filter_maximal_sets_lookup Hx.
    apply Hlabels. by apply (find_transitions_members fp k r). }
  assert (Hin : ∀ st, st ∈ diagram
            ↔ (∃ x, st = Node x x Rect
                 ∧ x ∈ identify_all_nodes td ∧ x ≠ "start" ∧ x ≠ "end")
              ∨ (∃ k r, (k, r) ∈ map_to_list (filter_maximal_sets tr)
                   ∧ st ∈ transition_statements k.1 k.2 r)
              ∨ (∃ event, event ∈ starts
                   ∧ (st = Node "start" "start" Circle ∨ st = Edge "start" event true))
              ∨ (∃ event, event ∈ ends
                   ∧ (st = Node "end" "end" Circle ∨ st = Edge event "end" true))).
  { intros st. unfold diagram, create_process_diagram.
    rewrite !elem_of_app, list_elem_of_fmap, !list_elem_of_bind.
    setoid_rewrite Hfilter.
    split; (intros [H1|[H2|[H3|H4]]]; [left|right; left|right; right; left|
                                         right; right; right]).
    - done.
    - destruct H2 as ([k r] & ? & ?). by exists k, r.
    - destruct H3 as (event & Hst & ?). exists event. split; [done|].
      rewrite !elem_of_cons in Hst. destruct Hst as [?|[?|[]%elem_of_nil]]; auto.
    - destruct H4 as (event & Hst & ?). exists event. split; [done|].
      rewrite !elem_of_cons in Hst. destruct Hst as [?|[?|[]%elem_of_nil]]; auto.
    - done.
    - destruct H2 as (k & r & ? & ?). by exists (k, r).
    - destruct H3 as (event & ? & Hst). exists event. split; [|done].
      rewrite !elem_of_cons. tauto.
    - destruct H4 as (event & ? & Hst). exists event. split; [|done].
      rewrite !elem_of_cons. tauto. }
  assert (Hrect : ∀ x, x ∈ identify_all_nodes td → x ≠ "start" → x ≠ "end" →
            declared diagram x).
  { intros x ? ? ?. exists x, Rect. apply Hin. left. by exists x. }
  assert (Hstart : starts ≠ [] → declared diagram "start").
  { intros Hs. destruct starts as [|event starts']; [done|].
    exists "start", Circle. apply Hin. right; right; left.
    exists event. split; [by left|by left]. }
  assert (Hend : ends ≠ [] → declared diagram "end").
  { intros He. destruct ends as [|event ends']; [done|].
    exists "end", Circle. apply Hin. right; right; right.
    exists event. split; [by left|by left]. }
  assert (Hboth : ∀ e, e ∈ td → starts ≠ [] ∧ ends ≠ []).
  { intros e He. rewrite Forall_forall in Hne. specialize (Hne e He).
    destruct (first_event_head e.1 Hne) as (x & _ & Hx).
    destruct (last_event_last e.1 Hne) as (y & _ & Hy).
    assert (Hxs : x ∈ starts) by (apply Hstarts; by exists e).
    assert (Hye : y ∈ ends) by (apply Hends; by exists e).
    split; intros Hnil; [rewrite Hnil in Hxs|rewrite Hnil in Hye];
      by apply elem_of_nil in Hxs || by apply elem_of_nil in Hye. }
  assert (Hevent : ∀ x e, e ∈ td → x ∈ e.1 → declared diagram x).
  { intros x e He Hx. destruct (Hboth e He) as [Hs' He'].
    destruct (decide (x = "start")) as [->|?]; [by apply Hstart|].
    destruct (decide (x = "end")) as [->|?]; [by apply Hend|].
    apply Hrect; [|done..]. apply elem_of_identify_all_nodes.
    right; right. apply Exists_exists. by exists e. }
  assert (Hsentinel : ∀ k r a b dir,
            (k, r) ∈ map_to_list (filter_maximal_sets tr) →
            Edge a b dir ∈ transition_statements k.1 k.2 r →
            a ≠ "start" ∧ b ≠ "end").
  { intros k r a b dir Hk Hst.
    apply elem_of_transition_statements in Hst as (id & label & Hid & Hab).
    apply transition_statements_nodes in Hid as (_ & ? & ?).
    destruct Hab as [[Ha ->]|[-> Hb]].
    - split; [|done].
      by destruct (Hmember k r a Hk) as (_ & ? & _); [apply elem_of_app; left|].
    - split; [done|].
      by destruct (Hmember k r b Hk) as (_ & _ & ?); [apply elem_of_app; right|]. }
  split_and!.
  - intros a b dir [(x & [=] & _)|[(k & r & Hk & Hst)|[(ev & Hev & Hst)
                                                      |(ev & Hev & Hst)]]]%Hin.
    + apply elem_of_transition_statements in Hst as (id & label & Hid & Hab).
      assert (Hdecl : declared diagram id).
      { exists label, Circle. apply Hin. right; left. by exists k, r. }
      destruct Hab as [[Ha ->]|[-> Hb]].
      * split; [|done]. destruct (Hmember k r a Hk) as (? & ? & ?);
          [apply elem_of_app; by left|]. by apply Hrect.
      * split; [done|]. destruct (Hmember k r b Hk) as (? & ? & ?);
          [apply elem_of_app; by right|]. by apply Hrect.
    + destruct Hst as [[=]|[= -> -> ->]].
      apply Hstarts in Hev as Hhead. destruct Hhead as (e & He & Hhead).
      split; [apply Hstart; by destruct (Hboth e He)|].
      apply (Hevent ev e He). by apply head_Some_elem_of.
    + destruct Hst as [[=]|[= -> -> ->]].
      apply Hends in Hev as Hlast. destruct Hlast as (e & He & Hlast).
      split; [|apply Hend; by destruct (Hboth e He)].
      apply (Hevent ev e He). by apply last_Some_elem_of.
  - intros x label. rewrite Hin. split.
    + intros [(y & [= -> ->] & ?)|[(k & r & _ & Hst)|[(ev & _ & [[=]|[=]])
                                                    |(ev & _ & [[=]|[=]])]]];
        [done|].
      by apply transition_statements_nodes in Hst as [[=] _].
    + intros (-> & ? & ? & ?). left. by exists x.
  - intros x dir. rewrite Hin. split.
    + intros [(y & [=] & _)|[(k & r & Hk & Hst)|[(ev & Hev & [[=]|[= -> ->]])
                                                |(ev & Hev & [[=]|[= -> -> ->]])]]].
      * by destruct (Hsentinel k r "start" x dir Hk Hst).
      * auto.
      * auto.
    + intros [-> [Hx|[-> Hx]]].
      * right; right; left. exists x. auto.
      * right; right; right. exists "start". auto.
  - intros x dir. rewrite Hin. split.
    + intros [(y & [=] & _)|[(k & r & Hk & Hst)|[(ev & Hev & [[=]|[= -> -> ->]])
                                                |(ev & Hev & [[=]|[= -> ->]])]]].
      * by destruct (Hsentinel k r x "end" dir Hk Hst).
      * auto.
      * auto.
    + intros [-> [Hx|[-> Hx]]].
      * right; right; right. exists x. auto.
      * right; right; left. exists "end". auto.
Qed.

Lemma create_process_diagram_closed_witness :
  ∃ d, discover example_traces = Ok d
    ∧ Edge "start" "a" true
        ∈ create_process_diagram (initial_events d) (final_events d) (nodes d)
            (filtered_transitions d)
    ∧ declared (create_process_diagram (initial_events d) (final_events d)
                  (nodes d) (filtered_transitions d)) "a".
Proof.
  set (fp := create_footprint example_directly_follows).
  set (d := Discovery ["a"] ["d"] (identify_all_nodes example_traces)
              example_directly_follows fp (find_independent_sets fp)
              (find_transitions fp (find_independent_sets fp))
              (filter_maximal_sets (find_transitions fp (find_independent_sets fp)))).
  assert (Hd : discover example_traces = Ok d) by vm_refl.
  destruct (create_process_diagram_closed example_traces d Hd)
    as (Hclosed & _ & Hstart & _).
  exists d. split; [done|].
  assert (Hedge : Edge "start" "a" true
                    ∈ create_process_diagram (initial_events d) (final_events d)
                        (nodes d) (filtered_transitions d)).
  { apply Hstart. split; [done|]. left. simpl. by left. }
  split; [done|]. by destruct (Hclosed "start" "a" true Hedge).
Defined.

(** ** The footprint and the transitions in terms of the log *)

Lemma elem_of_trace_edges_inner (S E : gset string) (t : trace) (a b : string) :
  a ≠ "start" → b ≠ "end" →
  (a, b) ∈ trace_edges S E t ↔ (a, b) ∈ consecutive_pairs t.
Proof.
  intros Ha Hb. destruct t as [|first t']; [done|].
  unfold trace_edges. rewrite !elem_of_app. split; [|auto].
  intros [Hs|[?|He]]; [|done|].
  - case_decide; [|by apply elem_of_nil in Hs].
    by apply list_elem_of_singleton in Hs as [= ? ?].
  - case_decide; [|by apply elem_of_nil in He].
    by apply list_elem_of_singleton in He as [= ? ?].
Qed.

(** X21. The footprint matrix of a successful run, read off the log: it
    has a cell for [(a, b)] exactly when both are activities of the traces
    other than ["start"] and ["end"], and the cell holds the symbol that the
    policy table gives for [a == b], "some trace has [a] immediately
    followed by [b]" and "some trace has [b] immediately followed by [a]".
    Neither the counts nor the boundary edges have any influence. *)
Theorem discover_footprint (td : trace_dict) (d : discovery) (a b : string) :
  discover td = Ok d →
  footprint d !! (a, b)
  = if decide ((occurs td a ∧ a ∉ sentinels) ∧ (occurs td b ∧ b ∉ sentinels))
    then Some (policy_table (bool_decide (a = b))
                            (bool_decide (follows td a b))
                            (bool_decide (follows td b a)))
    else None.
Proof.
  intros Hd.
  pose proof (λ x, discover_footprint_labels td d x Hd) as Hlabels.
  apply discover_ok_inv in Hd
    as (starts & ends & df & _ & _ & _ & _ & _ & _ & Hlookup & ->).
  cbn [footprint nodes] in *.
  assert (Hact : ∀ x, x ∈ activities df ↔ occurs td x ∧ x ∉ sentinels).
  { intros x. rewrite <-events_of_create_footprint, Hlabels,
      elem_of_identify_all_nodes, not_elem_of_sentinels. tauto. }
  assert (Hkey : ∀ x y, x ∉ sentinels → y ∉ sentinels →
            has_key df (x, y) = bool_decide (follows td x y)).
  { intros x y [Hx _]%not_elem_of_sentinels [_ Hy]%not_elem_of_sentinels.
    unfold has_key. apply bool_decide_ext. rewrite Hlookup.
    assert (Hiff : edge_present (list_to_set starts) (list_to_set ends) td (x, y)
                   ↔ follows td x y).
    { unfold edge_present, follows. rewrite !Exists_exists.
      split; intros (e & He & Hp); exists e; (split; [done|]);
        by apply (elem_of_trace_edges_inner (list_to_set starts) (list_to_set ends)
                    e.1 x y Hx Hy). }
    destruct (decide _) as [Hex|Hn].
    - split; [intros _; by apply Hiff|by eexists].
    - split; [by intros [? ?]|]. intros Hf. destruct Hn. by apply Hiff. }
  rewrite create_footprint_lookup.
  destruct (decide (a ∈ activities df ∧ b ∈ activities df)) as [[Ha Hb]|Hn];
    destruct (decide ((occurs td a ∧ a ∉ sentinels) ∧ (occurs td b ∧ b ∉ sentinels)))
      as [[Ha' Hb']|Hn'].
  - destruct Ha' as [_ Ha'], Hb' as [_ Hb'].
    by rewrite footprint_cell_policy, !Hkey.
  - destruct Hn'. split; by apply Hact.
  - destruct Hn. split; by apply Hact.
  - done.
Qed.

Lemma discover_footprint_witness :
  ∃ d, discover example_traces = Ok d
    ∧ footprint d !! ("a", "b") = Some CausalFwd
    ∧ footprint d !! ("b", "c") = Some Parallel
    ∧ footprint d !! ("start", "a") = None.
Proof.
  set (fp := create_footprint example_directly_follows).
  set (d := Discovery ["a"] ["d"] (identify_all_nodes example_traces)
              example_directly_follows fp (find_independent_sets fp)
              (find_transitions fp (find_independent_sets fp))
              (filter_maximal_sets (find_transitions fp (find_independent_sets fp)))).
  assert (Hd : discover example_traces = Ok d) by vm_refl.
  exists d. split; [done|].
  split_and!.
  - refine (eq_trans (discover_footprint example_traces d "a" "b" Hd) _). vm_refl.
  - refine (eq_trans (discover_footprint example_traces d "b" "c" Hd) _). vm_refl.
  - refine (eq_trans (discover_footprint example_traces d "start" "a" Hd) _). vm_refl.
Defined.

(** The cross pairs of a transition carry its symbol in the matrix. *)
Lemma find_transitions_cells (df : gmap pair Z) (sets : list (gset string))
    (k : tkey) (r : relation) (x y : string) :
  NoDup sets →
  find_transitions (create_footprint df) sets !! k = Some r →
  x ∈ k.1 → y ∈ k.2 → create_footprint df !! (x, y) = Some r.
Proof.
  intros Hnd (A & B & _ & Ht)%find_transitions_lookup; [|done].
  apply transition_of_pair in Ht as [(-> & _ & _ & _ & Hall)|(-> & -> & _ & _ & Hall)];
    simpl; rewrite !elem_of_elements; intros Hx Hy.
  - by apply Hall.
  - by apply (create_footprint_converse df y x CausalBwd), Hall.
Qed.

(** X22. In a successful run every cross pair of a transition carries the
    symbol of the transition in the footprint matrix, and the filter loses
    no pair: each transition is covered by a retained transition of the same
    symbol. *)
Theorem discover_transitions_sound (td : trace_dict) (d : discovery) :
  discover td = Ok d →
  (∀ k r x y, transitions d !! k = Some r → x ∈ k.1 → y ∈ k.2 →
     footprint d !! (x, y) = Some r)
  ∧ (∀ k r, transitions d !! k = Some r →
       ∃ top, filtered_transitions d !! top = Some r
              ∧ coverage k ⊆ coverage top).
Proof.
  intros (starts & ends & df & _ & _ & _ & _ & _ & _ & _ & ->)%discover_ok_inv.
  cbn [footprint transitions filtered_transitions].
  set (fp := create_footprint df).
  set (tr := find_transitions fp (find_independent_sets fp)).
  assert (Hnd : NoDup (find_independent_sets fp))
    by apply NoDup_find_independent_sets.
  assert (Hcells : ∀ k r x y, tr !! k = Some r → x ∈ k.1 → y ∈ k.2 →
            fp !! (x, y) = Some r).
  { intros k r x y. by apply find_transitions_cells. }
  split; [done|]. intros k r Hk.
  destruct (find_transitions_coverages fp _ Hnd) as [Hcov Hinj].
  destruct (undominated_above tr k Hinj) as (top & [r' Htop] & Hund & Hsub);
    [by eexists|].
  exists top. split; [|done]. apply filter_maximal_sets_lookup. split; [|done].
  assert (Hne : coverage k ≠ ∅) by apply (Hcov k r Hk).
  apply set_choose_L in Hne as [[x y] Hxy].
  assert (Hxy' : (x, y) ∈ coverage top) by (by apply Hsub).
  apply elem_of_deconstruct_subset in Hxy as [Hx Hy].
  apply elem_of_deconstruct_subset in Hxy' as [Hx' Hy'].
  pose proof (Hcells k r x y Hk Hx Hy) as H1.
  pose proof (Hcells top r' x y Htop Hx' Hy') as H2.
  congruence.
Qed.

Lemma discover_transitions_sound_witness :
  ∃ d, discover example_traces = Ok d
    ∧ transitions d !! (["a"], ["b"]) = Some CausalFwd
    ∧ ∃ top, filtered_transitions d !! top = Some CausalFwd
             ∧ coverage (["a"], ["b"]) ⊆ coverage top.
Proof.
  set (fp := create_footprint example_directly_follows).
  set (d := Discovery ["a"] ["d"] (identify_all_nodes example_traces)
              example_directly_follows fp (find_independent_sets fp)
              (find_transitions fp (find_independent_sets fp))
              (filter_maximal_sets (find_transitions fp (find_independent_sets fp)))).
  assert (Hd : discover example_traces = Ok d) by vm_refl.
  assert (Hab : transitions d !! (["a"], ["b"]) = Some CausalFwd) by vm_refl.
  exists d. split_and!; [done..|].
  destruct (discover_transitions_sound example_traces d Hd) as [_ Hcover].
  exact (Hcover _ _ Hab).
Defined.

(** ** The drawing of the directly-follows relation *)

Lemma edge_weight_nonneg (S E : gset string) (td : trace_dict) (p : pair) :
  Forall (λ e : trace * metrics, 1 ≤ count_of e.2) td → 0 ≤ edge_weight S E td p.
Proof.
  induction 1 as [|e td He _ IH]; [done|].
  cbn [edge_weight foldr]. fold (edge_weight S E td p).
  unfold multiplicity at 1. nia.
Qed.

Lemma edge_weight_pos (S E : gset string) (td : trace_dict) (p : pair) :
  Forall (λ e : trace * metrics, 1 ≤ count_of e.2) td →
  edge_present S E td p → 1 ≤ edge_weight S E td p.
Proof.
  unfold edge_present. induction 1 as [|e td He Htd IH]; [by intros ?%Exists_nil|].
  intros Hex. cbn [edge_weight foldr]. fold (edge_weight S E td p).
  pose proof (edge_weight_nonneg S E td p Htd) as Hrest.
  apply Exists_cons in Hex as [Hp|Hex].
  - assert (Hm : 1 ≤ multiplicity p (trace_edges S E e.1)).
    { unfold multiplicity.
      assert (Hin : p ∈ filter (λ q, q = p) (trace_edges S E e.1))
        by (by apply list_elem_of_filter).
      destruct (filter _ _); [by apply elem_of_nil in Hin|]. simpl. lia. }
    nia.
  - specialize (IH Hex). unfold multiplicity. nia.
Qed.

(** X23. [display_directly_follows] draws a node for every source and
    every target of the relation, whether or not any of its edges is drawn,
    and an edge exactly for the entries whose count reaches the threshold,
    labelled with the count. In the front end, where the relation comes
    from the rows of a log and the threshold is the default 1, every count
    is at least 1, so no edge of the relation is left out. *)
Theorem display_directly_follows_complete (df_log : list event)
    (min_frequency : PrimFloat.float) (d : discovery) :
  start_analyser df_log min_frequency = Ok d →
  (∀ (df : gmap pair Z) (threshold : Z) x,
     DfgNode x ∈ display_directly_follows df threshold
     ↔ ∃ y, is_Some (df !! (x, y)) ∨ is_Some (df !! (y, x)))
  ∧ (∀ (df : gmap pair Z) (threshold : Z) a b c,
       DfgEdge a b c ∈ display_directly_follows df threshold
       ↔ df !! (a, b) = Some c ∧ threshold ≤ c)
  ∧ (∀ a b c, directly_follows d !! (a, b) = Some c →
       1 ≤ c ∧ DfgEdge a b c ∈ display_directly_follows (directly_follows d) 1).
Proof.
  intros Hrun.
  assert (Hnodes : ∀ (df : gmap pair Z) (threshold : Z) x,
            DfgNode x ∈ display_directly_follows df threshold
            ↔ ∃ y, is_Some (df !! (x, y)) ∨ is_Some (df !! (y, x))).
  { intros df threshold x. unfold display_directly_follows.
    rewrite elem_of_app, list_elem_of_fmap, list_elem_of_bind. split.
    - intros [(y & [= ->] & Hy%elem_of_elements)|([p c] & Hst & _)].
      + apply elem_of_union in Hy as [Hy|Hy];
          apply elem_of_list_to_set, list_elem_of_fmap in Hy
            as ([a b] & -> & ([k c] & [= <-] & Hk%elem_of_map_to_list
                )%list_elem_of_fmap); simpl.
        * exists b. left. by exists c.
        * exists a. right. by exists c.
      + case_decide; [|by apply elem_of_nil in Hst].
        by apply list_elem_of_singleton in Hst.
    - intros (y & [[c Hc]|[c Hc]]); left; exists x; (split; [done|]);
        apply elem_of_elements, elem_of_union; [left|right];
        apply elem_of_list_to_set, list_elem_of_fmap.
      + exists (x, y). split; [done|]. apply list_elem_of_fmap.
        exists (x, y, c). split; [done|]. by apply elem_of_map_to_list.
      + exists (y, x). split; [done|]. apply list_elem_of_fmap.
        exists (y, x, c). split; [done|]. by apply elem_of_map_to_list. }
  assert (Hedges : ∀ (df : gmap pair Z) (threshold : Z) a b c,
            DfgEdge a b c ∈ display_directly_follows df threshold
            ↔ df !! (a, b) = Some c ∧ threshold ≤ c).
  { intros df threshold a b c. unfold display_directly_follows.
    rewrite elem_of_app, list_elem_of_fmap, list_elem_of_bind. split.
    - intros [(y & [=] & _)|([[a' b'] c'] & Hst & Hk%elem_of_map_to_list)].
      simpl in Hst. case_decide; [|by apply elem_of_nil in Hst].
      by apply list_elem_of_singleton in Hst as [= -> -> ->].
    - intros [Hk Hc]. right. exists (a, b, c). simpl.
      rewrite decide_True by done.
      split; [by apply list_elem_of_singleton|by apply elem_of_map_to_list]. }
  split_and!; [done..|].
  unfold start_analyser in Hrun. rewrite analysed_traces_ok in Hrun.
  cbn [mbind result_bind] in Hrun.
  set (kept := filter (λ e, meets min_frequency e) (read_log_file df_log)) in *.
  apply discover_ok_inv in Hrun
    as (starts & ends & df & _ & _ & _ & _ & _ & _ & Hlookup & ->).
  cbn [directly_follows]. intros a b c Hc.
  assert (Hcounts : Forall (λ e : trace * metrics, 1 ≤ count_of e.2) kept).
  { apply Forall_forall. intros [t m] [_ Hin]%list_elem_of_filter.
    apply read_log_file_entry in Hin as (_ & n & f & Hn & ->).
    simpl. by rewrite count_of_entry. }
  assert (Hone : 1 ≤ c).
  { rewrite Hlookup in Hc. destruct (decide _) as [Hex|]; [|done].
    injection Hc as <-. by apply edge_weight_pos. }
  split; [done|]. by apply Hedges.
Qed.

Lemma display_directly_follows_complete_witness :
  ∃ d, start_analyser example_log PrimFloat.zero = Ok d
    ∧ DfgEdge "a" "b" 3 ∈ display_directly_follows (directly_follows d) 1.
Proof.
  set (fp := create_footprint example_directly_follows).
  set (d := Discovery ["a"] ["d"] (identify_all_nodes example_traces)
              example_directly_follows fp (find_independent_sets fp)
              (find_transitions fp (find_independent_sets fp))
              (filter_maximal_sets (find_transitions fp (find_independent_sets fp)))).
  assert (Hd : start_analyser example_log PrimFloat.zero = Ok d) by vm_refl.
  exists d. split; [done|].
  destruct (display_directly_follows_complete example_log PrimFloat.zero d Hd)
    as (_ & _ & Hall).
  apply (Hall "a" "b" 3). vm_refl.
Defined.
